(** * gdoc-cli: section parser, search and markdown compiler

    A shallow embedding of [document-sections.js] (section parser, delete
    requests, search) and of the [MarkdownToDocsConverter] class
    (markdown-to-docs.js), followed by the properties stated about them.

    Conventions.
    - A JavaScript string is a [string]: one [ascii] stands for one code
      unit, so [.length] is [String.length].
    - [toLowerCase] is the runtime's conversion and is left open: the
      definitions and properties hold for every conversion that keeps the
      empty string empty and makes no other string empty.  The sample
      inputs are ASCII text, lower-cased character by character.
    - Positions of a retrieved document are naturals (the Docs API never
      returns a negative index); positions computed by the code for the
      requests it builds are integers, since the code subtracts from them. *)

From Stdlib Require Import List String Ascii ZArith Lia Bool Arith PeanoNat.
From Stdlib Require Import DecimalString Decimal Sorted.
From Stdlib Require DecimalNat.
Import ListNotations.

Set Warnings "-register-all".

Local Open Scope string_scope.
Local Open Scope list_scope.
Local Open Scope nat_scope.

(** ** JavaScript helpers *)

Module JS.

(** The line feed, written ['\n'] in the source. *)
Definition LF : string := String (ascii_of_nat 10) EmptyString.

(** [String(n)] for a non-negative integer, as template literals print it. *)
Definition ofNat (n : nat) : string := NilZero.string_of_uint (Nat.to_uint n).

(** [s.startsWith(p)]. *)
Definition startsWith (s p : string) : bool := String.prefix p s.

(** [s.replace(p, '')] for a string [s] that starts with [p]: the first
    occurrence of [p] is the prefix itself. *)
Definition dropPrefix (s p : string) : string :=
  substring (String.length p) (String.length s - String.length p) s.

Definition digitValue (c : ascii) : option nat :=
  let n := nat_of_ascii c in
  if (48 <=? n) && (n <=? 57) then Some (n - 48) else None.

Fixpoint parseDigits (s : string) (acc : nat) : nat :=
  match s with
  | EmptyString => acc
  | String c r =>
      match digitValue c with
      | Some d => parseDigits r (10 * acc + d)
      | None => acc
      end
  end.

(** [parseInt(s)] on an unsigned decimal prefix; [None] is [NaN]. *)
Definition parseInt (s : string) : option nat :=
  match s with
  | EmptyString => None
  | String c _ =>
      match digitValue c with
      | Some _ => Some (parseDigits s 0)
      | None => None
      end
  end.

(** [s.replace(/\n$/, '')]: one trailing line feed is removed. *)
Fixpoint stripTrailingLF (s : string) : string :=
  match s with
  | EmptyString => EmptyString
  | String c r =>
      match r with
      | EmptyString => if Ascii.eqb c (ascii_of_nat 10) then EmptyString else s
      | String _ _ => String c (stripTrailingLF r)
      end
  end.

(** [parts.join('')]. *)
Definition join (parts : list string) : string :=
  fold_right String.append EmptyString parts.

End JS.

(** ** The retrieved document *)

Module Docs.

(** The values of the Docs API enumeration [NamedStyleType]. *)
Inductive NamedStyleType :=
| NAMED_STYLE_TYPE_UNSPECIFIED
| NORMAL_TEXT
| TITLE
| SUBTITLE
| HEADING_1
| HEADING_2
| HEADING_3
| HEADING_4
| HEADING_5
| HEADING_6.

(** The string the API sends for each value. *)
Definition styleName (t : NamedStyleType) : string :=
  match t with
  | NAMED_STYLE_TYPE_UNSPECIFIED => "NAMED_STYLE_TYPE_UNSPECIFIED"
  | NORMAL_TEXT => "NORMAL_TEXT"
  | TITLE => "TITLE"
  | SUBTITLE => "SUBTITLE"
  | HEADING_1 => "HEADING_1"
  | HEADING_2 => "HEADING_2"
  | HEADING_3 => "HEADING_3"
  | HEADING_4 => "HEADING_4"
  | HEADING_5 => "HEADING_5"
  | HEADING_6 => "HEADING_6"
  end.

Record TextRun := { content : string }.

Record ParagraphElement := { textRun : option TextRun }.

Record ParagraphStyle := {
  namedStyleType : option NamedStyleType;
  headingId : option string
}.

Record Paragraph := {
  elements : option (list ParagraphElement);
  paragraphStyle : option ParagraphStyle
}.

(** A structural element of [doc.body.content].  Only the fields the code
    reads are kept; an element that is not a paragraph (table, section
    break) has [paragraph = None]. *)
Record StructuralElement := {
  startIndex : nat;
  endIndex : nat;
  paragraph : option Paragraph
}.

Record Document := { content_of_body : list StructuralElement }.

End Docs.

(** ** Requests of the Docs API batch update *)

Module Req.

(** [rgbColor] with its three channels in hundredths (0.95 is 95). *)
Record RgbColor := { red : nat; green : nat; blue : nat }.

Record FontSize := { magnitude : nat; unit : string }.

Record TextStyle := {
  bold : option bool;
  italic : option bool;
  link : option string;
  weightedFontFamily : option string;
  fontSize : option FontSize;
  backgroundColor : option RgbColor
}.

Definition noStyle : TextStyle :=
  {| bold := None; italic := None; link := None;
     weightedFontFamily := None; fontSize := None; backgroundColor := None |}.

(** The request objects.  The first five are built in the source; the
    shape of [insertTable] follows section 6 of the specification (the
    table pass that builds it is in gdoc.js). *)
Inductive Request :=
| insertText (index : Z) (text : string)
| updateTextStyle (startIndex endIndex : Z) (textStyle : TextStyle) (fields : string)
| updateParagraphStyle (startIndex endIndex : Z) (namedStyleType : string) (fields : string)
| createParagraphBullets (startIndex endIndex : Z) (bulletPreset : string)
| deleteContentRange (startIndex endIndex : Z)
| insertTable (index : Z) (rows columns : nat).

End Req.

(** ** document-sections.js *)

Module Sections.
Import Docs.

Record Heading := {
  h_level : nat;
  h_text : string;
  h_headingId : option string;
  h_startIndex : nat;
  h_endIndex : nat
}.

Record Section := {
  level : nat;
  title : string;
  headingId : option string;
  headingStartIndex : nat;
  headingEndIndex : nat;
  contentStartIndex : nat;
  contentEndIndex : nat;
  sectionStartIndex : nat;
  sectionEndIndex : nat
}.

(** [extractTextFromParagraph]. *)
Definition extractTextFromParagraph (p : Paragraph) : string :=
  match elements p with
  | None => ""
  | Some els =>
      JS.stripTrailingLF
        (JS.join
           (map (fun element =>
                   match textRun element with
                   | Some run => content run
                   | None => ""
                   end) els))
  end.

(** [parseInt(namedStyleType.replace('HEADING_', ''))]; the [NaN] case
    does not arise for the names of the enumeration
    (see [levelOfStyle_heading]). *)
Definition levelOfStyle (name : string) : nat :=
  match JS.parseInt (JS.dropPrefix name "HEADING_") with
  | Some n => n
  | None => 0
  end.

(** The body of the first loop of [parseDocumentSections] for one element:
    the heading it pushes, if any. *)
Definition headingOfElement (element : StructuralElement) : option Heading :=
  match paragraph element with
  | None => None
  | Some para =>
      match paragraphStyle para with
      | None => None
      | Some style =>
          match namedStyleType style with
          | None => None
          | Some named =>
              if JS.startsWith (styleName named) "HEADING_" then
                Some {| h_level := levelOfStyle (styleName named);
                        h_text := extractTextFromParagraph para;
                        h_headingId := Docs.headingId style;
                        h_startIndex := startIndex element;
                        h_endIndex := endIndex element |}
              else None
          end
      end
  end.

(** First loop: all headings, in document order. *)
Fixpoint collectHeadings (content : list StructuralElement) : list Heading :=
  match content with
  | [] => []
  | element :: rest =>
      match headingOfElement element with
      | Some h => h :: collectHeadings rest
      | None => collectHeadings rest
      end
  end.

(** [content[content.length - 1].endIndex].  The source reads it only when
    a heading exists, hence when [content] is not empty. *)
Definition lastEndIndex (content : list StructuralElement) : nat :=
  last (map endIndex content) 0.

(** The inner [while] loop: [endHeadingIdx] advances while it is in range
    and names a deeper heading.  [fuel] bounds the iterations; the caller
    passes the number of headings left, which the loop cannot exceed. *)
Fixpoint scanEndHeading (headings : list Heading) (lvl : nat)
    (endHeadingIdx fuel : nat) : nat :=
  match fuel with
  | 0 => endHeadingIdx
  | S fuel' =>
      match nth_error headings endHeadingIdx with
      | Some h =>
          if lvl <? h_level h
          then scanEndHeading headings lvl (S endHeadingIdx) fuel'
          else endHeadingIdx
      | None => endHeadingIdx
      end
  end.

(** The value of [sectionEndIndex] computed for [headings[i]]. *)
Definition sectionEndOf (content : list StructuralElement)
    (headings : list Heading) (i : nat) (heading : Heading) : nat :=
  match nth_error headings (i + 1) with
  | Some _ =>
      let endHeadingIdx :=
        scanEndHeading headings (h_level heading) (i + 1)
          (List.length headings - (i + 1)) in
      match nth_error headings endHeadingIdx with
      | Some endHeading => h_startIndex endHeading
      | None => lastEndIndex content
      end
  | None => lastEndIndex content
  end.

Definition sectionOfHeading (heading : Heading) (sectionEnd : nat) : Section :=
  {| level := h_level heading;
     title := h_text heading;
     headingId := h_headingId heading;
     headingStartIndex := h_startIndex heading;
     headingEndIndex := h_endIndex heading;
     contentStartIndex := h_endIndex heading;
     contentEndIndex := sectionEnd;
     sectionStartIndex := h_startIndex heading;
     sectionEndIndex := sectionEnd |}.

(** Second loop, from index [i] on; [rest] is [headings.slice(i)]. *)
Fixpoint sectionsFrom (content : list StructuralElement)
    (headings : list Heading) (i : nat) (rest : list Heading) : list Section :=
  match rest with
  | [] => []
  | heading :: rest' =>
      sectionOfHeading heading (sectionEndOf content headings i heading)
        :: sectionsFrom content headings (S i) rest'
  end.

Definition parseDocumentSections (doc : Document) : list Section :=
  let content := content_of_body doc in
  let headings := collectHeadings content in
  sectionsFrom content headings 0 headings.

(** [extractSectionContent]. *)
Definition extractSectionContent (doc : Document) (section : Section)
    : list StructuralElement :=
  filter (fun element =>
            (contentStartIndex section <=? startIndex element)
            && (startIndex element <? contentEndIndex section))
         (content_of_body doc).

(** [createDeleteSectionContentRequest]; [None] is [null]. *)
Definition createDeleteSectionContentRequest (section : Section)
    : option Req.Request :=
  if contentEndIndex section <=? contentStartIndex section then None
  else Some (Req.deleteContentRange
               (Z.of_nat (contentStartIndex section))
               (Z.of_nat (contentEndIndex section) - 1)).

(** [createDeleteSectionRequest]. *)
Definition createDeleteSectionRequest (section : Section) : Req.Request :=
  Req.deleteContentRange
    (Z.of_nat (sectionStartIndex section))
    (Z.of_nat (sectionEndIndex section) - 1).

(** *** buildOutline

    The nodes built by [buildOutline] are shared: a node sits in [outline]
    or in its parent's [children] and, at the same time, on [stack], and
    children are pushed to it through the stack.  The nodes therefore live
    in a store, and lists hold references (positions in the store). *)

Record OutlineNode := {
  node_section : Section;
  children : list nat
}.

(** The local variables of [buildOutline].  [stack] is kept top first:
    [stack[stack.length - 1]] is its head. *)
Record OutlineState := {
  store : list OutlineNode;
  outline : list nat;
  stack : list nat
}.

Definition initialOutlineState : OutlineState :=
  {| store := []; outline := []; stack := [] |}.

(** [ref.level] for a reference into the store. *)
Definition levelOfRef (st : list OutlineNode) (ref : nat) : nat :=
  match nth_error st ref with
  | Some node => level (node_section node)
  | None => 0
  end.

(** [while (stack.length > 0 && top.level >= section.level) stack.pop()]. *)
Fixpoint popStack (st : list OutlineNode) (stk : list nat) (lvl : nat) : list nat :=
  match stk with
  | [] => []
  | top :: below =>
      if lvl <=? levelOfRef st top then popStack st below lvl else stk
  end.

(** [parent.children.push(node)] on the store. *)
Fixpoint pushChild (st : list OutlineNode) (parent child : nat) : list OutlineNode :=
  match st, parent with
  | [], _ => []
  | node :: rest, 0 =>
      {| node_section := node_section node;
         children := children node ++ [child] |} :: rest
  | node :: rest, S parent' => node :: pushChild rest parent' child
  end.

(** One iteration of the [for] loop. *)
Definition outlineStep (s : OutlineState) (section : Section) : OutlineState :=
  let stack1 := popStack (store s) (stack s) (level section) in
  let node := List.length (store s) in
  let store1 := store s ++ [{| node_section := section; children := [] |}] in
  match stack1 with
  | [] =>
      {| store := store1; outline := outline s ++ [node]; stack := node :: stack1 |}
  | top :: _ =>
      {| store := pushChild store1 top node; outline := outline s;
         stack := node :: stack1 |}
  end.

Definition outlineLoop (sections : list Section) : OutlineState :=
  fold_left outlineStep sections initialOutlineState.

(** The returned value as a tree: what a reader of [outline] sees. *)
Inductive Outline :=
| OutlineOf (section : Section) (subsections : list Outline).

Fixpoint lookupTree (trees : list (nat * Outline)) (ref : nat) : list Outline :=
  match trees with
  | [] => []
  | (r, t) :: rest => if r =? ref then [t] else lookupTree rest ref
  end.

(** The trees of the nodes [k], [k+1], ... of the store.  A child is always
    allocated after its parent ([children_forward]), so its tree is among
    the later ones. *)
Fixpoint treesFrom (nodes : list OutlineNode) (k : nat) : list (nat * Outline) :=
  match nodes with
  | [] => []
  | node :: rest =>
      let later := treesFrom rest (S k) in
      (k, OutlineOf (node_section node)
            (flat_map (lookupTree later) (children node))) :: later
  end.

Definition readOutline (s : OutlineState) : list Outline :=
  flat_map (lookupTree (treesFrom (store s) 0)) (outline s).

Definition buildOutline (sections : list Section) : list Outline :=
  readOutline (outlineLoop sections).

(** *** searchInDocument *)

Record Match := {
  m_startIndex : nat;
  m_endIndex : nat;
  m_text : string;
  m_context : string;
  m_paragraphIndex : nat
}.

(** [s.toLowerCase()].  The conversion is the runtime's: it covers every
    script and may change the length of a string, so it is left open here.
    Two facts about it are kept, the ones the loops below depend on: the
    empty string stays empty, and no other string becomes empty. *)
Class LowerCase := {
  toLowerCase : string -> string;
  toLowerCase_empty : toLowerCase "" = "";
  toLowerCase_nonempty : forall s : string, toLowerCase s = "" -> s = ""
}.

(** On ASCII text the conversion works character by character: the
    letters [A] to [Z] become [a] to [z], and nothing else changes. *)
Definition lowerAscii (c : ascii) : ascii :=
  let n := nat_of_ascii c in
  if (65 <=? n) && (n <=? 90) then ascii_of_nat (n + 32) else c.

Fixpoint asciiLower (s : string) : string :=
  match s with
  | EmptyString => EmptyString
  | String c r => String (lowerAscii c) (asciiLower r)
  end.

(** The conversion of the sample inputs, which are ASCII text. *)
Definition asciiLowerCase : LowerCase :=
  {| toLowerCase := asciiLower;
     toLowerCase_empty := eq_refl;
     toLowerCase_nonempty :=
       fun s =>
         match s as s0 return asciiLower s0 = "" -> s0 = "" with
         | EmptyString => fun _ => eq_refl
         | String c r =>
             fun H =>
               match H in _ = e
                     return match e with
                            | EmptyString => String c r = ""
                            | String _ _ => True
                            end
               with
               | eq_refl => I
               end
         end |}.

(** The scan of [indexOf]: [s] is the text from position [pos] on. *)
Fixpoint indexOfFrom (q s : string) (pos from : nat) : option nat :=
  if (from <=? pos) && String.prefix q s then Some pos
  else match s with
       | EmptyString => None
       | String _ r => indexOfFrom q r (S pos) from
       end.

(** [s.indexOf(q, from)]; [None] is [-1].  The start position is clamped to
    the length of [s], as the language defines. *)
Definition indexOf (s q : string) (from : nat) : option nat :=
  indexOfFrom q s 0 (Nat.min from (String.length s)).

(** [text.substring(a, b)] for [a <= b]. *)
Definition substringJS (text : string) (a b : nat) : string :=
  substring a (b - a) text.

(** The [while] loop over the hits in one paragraph.  [None]: the loop is
    still running after [fuel] iterations. *)
Fixpoint matchLoop (fuel : nat) (elementStart : nat)
    (text lowerText query searchQuery : string)
    (index : nat) (matches : list Match) : option (list Match) :=
  match fuel with
  | 0 => None
  | S fuel' =>
      match indexOf lowerText searchQuery index with
      | None => Some matches
      | Some index1 =>
          let matchStart := elementStart + index1 in
          let matchEnd := matchStart + String.length query in
          let contextStart := Nat.max 0 (index1 - 20) in
          let contextEnd :=
            Nat.min (String.length text) (index1 + String.length query + 20) in
          let context := substringJS text contextStart contextEnd in
          matchLoop fuel' elementStart text lowerText query searchQuery
            (index1 + String.length query)
            (matches ++ [{| m_startIndex := matchStart;
                            m_endIndex := matchEnd;
                            m_text := substringJS text index1
                                        (index1 + String.length query);
                            m_context := context;
                            m_paragraphIndex := elementStart |}])
      end
  end.

(** [element.startIndex < searchStartIndex ||
     element.startIndex >= searchEndIndex]; [None] is [Infinity]. *)
Definition outsideRange (start : nat) (searchStartIndex : nat)
    (searchEndIndex : option nat) : bool :=
  (start <? searchStartIndex)
  || match searchEndIndex with
     | Some e => e <=? start
     | None => false
     end.

(** The [for] loop over [content]. *)
Fixpoint searchLoop {L : LowerCase} (fuel : nat) (content : list StructuralElement)
    (query searchQuery : string) (searchStartIndex : nat)
    (searchEndIndex : option nat) (matches : list Match)
    : option (list Match) :=
  match content with
  | [] => Some matches
  | element :: rest =>
      match paragraph element with
      | Some para =>
          if outsideRange (startIndex element) searchStartIndex searchEndIndex
          then searchLoop fuel rest query searchQuery
                 searchStartIndex searchEndIndex matches
          else
            let text := extractTextFromParagraph para in
            let lowerText := toLowerCase text in
            match matchLoop fuel (startIndex element) text lowerText
                    query searchQuery 0 matches with
            | Some matches1 =>
                searchLoop fuel rest query searchQuery
                  searchStartIndex searchEndIndex matches1
            | None => None
            end
      | None =>
          searchLoop fuel rest query searchQuery
            searchStartIndex searchEndIndex matches
      end
  end.

(** [searchInDocument(doc, query, section)].  Each inner [while] loop may
    run [fuel] iterations; [None] means that one of them needs more. *)
Definition searchInDocument {L : LowerCase} (fuel : nat) (doc : Document) (query : string)
    (section : option Section) : option (list Match) :=
  let searchQuery := toLowerCase query in
  let searchStartIndex :=
    match section with Some s => sectionStartIndex s | None => 0 end in
  let searchEndIndex :=
    match section with Some s => Some (sectionEndIndex s) | None => None end in
  searchLoop fuel (content_of_body doc) query searchQuery
    searchStartIndex searchEndIndex [].

End Sections.

(** ** markdown-to-docs.js: MarkdownToDocsConverter *)

Module Markdown.
Import Req.

(** A token of the [marked] lexer.  One record stands for the token
    objects of every kind: [text] and [tokens] may be absent
    ([undefined] is [None]); [depth] is read on headings, [href] on links,
    [ordered] and [items] on lists, [header] and [rows] on tables, where
    the lexer always sets them. *)
Inductive Token := mkToken {
  type : string;
  text : option string;
  tokens : option (list Token);
  depth : nat;
  href : string;
  ordered : bool;
  items : list Token;
  header : list Token;
  rows : list (list Token)
}.

Record CellData := {
  cell_row : nat;
  cell_col : nat;
  cell_text : string;
  cell_bold : bool
}.

Record TableSpec := {
  t_placeholderIndex : Z;
  t_placeholderLength : Z;
  t_rows : nat;
  t_cols : nat;
  t_cellData : list CellData
}.

Record TableInsert := {
  ti_placeholderIndex : Z;
  ti_placeholderLength : Z;
  ti_rows : nat;
  ti_cols : nat
}.

(** The fields of a converter instance. *)
Record Converter := {
  requests : list Request;
  tableInsertRequests : list TableInsert;
  currentIndex : Z;
  tables : list TableSpec
}.

(** [this.requests.push(r)]. *)
Definition pushRequest (r : Request) (c : Converter) : Converter :=
  {| requests := requests c ++ [r];
     tableInsertRequests := tableInsertRequests c;
     currentIndex := currentIndex c;
     tables := tables c |}.

(** [this.currentIndex += n]. *)
Definition advance (n : Z) (c : Converter) : Converter :=
  {| requests := requests c;
     tableInsertRequests := tableInsertRequests c;
     currentIndex := (currentIndex c + n)%Z;
     tables := tables c |}.

Definition lengthZ (s : string) : Z := Z.of_nat (String.length s).

Definition isType (token : Token) (name : string) : bool :=
  String.eqb (type token) name.

(** [type === 'strong' || type === 'em' || type === 'link']. *)
Definition isFormatting (token : Token) : bool :=
  isType token "strong" || isType token "em" || isType token "link".

(** [type === 'text' || type === 'codespan']. *)
Definition isTextual (token : Token) : bool :=
  isType token "text" || isType token "codespan".

(** [token.tokens && token.tokens.length > 0]. *)
Definition hasChildren (token : Token) : bool :=
  match tokens token with
  | Some (_ :: _) => true
  | _ => false
  end.

(** [token.text || '']; also stands for [token.text] of a [code] token,
    which the lexer always sets. *)
Definition textOrEmpty (token : Token) : string :=
  match text token with
  | Some t => t
  | None => ""
  end.

(** *** extractPlainText *)

Section ExtractLoop.
Variable piece : Token -> string.

(** [for (const token of tokens) text += piece(token)]. *)
Fixpoint appendEach (l : list Token) (acc : string) : string :=
  match l with
  | [] => acc
  | token :: rest => appendEach rest (acc ++ piece token)
  end.
End ExtractLoop.

(** What one iteration of the loop of [extractPlainText] adds to [text]. *)
Fixpoint extractToken (token : Token) : string :=
  let fromChildren :=
    match tokens token with
    | None => ""
    | Some l => appendEach extractToken l ""
    end in
  if isFormatting token then fromChildren
  else if hasChildren token then fromChildren
  else if isTextual token then textOrEmpty token
  else if isType token "space" then " "
  else textOrEmpty token.

Definition extractPlainText (tokens : option (list Token)) : string :=
  match tokens with
  | None => ""
  | Some l => appendEach extractToken l ""
  end.

(** *** applyInlineFormatting *)

Definition lightGray : RgbColor := {| red := 95; green := 95; blue := 95 |}.

(** The [length] computed at the top of the loop body. *)
Definition inlineLength (token : Token) : Z :=
  if isFormatting token then lengthZ (extractPlainText (tokens token))
  else if isTextual token then
    match text token with
    | Some t => lengthZ t
    | None => 0%Z
    end
  else 0%Z.

(** The style request pushed for a token, if its type has one. *)
Definition inlineStyle (token : Token) (tokenStart tokenEnd : Z) : option Request :=
  if isType token "strong" then
    Some (updateTextStyle tokenStart tokenEnd
            {| bold := Some true; italic := None; link := None;
               weightedFontFamily := None; fontSize := None;
               backgroundColor := None |} "bold")
  else if isType token "em" then
    Some (updateTextStyle tokenStart tokenEnd
            {| bold := None; italic := Some true; link := None;
               weightedFontFamily := None; fontSize := None;
               backgroundColor := None |} "italic")
  else if isType token "link" then
    Some (updateTextStyle tokenStart tokenEnd
            {| bold := None; italic := None; link := Some (href token);
               weightedFontFamily := None; fontSize := None;
               backgroundColor := None |} "link")
  else if isType token "codespan" then
    Some (updateTextStyle tokenStart tokenEnd
            {| bold := None; italic := None; link := None;
               weightedFontFamily := Some "Courier New"; fontSize := None;
               backgroundColor := Some lightGray |}
            "weightedFontFamily,backgroundColor")
  else None.

Section InlineLoop.
Variable visit : Token -> Z -> Converter -> Converter.

(** The [for] loop of [applyInlineFormatting]: [visit] is its body up to
    the recursive call, and [currentOffset += length] closes it. *)
Fixpoint inlineLoop (l : list Token) (startOffset currentOffset : Z)
    (c : Converter) : Converter :=
  match l with
  | [] => c
  | token :: rest =>
      inlineLoop rest startOffset (currentOffset + inlineLength token)%Z
        (visit token (startOffset + currentOffset)%Z c)
  end.
End InlineLoop.

Fixpoint inlineToken (token : Token) (tokenStart : Z) (c : Converter) : Converter :=
  let tokenEnd := (tokenStart + inlineLength token)%Z in
  let c1 :=
    match inlineStyle token tokenStart tokenEnd with
    | Some r => pushRequest r c
    | None => c
    end in
  match tokens token with
  | Some kids =>
      match kids with
      | [] => c1
      | _ :: _ => inlineLoop inlineToken kids tokenStart 0%Z c1
      end
  | None => c1
  end.

Definition applyInlineFormatting (tokens : option (list Token)) (startOffset : Z)
    (c : Converter) : Converter :=
  match tokens with
  | None => c
  | Some l => inlineLoop inlineToken l startOffset 0%Z c
  end.

(** *** The block handlers *)

Definition addHeading (token : Token) (c : Converter) : Converter :=
  let text := (extractPlainText (tokens token) ++ JS.LF)%string in
  let startIndex := currentIndex c in
  let c1 := pushRequest (insertText (currentIndex c) text) c in
  let c2 := advance (lengthZ text) c1 in
  let headingLevel := ("HEADING_" ++ JS.ofNat (depth token))%string in
  let c3 :=
    pushRequest
      (updateParagraphStyle startIndex (currentIndex c2 - 1)%Z headingLevel
         "namedStyleType") c2 in
  applyInlineFormatting (tokens token) startIndex c3.

Definition addParagraph (token : Token) (c : Converter) : Converter :=
  let text := (extractPlainText (tokens token) ++ JS.LF)%string in
  let startIndex := currentIndex c in
  let c1 := pushRequest (insertText (currentIndex c) text) c in
  let c2 := advance (lengthZ text) c1 in
  applyInlineFormatting (tokens token) startIndex c2.

(** The body of the loop of [addList]. *)
Definition addListItem (isOrdered : bool) (c : Converter) (item : Token) : Converter :=
  let text := (extractPlainText (tokens item) ++ JS.LF)%string in
  let startIndex := currentIndex c in
  let c1 := pushRequest (insertText (currentIndex c) text) c in
  let c2 := advance (lengthZ text) c1 in
  let c3 :=
    pushRequest
      (createParagraphBullets startIndex (currentIndex c2 - 1)%Z
         (if isOrdered then "NUMBERED_DECIMAL_ALPHA_ROMAN"
          else "BULLET_DISC_CIRCLE_SQUARE")) c2 in
  applyInlineFormatting (tokens item) startIndex c3.

Definition addList (token : Token) (c : Converter) : Converter :=
  fold_left (addListItem (ordered token)) (items token) c.

Definition codeStyle : TextStyle :=
  {| bold := None; italic := None; link := None;
     weightedFontFamily := Some "Courier New";
     fontSize := Some {| magnitude := 10; unit := "PT" |};
     backgroundColor := Some lightGray |}.

Definition addCodeBlock (token : Token) (c : Converter) : Converter :=
  let text := (textOrEmpty token ++ JS.LF ++ JS.LF)%string in
  let startIndex := currentIndex c in
  let c1 := pushRequest (insertText (currentIndex c) text) c in
  let c2 := advance (lengthZ text) c1 in
  pushRequest
    (updateTextStyle startIndex (currentIndex c2 - 2)%Z codeStyle
       "weightedFontFamily,fontSize,backgroundColor") c2.

(** [cells[col].tokens]; the lexer gives every row as many cells as the
    header has, so the column is always present. *)
Definition cellTokens (cells : list Token) (col : nat) : option (list Token) :=
  match nth_error cells col with
  | Some cell => tokens cell
  | None => None
  end.

(** The cells of one row of the table, columns [0 .. cols-1]. *)
Definition rowCells (cells : list Token) (row cols : nat) (isBold : bool)
    : list CellData :=
  map (fun col =>
         {| cell_row := row; cell_col := col;
            cell_text := extractPlainText (cellTokens cells col);
            cell_bold := isBold |})
      (seq 0 cols).

(** The data rows, numbered from [row] on. *)
Fixpoint dataCells (rs : list (list Token)) (row cols : nat) : list CellData :=
  match rs with
  | [] => []
  | cells :: rest => rowCells cells (row + 1) cols false ++ dataCells rest (S row) cols
  end.

Definition addTable (token : Token) (c : Converter) : Converter :=
  let nrows := List.length (rows token) + 1 in
  let ncols := List.length (header token) in
  let tableStartIndex := currentIndex c in
  let placeholder :=
    ("[TABLE:" ++ JS.ofNat nrows ++ "x" ++ JS.ofNat ncols ++ "]" ++ JS.LF)%string in
  let c1 := pushRequest (insertText tableStartIndex placeholder) c in
  let c2 := advance (lengthZ placeholder) c1 in
  let cellData := rowCells (header token) 0 ncols true
                  ++ dataCells (rows token) 0 ncols in
  {| requests := requests c2;
     tableInsertRequests :=
       tableInsertRequests c2
       ++ [{| ti_placeholderIndex := tableStartIndex;
              ti_placeholderLength := lengthZ placeholder;
              ti_rows := nrows; ti_cols := ncols |}];
     currentIndex := currentIndex c2;
     tables :=
       tables c2
       ++ [{| t_placeholderIndex := tableStartIndex;
              t_placeholderLength := lengthZ placeholder;
              t_rows := nrows; t_cols := ncols;
              t_cellData := cellData |}] |}.

(** [processToken]; an unsupported type only logs a warning. *)
Definition processToken (c : Converter) (token : Token) : Converter :=
  if isType token "heading" then addHeading token c
  else if isType token "paragraph" then addParagraph token c
  else if isType token "list" then addList token c
  else if isType token "code" then addCodeBlock token c
  else if isType token "table" then addTable token c
  else if isType token "space" then c
  else c.

Definition freshConverter : Converter :=
  {| requests := []; tableInsertRequests := []; currentIndex := 1%Z; tables := [] |}.

Record Conversion := {
  contentRequests : list Request;
  tableRequests : list TableInsert;
  conv_tables : list TableSpec
}.

(** The loop of [convert] over the tokens, from the reset fields. *)
Definition runTokens (tokens : list Token) : Converter :=
  fold_left processToken tokens freshConverter.

Section Convert.
(** [marked.lexer], the external tokenizer. *)
Variable lexer : string -> list Token.

(** The converter after [convert(markdown)] has run. *)
Definition convertState (markdown : string) : Converter :=
  runTokens (lexer markdown).

Definition convert (markdown : string) : Conversion :=
  let c := convertState markdown in
  {| contentRequests := requests c;
     tableRequests := tableInsertRequests c;
     conv_tables := tables c |}.
End Convert.

End Markdown.

(** ** The batch rebaser *)

Module Rebaser.
Import Req.

(** Modelled from the spec: the function of gdoc.js that shifts a compiled
    script before it is spliced into an existing document is not among the
    sources.  Section 4.6: add [offset] to every index-bearing field
    relevant to the variant (InsertText: location index; SetTextStyle,
    SetParagraphStyle, SetBullets and DeleteRange: range start and end);
    InsertTable is not touched. *)
Definition rebaseRequest (offset : Z) (r : Request) : Request :=
  match r with
  | insertText index text => insertText (index + offset) text
  | updateTextStyle s e style fields =>
      updateTextStyle (s + offset) (e + offset) style fields
  | updateParagraphStyle s e named fields =>
      updateParagraphStyle (s + offset) (e + offset) named fields
  | createParagraphBullets s e preset =>
      createParagraphBullets (s + offset) (e + offset) preset
  | deleteContentRange s e => deleteContentRange (s + offset) (e + offset)
  | insertTable index r c => insertTable index r c
  end.

(** Modelled from the spec: the rebased script, operation by operation. *)
Definition rebase (offset : Z) (script : list Request) : list Request :=
  map (rebaseRequest offset) script.

(** Modelled from the spec: [offset = insertIndex - 1] for a script
    compiled from cursor 1. *)
Definition offsetFor (insertIndex : Z) : Z := insertIndex - 1.

(** The index-bearing fields of a request, in the order the specification
    lists them. *)
Definition indexFields (r : Request) : list Z :=
  match r with
  | insertText index _ => [index]
  | updateTextStyle s e _ _ => [s; e]
  | updateParagraphStyle s e _ _ => [s; e]
  | createParagraphBullets s e _ => [s; e]
  | deleteContentRange s e => [s; e]
  | insertTable _ _ _ => []
  end.

End Rebaser.

(** ** Vocabulary of the properties *)

Module Script.
Import Req Markdown.

(** Total length of the text inserted by a script. *)
Fixpoint insertedLength (script : list Request) : Z :=
  match script with
  | [] => 0%Z
  | insertText _ text :: rest => (lengthZ text + insertedLength rest)%Z
  | _ :: rest => insertedLength rest
  end.

(** No index-bearing field of [r] lies beyond [cursor]. *)
Definition withinCursor (cursor : Z) (r : Request) : bool :=
  forallb (fun i => (i <=? cursor)%Z) (Rebaser.indexFields r).

(** [c] occurs in [s]. *)
Fixpoint containsChar (c : ascii) (s : string) : bool :=
  match s with
  | EmptyString => false
  | String d r => Ascii.eqb c d || containsChar c r
  end.

(** The same token with another literal [text] field. *)
Definition withText (token : Token) (t : option string) : Token :=
  mkToken (type token) t (tokens token) (depth token) (href token)
    (ordered token) (items token) (header token) (rows token).

Definition boldStyle : TextStyle :=
  {| bold := Some true; italic := None; link := None;
     weightedFontFamily := None; fontSize := None; backgroundColor := None |}.

(** What [applyInlineFormatting] leaves alone: the cursor, the text
    inserted so far and the table fields. *)
Definition sameText (c c' : Converter) : Prop :=
  currentIndex c' = currentIndex c
  /\ insertedLength (requests c') = insertedLength (requests c)
  /\ tableInsertRequests c' = tableInsertRequests c
  /\ tables c' = tables c.

(** The cursor is one more than the length of the inserted text. *)
Definition cursorInvariant (c : Converter) : Prop :=
  currentIndex c = (1 + insertedLength (requests c))%Z.

End Script.

(** ** Positions of a retrieved document *)

Module Layout.
Import Docs Sections.

(** From position [pos] on, every element starts where the one before it
    ends and is not empty: the way the Docs API lays out [body.content]. *)
Fixpoint contiguousFrom (pos : nat) (content : list StructuralElement) : bool :=
  match content with
  | [] => true
  | element :: rest =>
      (startIndex element =? pos)
      && (startIndex element <? endIndex element)
      && contiguousFrom (endIndex element) rest
  end.

Definition contiguous (content : list StructuralElement) : bool :=
  match content with
  | [] => true
  | element :: _ => contiguousFrom (startIndex element) content
  end.

(** Position [p] lies in the section range of [s]. *)
Definition inSection (p : nat) (s : Section) : Prop :=
  sectionStartIndex s <= p < sectionEndIndex s.

(** No position lies in two sections of the list. *)
Definition disjointSections (sections : list Section) : Prop :=
  forall i j si sj p,
    i <> j ->
    nth_error sections i = Some si ->
    nth_error sections j = Some sj ->
    ~ (inSection p si /\ inSection p sj).

(** The headings lie one after the other between [lo] and [hi]. *)
Fixpoint orderedFrom (lo : nat) (headings : list Heading) (hi : nat) : Prop :=
  match headings with
  | [] => lo <= hi
  | h :: rest =>
      lo <= h_startIndex h
      /\ h_startIndex h < h_endIndex h
      /\ orderedFrom (h_endIndex h) rest hi
  end.

(** The boundary of heading [i] among [headings] in a document that ends at
    [docEnd]: the start of the first later heading that is not deeper, or
    [docEnd] when every later heading is deeper. *)
Definition isBoundary (headings : list Heading) (docEnd i : nat)
    (heading : Heading) (boundary : nat) : Prop :=
  (exists j next,
     i < j /\ nth_error headings j = Some next
     /\ h_level next <= h_level heading
     /\ (forall k deeper, i < k < j ->
           nth_error headings k = Some deeper -> h_level heading < h_level deeper)
     /\ boundary = h_startIndex next)
  \/ ((forall j later, i < j ->
         nth_error headings j = Some later -> h_level heading < h_level later)
      /\ boundary = docEnd).

(** The levels of the stack entries, top first. *)
Definition stackLevels (s : OutlineState) : list nat :=
  map (levelOfRef (store s)) (stack s).

(** The references held by a state point into its store, a node's
    children were allocated after the node, and the levels on the stack
    grow strictly from the bottom to the top. *)
Definition wellFormedOutline (s : OutlineState) : Prop :=
  Forall (fun ref => ref < List.length (store s)) (stack s)
  /\ Forall (fun ref => ref < List.length (store s)) (outline s)
  /\ (forall k node, nth_error (store s) k = Some node ->
       Forall (fun c => k < c < List.length (store s)) (children node))
  /\ StronglySorted (fun upper lower => lower < upper) (stackLevels s).

End Layout.

(** ** Documents used as inputs *)

Module SampleDocs.
Import Docs.

Definition para (style : NamedStyleType) (text : string) (s e : nat)
    : StructuralElement :=
  {| startIndex := s; endIndex := e;
     paragraph :=
       Some {| elements := Some [ {| textRun := Some {| content := text |} |} ];
               paragraphStyle :=
                 Some {| namedStyleType := Some style; headingId := None |} |} |}.

Definition sectionBreak : StructuralElement :=
  {| startIndex := 0; endIndex := 1; paragraph := None |}.

(** Headings at levels 1, 2, 2, 1, with body text under the first, the
    second and the last. *)
Definition doc1221 : Document :=
  {| content_of_body :=
       [ sectionBreak;
         para HEADING_1 ("A" ++ JS.LF) 1 3;
         para NORMAL_TEXT ("intro" ++ JS.LF) 3 9;
         para HEADING_2 ("B" ++ JS.LF) 9 11;
         para NORMAL_TEXT ("x" ++ JS.LF) 11 13;
         para HEADING_2 ("C" ++ JS.LF) 13 15;
         para HEADING_1 ("D" ++ JS.LF) 15 17;
         para NORMAL_TEXT ("end" ++ JS.LF) 17 21 ] |}.

(** One paragraph holding ["abc ABC abc"]. *)
Definition docAbc : Document :=
  {| content_of_body :=
       [ sectionBreak; para NORMAL_TEXT ("abc ABC abc" ++ JS.LF) 1 13 ] |}.

End SampleDocs.

(** ** Token trees of the lexer used as inputs *)

Module Inputs.
Import Markdown.

(** An inline token: [type], [text] and nested [tokens]. *)
Definition inline (type : string) (text : string) (tokens : option (list Token)) : Token :=
  mkToken type (Some text) tokens 0 "" false [] [] [].

Definition plain (text : string) : Token := inline "text" text None.

(** ["# Title\n\nHello **world**"]. *)
Definition titleHelloMarkdown : string :=
  "# Title" ++ JS.LF ++ JS.LF ++ "Hello **world**".

(** Its tokens: a heading of depth 1, then a paragraph whose children are
    the text ["Hello "] and a [strong] span around the text ["world"]. *)
Definition titleHelloTokens : list Token :=
  [ mkToken "heading" (Some "Title") (Some [plain "Title"]) 1 "" false [] [] [];
    inline "paragraph" "Hello **world**"
      (Some [plain "Hello "; inline "strong" "world" (Some [plain "world"])]) ].

(** The children of a paragraph ["**bold *and* nested**"]: one [strong]
    span whose literal text still holds the inner markers. *)
Definition boldAndNestedTokens : list Token :=
  [ inline "strong" "bold *and* nested"
      (Some [plain "bold "; inline "em" "and" (Some [plain "and"]);
             plain " nested"]) ].

(** The block text of a list item written [**a**]: a [text] token whose
    literal text keeps the markers and whose children hold the span. *)
Definition itemTextA : Token :=
  inline "text" "**a**" (Some [inline "strong" "a" (Some [plain "a"])]).

(** The tokens of the list [- **a**] whose item goes on with the indented
    line [# **b**]: the item holds the block text and a heading. *)
Definition itemTokens : list Token :=
  [ itemTextA;
    mkToken "heading" (Some "**b**")
      (Some [inline "strong" "b" (Some [plain "b"])]) 1 "" false [] [] [] ].

Definition nestedItemList : list Token :=
  [ mkToken "list" None None 0 "" false
      [ mkToken "list_item" (Some ("**a**" ++ JS.LF ++ "# **b**")%string)
          (Some itemTokens) 0 "" false [] [] [] ]
      [] [] ].

(** The children of a paragraph written [~~a~~ **b**]: a strike-through
    span, a space and a bold span. *)
Definition delTokens : list Token :=
  [ inline "del" "a" (Some [plain "a"]);
    plain " ";
    inline "strong" "b" (Some [plain "b"]) ].

End Inputs.

(** ** document-sections.js: title lookup and outline printing *)

Module SectionTools.
Import Docs Sections.

(** [s.includes(t)]: [indexOf] from 0 does not answer [-1]. *)
Definition includes (s t : string) : bool :=
  match indexOf s t 0 with
  | Some _ => true
  | None => false
  end.

(** The loop of [findSectionByTitle] for a lower-cased [searchTitle]. *)
Fixpoint findLoop {L : LowerCase} (sections : list Section) (searchTitle : string)
    : option Section :=
  match sections with
  | [] => None
  | section :: rest =>
      if includes (toLowerCase (title section)) searchTitle
      then Some section
      else findLoop rest searchTitle
  end.

(** [findSectionByTitle]; [None] is [null]. *)
Definition findSectionByTitle {L : LowerCase} (sections : list Section) (title : string)
    : option Section :=
  let searchTitle := toLowerCase title in
  findLoop sections searchTitle.





End SectionTools.

(** ** Vocabulary of the outline and search properties *)

Module Forest.
Import Docs Sections.

(** The sections of a forest, parents before children, left to right. *)
Fixpoint preorder (node : Outline) : list Section :=
  match node with
  | OutlineOf section subsections =>
      section :: flat_map preorder subsections
  end.

Definition flatten (forest : list Outline) : list Section :=
  flat_map preorder forest.

Definition rootSection (node : Outline) : Section :=
  match node with
  | OutlineOf section _ => section
  end.

Definition subsectionsOf (node : Outline) : list Outline :=
  match node with
  | OutlineOf _ subsections => subsections
  end.

(** Every subsection, at any depth, is deeper than the section it hangs
    from. *)
Fixpoint deeperBelow (node : Outline) : Prop :=
  match node with
  | OutlineOf section subsections =>
      (fix all (l : list Outline) : Prop :=
         match l with
         | [] => True
         | sub :: rest =>
             level section < level (rootSection sub)
             /\ deeperBelow sub /\ all rest
         end) subsections
  end.

(** Among the subsections of a node, at any depth, a later one is never
    deeper than an earlier one. *)
Fixpoint siblingsDescend (node : Outline) : Prop :=
  match node with
  | OutlineOf _ subsections =>
      StronglySorted
        (fun earlier later =>
           level (rootSection later) <= level (rootSection earlier)) subsections
      /\ (fix all (l : list Outline) : Prop :=
            match l with
            | [] => True
            | sub :: rest => siblingsDescend sub /\ all rest
            end) subsections
  end.

(** The same for a list of trees that stand side by side. *)
Definition descend (forest : list Outline) : Prop :=
  StronglySorted
    (fun earlier later =>
       level (rootSection later) <= level (rootSection earlier)) forest
  /\ Forall siblingsDescend forest.

(** [t] occurs in [s]: at some offset, [s] goes on with [t]. *)
Definition occursAt (t s : string) (i : nat) : Prop :=
  i + String.length t <= String.length s
  /\ substring i (String.length t) s = t.

(** The paragraph is one the search scans for this section bound. *)
Definition scanned (element : StructuralElement) (section : option Section)
    : bool :=
  match paragraph element with
  | None => false
  | Some _ =>
      negb (outsideRange (startIndex element)
              (match section with Some s => sectionStartIndex s | None => 0 end)
              (match section with
               | Some s => Some (sectionEndIndex s)
               | None => None
               end))
  end.

(** The text the search reads from an element. *)
Definition textOf (element : StructuralElement) : string :=
  match paragraph element with
  | Some para => extractTextFromParagraph para
  | None => ""
  end.

(** The match reported for a hit at offset [i] of the text of the
    paragraph that starts at [start]. *)
Definition matchAt (start : nat) (text query : string) (i : nat) : Match :=
  {| m_startIndex := start + i;
     m_endIndex := start + i + String.length query;
     m_text := substringJS text i (i + String.length query);
     m_context :=
       substringJS text (Nat.max 0 (i - 20))
         (Nat.min (String.length text) (i + String.length query + 20));
     m_paragraphIndex := start |}.

(** [hits] are the occurrences of [q] in [s] taken from [from] on, each
    the first one at or after the end of the one before it, until none is
    left; [n] is the step after a hit. *)
Fixpoint greedyHits (q s : string) (n from : nat) (hits : list nat) : Prop :=
  match hits with
  | [] =>
      forall j, Nat.min from (String.length s) <= j -> ~ occursAt q s j
  | i :: rest =>
      Nat.min from (String.length s) <= i
      /\ occursAt q s i
      /\ (forall j, Nat.min from (String.length s) <= j -> j < i ->
                    ~ occursAt q s j)
      /\ greedyHits q s n (i + n) rest
  end.

(** The matches reported for the hits of one element. *)
Definition matchesOf (query : string) (part : StructuralElement * list nat)
    : list Match :=
  map (matchAt (startIndex (fst part)) (textOf (fst part)) query) (snd part).

(** The paragraph a match lies in starts inside the section range. *)
Definition inSectionRange (section : Section) (m : Match) : bool :=
  (sectionStartIndex section <=? m_paragraphIndex m)
  && (m_paragraphIndex m <? sectionEndIndex section).

(** The title of [section] contains [title], case apart. *)
Definition titleMatches {L : LowerCase} (title : string) (section : Section)
    : Prop :=
  exists i, occursAt (toLowerCase title)
              (toLowerCase (Sections.title section)) i.

(** Lower-casing works unit by unit on [s]: it keeps the length of [s]
    and commutes with taking a part of it.  This is so for ASCII text; it
    fails for text with a character whose lower case is longer. *)
Definition unitwise {L : LowerCase} (s : string) : Prop :=
  String.length (toLowerCase s) = String.length s
  /\ forall a n : nat,
       toLowerCase (substring a n s) = substring a n (toLowerCase s).

End Forest.

(** ** Vocabulary of the compiler properties *)

Module Emit.
Import Req Markdown Script.

(** What [applyInlineFormatting] pushes for one token placed at [start],
    for the tokens of a loop and for a token list. *)
Definition emittedToken (token : Token) (start : Z) : list Request :=
  requests (inlineToken token start freshConverter).

Definition emittedLoop (l : list Token) (startOffset currentOffset : Z)
    : list Request :=
  requests (inlineLoop inlineToken l startOffset currentOffset freshConverter).

Definition emitted (tokens : option (list Token)) (startOffset : Z)
    : list Request :=
  requests (applyInlineFormatting tokens startOffset freshConverter).

(** The [fields] of the style of a code block. *)
Definition codeFields : string := "weightedFontFamily,fontSize,backgroundColor".

(** A text style other than the one of a code block. *)
Definition isInlineStyle (r : Request) : bool :=
  match r with
  | updateTextStyle _ _ _ fields => negb (String.eqb fields codeFields)
  | _ => false
  end.

(** The inserts of a script lie end to end from [pos] on: each one is
    placed where the text inserted before it ends. *)
Fixpoint insertsFrom (pos : Z) (script : list Request) : Prop :=
  match script with
  | [] => True
  | insertText index text :: rest =>
      index = pos /\ insertsFrom (pos + lengthZ text)%Z rest
  | _ :: rest => insertsFrom pos rest
  end.

(** The requests pushed by the block handlers themselves (inserts,
    paragraph styles, bullets, code block styles) stay between 1 and
    [cursor] and are not inverted. *)
Definition blockBounded (cursor : Z) (r : Request) : Prop :=
  match r with
  | insertText index _ => (1 <= index <= cursor)%Z
  | updateParagraphStyle s e _ _ => (1 <= s <= e /\ e <= cursor)%Z
  | createParagraphBullets s e _ => (1 <= s <= e /\ e <= cursor)%Z
  | updateTextStyle s e _ fields =>
      if String.eqb fields codeFields
      then (1 <= s <= e /\ e <= cursor)%Z
      else True
  | _ => True
  end.

(** The range of a request, if it has one, lies between [lo] and [hi]. *)
Definition rangeWithin (lo hi : Z) (r : Request) : Prop :=
  match r with
  | updateTextStyle s e _ _ => (lo <= s <= e /\ e <= hi)%Z
  | _ => True
  end.

(** For the token and for every token nested in it, the length the inline
    pass computes is the length of the text it renders. *)
Fixpoint lengthsAgree (token : Token) : Prop :=
  inlineLength token = lengthZ (extractToken token)
  /\ match tokens token with
     | None => True
     | Some kids =>
         (fix all (l : list Token) : Prop :=
            match l with
            | [] => True
            | kid :: rest => lengthsAgree kid /\ all rest
            end) kids
     end.

Definition allAgree (tokens : option (list Token)) : Prop :=
  match tokens with
  | None => True
  | Some l => Forall lengthsAgree l
  end.

(** The coordinates, text and weight of a table cell. *)
Definition cellCoordinates (cell : CellData) : nat * nat :=
  (cell_row cell, cell_col cell).

(** What a token contributes: appended to the requests at hand, the same
    whatever they are, shifted as its start is shifted, and made of inline
    styles only. *)
Definition appendsOnly (token : Token) : Prop :=
  (forall start c,
     requests (inlineToken token start c) = requests c ++ emittedToken token start)
  /\ (forall start k,
        emittedToken token (start + k)
        = Rebaser.rebase k (emittedToken token start))
  /\ (forall start, Forall (fun r => isInlineStyle r = true)
                     (emittedToken token start)).

(** The tokens the inline pass runs over for a block token: the tokens of
    each item for a list, the token's own otherwise. *)
Definition inlineAgrees (token : Token) : Prop :=
  if isType token "list"
  then Forall (fun item => allAgree (tokens item)) (items token)
  else allAgree (tokens token).

(** Every index of a request lies between 1 and [cursor]. *)
Definition indexesWithin (cursor : Z) (r : Request) : Prop :=
  Forall (fun i => (1 <= i <= cursor)%Z) (Rebaser.indexFields r).

(** A recorded table and the queued table insertion describe the same
    placeholder, which the script inserts at the recorded index with the
    recorded length; the cells list every coordinate of the table once, row
    by row, and the cells of row 0, the header, are the bold ones. *)
Definition tableConsistent (script : list Request) (t : TableSpec)
    (ti : TableInsert) : Prop :=
  ti_placeholderIndex ti = t_placeholderIndex t
  /\ ti_placeholderLength ti = t_placeholderLength t
  /\ ti_rows ti = t_rows t
  /\ ti_cols ti = t_cols t
  /\ (exists text,
        In (insertText (t_placeholderIndex t) text) script
        /\ lengthZ text = t_placeholderLength t)
  /\ map cellCoordinates (t_cellData t)
     = list_prod (seq 0 (t_rows t)) (seq 0 (t_cols t))
  /\ Forall (fun cell => cell_bold cell = (cell_row cell =? 0)) (t_cellData t).

(** [f] compiles from any converter as it does from a fresh one, with
    every index shifted by the cursor it starts from, less one. *)
Definition shiftsWith (f : Converter -> Converter) : Prop :=
  forall c,
    requests (f c)
    = requests c
      ++ Rebaser.rebase (currentIndex c - 1) (requests (f freshConverter))
    /\ currentIndex (f c)
       = (currentIndex c + (currentIndex (f freshConverter) - 1))%Z.

(** What a script must satisfy, with its cursor, for the properties of the
    compiled scripts: the cursor counts the inserted text, the inserts lie
    end to end from 1, and the block requests stay within the cursor. *)
Definition wellPlaced (c : Converter) : Prop :=
  currentIndex c = (1 + insertedLength (requests c))%Z
  /\ insertsFrom 1 (requests c)
  /\ (1 <= currentIndex c)%Z
  /\ Forall (blockBounded (currentIndex c)) (requests c).

End Emit.

(** ** Vocabulary of the outline proofs: the store read as trees *)

Module Zipper.
Import Sections Forest.

(** The node at reference [k] of the store, with everything below it, is
    the tree [t], and no node of it is in [avoid]. *)
Fixpoint represents (store : list OutlineNode) (avoid : list nat)
    (t : Outline) (k : nat) {struct t} : Prop :=
  match t with
  | OutlineOf s ts =>
      ~ In k avoid
      /\ exists refs,
           nth_error store k = Some {| node_section := s; children := refs |}
           /\ (fix all (ts : list Outline) (refs : list nat) : Prop :=
                 match ts, refs with
                 | [], [] => True
                 | t' :: ts', r :: refs' =>
                     represents store avoid t' r /\ all ts' refs'
                 | _, _ => False
                 end) ts refs
  end.

(** The open nodes.  [stk] is the stack, top first, and [frames] gives for
    each entry its section and the trees of its children that are closed;
    the children of an entry are those, then [above]: the entry over it on
    the stack, or nothing for the top.  At the bottom, [outline] holds the
    closed top-level trees [done], then the bottom entry. *)
Fixpoint spine (store : list OutlineNode) (avoid outline : list nat)
    (done : list Outline) (stk above : list nat)
    (frames : list (Section * list Outline)) : Prop :=
  match stk, frames with
  | [], [] =>
      exists doneRefs,
        outline = doneRefs ++ above
        /\ Forall2 (represents store avoid) done doneRefs
  | n :: below, (sec, kids) :: frames' =>
      (exists crefs,
         nth_error store n
         = Some {| node_section := sec; children := crefs ++ above |}
         /\ Forall2 (represents store avoid) kids crefs)
      /\ spine store avoid outline done below [n] frames'
  | _, _ => False
  end.

(** The sections of the closed trees and of the frames, in the order they
    were met. *)
Definition zflat (done : list Outline) (frames : list (Section * list Outline))
    : list Section :=
  flatten done
  ++ flat_map (fun frame => fst frame :: flatten (snd frame)) (List.rev frames).

(** Closed trees nest by level, and so do the children of the frames. *)
Definition nested (done : list Outline) (frames : list (Section * list Outline))
    : Prop :=
  Forall deeperBelow done
  /\ Forall (fun frame =>
               Forall (fun kid =>
                         level (fst frame) < level (rootSection kid)
                         /\ deeperBelow kid) (snd frame)) frames.

(** The closed children of an entry are not shallower than the entry over
    it on the stack, the closed top-level trees not shallower than the
    bottom entry; [bound] stands for the entry over the top. *)
Fixpoint bounded (bound : nat) (done : list Outline)
    (frames : list (Section * list Outline)) : Prop :=
  match frames with
  | [] => Forall (fun t => bound <= level (rootSection t)) done
  | frame :: frames' =>
      Forall (fun t => bound <= level (rootSection t)) (snd frame)
      /\ bounded (level (fst frame)) done frames'
  end.

(** Closed trees that stand side by side never get deeper. *)
Definition sorted (bound : nat) (done : list Outline)
    (frames : list (Section * list Outline)) : Prop :=
  descend done
  /\ Forall (fun frame => descend (snd frame)) frames
  /\ bounded bound done frames.

(** The state of the pass after the sections [processed]. *)
Definition tracks (s : OutlineState) (processed : list Section) : Prop :=
  Layout.wellFormedOutline s
  /\ exists done frames,
       spine (store s) (stack s) (outline s) done (stack s) [] frames
       /\ zflat done frames = processed
       /\ nested done frames
       /\ forall bound, sorted bound done frames.

(** The tree read back for a reference. *)
Definition treeAt (store : list OutlineNode) (k : nat) : list Outline :=
  lookupTree (treesFrom store 0) k.

End Zipper.

(** * Properties *)

Import Docs Req Sections Markdown Script Layout SampleDocs Inputs.
Import SectionTools Forest Emit Zipper.

(** ** Strings *)

Lemma append_empty_r : forall s : string, (s ++ "")%string = s.
Proof.
  induction s as [| c r IH]; simpl; [reflexivity | rewrite IH; reflexivity].
Qed.

Lemma append_assoc : forall s1 s2 s3 : string,
  ((s1 ++ s2) ++ s3)%string = (s1 ++ (s2 ++ s3))%string.
Proof.
  induction s1 as [| c r IH]; intros s2 s3; simpl;
    [reflexivity | rewrite IH; reflexivity].
Qed.

Lemma length_append : forall s1 s2 : string,
  String.length (s1 ++ s2) = String.length s1 + String.length s2.
Proof.
  induction s1 as [| c r IH]; intros s2; simpl;
    [reflexivity | rewrite IH; reflexivity].
Qed.

(** ** Delete requests *)

(** C10.  [createDeleteSectionContentRequest] returns [null] exactly when
    the content range is empty ([contentStartIndex >= contentEndIndex]);
    otherwise it deletes from [contentStartIndex] to [contentEndIndex - 1].
    [createDeleteSectionRequest] always deletes from [sectionStartIndex] to
    [sectionEndIndex - 1]. *)
Theorem delete_requests_ranges : forall section : Section,
  (createDeleteSectionContentRequest section = None
   <-> contentStartIndex section >= contentEndIndex section)
  /\ (contentStartIndex section < contentEndIndex section ->
      createDeleteSectionContentRequest section
      = Some (deleteContentRange
                (Z.of_nat (contentStartIndex section))
                (Z.of_nat (contentEndIndex section) - 1)))
  /\ createDeleteSectionRequest section
     = deleteContentRange
         (Z.of_nat (sectionStartIndex section))
         (Z.of_nat (sectionEndIndex section) - 1).
Proof.
  intros section. unfold createDeleteSectionContentRequest.
  destruct (contentEndIndex section <=? contentStartIndex section) eqn:E.
  - apply Nat.leb_le in E. repeat split; auto; try lia.
  - apply Nat.leb_gt in E. repeat split; auto; try lia; discriminate.
Qed.

Lemma delete_requests_ranges_witness :
  createDeleteSectionContentRequest
    {| level := 1; title := "Intro"; headingId := None;
       headingStartIndex := 1; headingEndIndex := 7;
       contentStartIndex := 7; contentEndIndex := 20;
       sectionStartIndex := 1; sectionEndIndex := 20 |}
  = Some (deleteContentRange 7 19).
Proof.
  apply (proj1 (proj2 (delete_requests_ranges
    {| level := 1; title := "Intro"; headingId := None;
       headingStartIndex := 1; headingEndIndex := 7;
       contentStartIndex := 7; contentEndIndex := 20;
       sectionStartIndex := 1; sectionEndIndex := 20 |}))).
  simpl. lia.
Defined.

(** ** Rebasing *)

Lemma rebaseRequest_inverse : forall (k : Z) (r : Request),
  Rebaser.rebaseRequest (- k) (Rebaser.rebaseRequest k r) = r.
Proof.
  intros k r. destruct r; simpl; f_equal; lia.
Qed.

Lemma rebaseRequest_fields : forall (k : Z) (r : Request),
  Rebaser.indexFields (Rebaser.rebaseRequest k r)
  = map (fun i => (i + k)%Z) (Rebaser.indexFields r).
Proof.
  intros k r. destruct r; reflexivity.
Qed.

(** C9.  Rebasing a script by [k] and then by [-k] gives the script back:
    every index-bearing field (location index of InsertText; range start
    and end of SetTextStyle, SetParagraphStyle, SetBullets and DeleteRange)
    has its original value, where rebasing by [k] had added [k] to it. *)
Theorem rebase_inverse : forall (k : Z) (script : list Request),
  Rebaser.rebase (- k) (Rebaser.rebase k script) = script
  /\ map Rebaser.indexFields (Rebaser.rebase (- k) (Rebaser.rebase k script))
     = map Rebaser.indexFields script
  /\ map Rebaser.indexFields (Rebaser.rebase k script)
     = map (map (fun i => (i + k)%Z)) (map Rebaser.indexFields script).
Proof.
  intros k script.
  assert (E : Rebaser.rebase (- k) (Rebaser.rebase k script) = script).
  { unfold Rebaser.rebase. rewrite map_map.
    induction script as [| r rest IH]; simpl; [reflexivity |].
    rewrite rebaseRequest_inverse, IH. reflexivity. }
  split; [exact E |]. split; [rewrite E; reflexivity |].
  unfold Rebaser.rebase. rewrite !map_map.
  apply map_ext. intros r. apply rebaseRequest_fields.
Qed.

(** ** The plain-text flattener *)

Lemma appendEach_acc : forall (piece : Token -> string) (l : list Token) (acc : string),
  appendEach piece l acc = (acc ++ appendEach piece l "")%string.
Proof.
  intros piece l. induction l as [| token rest IH]; intros acc; simpl.
  - rewrite append_empty_r. reflexivity.
  - rewrite IH. rewrite (IH (piece token)).
    rewrite append_assoc. reflexivity.
Qed.

Lemma extractPlainText_app : forall l1 l2 : list Token,
  extractPlainText (Some (l1 ++ l2))
  = (extractPlainText (Some l1) ++ extractPlainText (Some l2))%string.
Proof.
  intros l1 l2. unfold extractPlainText.
  enough (G : forall acc : string,
            appendEach extractToken (l1 ++ l2) acc
            = (appendEach extractToken l1 acc ++ appendEach extractToken l2 "")%string)
    by apply G.
  induction l1 as [| token rest IH]; intros acc; simpl.
  - apply appendEach_acc.
  - apply IH.
Qed.

Lemma extractPlainText_single : forall token : Token,
  extractPlainText (Some [token]) = extractToken token.
Proof. reflexivity. Qed.

Lemma extractToken_unfold : forall token : Token,
  extractToken token
  = if isFormatting token then extractPlainText (tokens token)
    else if hasChildren token then extractPlainText (tokens token)
    else if isTextual token then textOrEmpty token
    else if isType token "space" then " "
    else textOrEmpty token.
Proof. intros token. destruct token. reflexivity. Qed.

Lemma hasChildren_true : forall (token : Token) (kids : list Token),
  tokens token = Some kids -> kids <> [] -> hasChildren token = true.
Proof.
  intros token kids E N. unfold hasChildren. rewrite E.
  destruct kids; [contradiction | reflexivity].
Qed.

Lemma extractPlainText_childless : forall token : Token,
  hasChildren token = false -> extractPlainText (tokens token) = "".
Proof.
  intros token H. unfold hasChildren in H.
  destruct (tokens token) as [[| t r] |]; try reflexivity; discriminate.
Qed.

Lemma space_is_plain : forall token : Token,
  isType token "space" = true ->
  isFormatting token = false /\ isTextual token = false.
Proof.
  intros token S. unfold isFormatting, isTextual, isType in *.
  apply String.eqb_eq in S. rewrite S. split; reflexivity.
Qed.

(** C8.  The flattener, on any token: a token that owns children yields
    the flattening of its children, whatever its literal text is; a token
    without children yields a single space when it is a [space] token, the
    empty string when it is a formatting token, and its literal text (if
    any) otherwise.  Flattening keeps the order of the tokens, and the tree
    of ["**bold *and* nested**"] flattens to ["bold and nested"], which
    holds no ['*']. *)
Theorem extractPlainText_children_first :
  (forall (token : Token) (kids : list Token),
     tokens token = Some kids -> kids <> [] ->
     extractToken token = extractPlainText (Some kids)
     /\ forall t : option string, extractToken (withText token t) = extractToken token)
  /\ (forall token : Token,
        hasChildren token = false ->
        (isType token "space" = true -> extractToken token = " ")
        /\ (isFormatting token = true -> extractToken token = "")
        /\ (isFormatting token = false -> isType token "space" = false ->
            extractToken token = textOrEmpty token))
  /\ (forall l1 l2 : list Token,
        extractPlainText (Some (l1 ++ l2))
        = (extractPlainText (Some l1) ++ extractPlainText (Some l2))%string)
  /\ (forall token : Token, extractPlainText (Some [token]) = extractToken token)
  /\ extractPlainText (Some boldAndNestedTokens) = "bold and nested"
  /\ containsChar "*" (extractPlainText (Some boldAndNestedTokens)) = false.
Proof.
  split; [| split; [| split; [| split; [| split]]]].
  - intros token kids E N.
    assert (C : hasChildren token = true) by (eapply hasChildren_true; eauto).
    split.
    + rewrite extractToken_unfold, C, E. destruct (isFormatting token); reflexivity.
    + intros t. rewrite !extractToken_unfold.
      destruct token as [ty tx ts d h o it hd rs]. simpl in *.
      unfold isFormatting, isTextual, hasChildren, isType in *. simpl in *.
      rewrite C. destruct (_ || _ || _); reflexivity.
  - intros token C. rewrite extractToken_unfold, C.
    rewrite (extractPlainText_childless token C).
    split; [| split].
    + intros S. destruct (space_is_plain token S) as [F T].
      rewrite F, T, S. reflexivity.
    + intros F. rewrite F. reflexivity.
    + intros F S. rewrite F, S. destruct (isTextual token); reflexivity.
  - apply extractPlainText_app.
  - apply extractPlainText_single.
  - reflexivity.
  - reflexivity.
Qed.

Lemma extractPlainText_children_first_witness :
  extractToken itemTextA = "a"
  /\ extractToken (plain "a") = "a".
Proof.
  split.
  - apply (proj1 (proj1 extractPlainText_children_first itemTextA
                    [inline "strong" "a" (Some [plain "a"])]
                    eq_refl ltac:(discriminate))).
  - apply (proj2 (proj2 (proj1 (proj2 extractPlainText_children_first)
                           (plain "a") eq_refl)) eq_refl eq_refl).
Defined.

(** ** The operation compiler *)

(** Induction on a token through its nested [tokens]. *)
Section TokenInduction.
Variable P : Token -> Prop.
Hypothesis step : forall token : Token,
  (forall kids, tokens token = Some kids -> Forall P kids) -> P token.

Fixpoint Token_nested_ind (token : Token) : P token :=
  step token
    (match token as t
           return forall kids, tokens t = Some kids -> Forall P kids with
     | mkToken _ _ ts _ _ _ _ _ _ =>
         match ts as o
               return forall kids, o = Some kids -> Forall P kids with
         | None => fun kids e =>
             match e in _ = y return match y with
                                     | None => True
                                     | Some _ => Forall P kids
                                     end with
             | eq_refl => I
             end
         | Some l => fun kids e =>
             match e in _ = y return match y with
                                     | None => True
                                     | Some k => Forall P k
                                     end with
             | eq_refl =>
                 (fix all (l : list Token) : Forall P l :=
                    match l with
                    | [] => Forall_nil P
                    | x :: r => Forall_cons x (Token_nested_ind x) (all r)
                    end) l
             end
         end
     end).
End TokenInduction.

Lemma insertedLength_app : forall s1 s2 : list Request,
  insertedLength (s1 ++ s2) = (insertedLength s1 + insertedLength s2)%Z.
Proof.
  induction s1 as [| r rest IH]; intros s2; simpl; [reflexivity |].
  destruct r; rewrite ?IH; lia.
Qed.

Lemma sameText_refl : forall c, sameText c c.
Proof. intros c. repeat split. Qed.

Lemma sameText_trans : forall c1 c2 c3,
  sameText c1 c2 -> sameText c2 c3 -> sameText c1 c3.
Proof.
  unfold sameText. intros c1 c2 c3 (A1 & A2 & A3 & A4) (B1 & B2 & B3 & B4).
  repeat split; congruence.
Qed.

Lemma inlineStyle_not_insert : forall token s e r,
  inlineStyle token s e = Some r -> insertedLength [r] = 0%Z.
Proof.
  intros token s e r. unfold inlineStyle.
  repeat match goal with
         | |- context [if ?b then _ else _] => destruct b
         end; intros H; inversion H; reflexivity.
Qed.

Lemma inlineLoop_sameText : forall (l : list Token),
  Forall (fun token => forall start c, sameText c (inlineToken token start c)) l ->
  forall startOffset currentOffset c,
    sameText c (inlineLoop inlineToken l startOffset currentOffset c).
Proof.
  induction 1 as [| token rest Htoken Hrest IH]; intros startOffset currentOffset c; simpl.
  - apply sameText_refl.
  - eapply sameText_trans; [apply Htoken | apply IH].
Qed.

Lemma inlineToken_sameText : forall token start c,
  sameText c (inlineToken token start c).
Proof.
  intros token. induction token as [token IH] using Token_nested_ind.
  intros start c. destruct token as [ty tx ts d h o it hd rs]. simpl in *.
  set (tok := mkToken ty tx ts d h o it hd rs).
  assert (S1 : sameText c
            match inlineStyle tok start (start + inlineLength tok) with
            | Some r => pushRequest r c
            | None => c
            end).
  { destruct (inlineStyle tok start (start + inlineLength tok)) as [r |] eqn:E.
    - apply inlineStyle_not_insert in E.
      unfold sameText, pushRequest.
      cbn [currentIndex requests tableInsertRequests tables].
      rewrite insertedLength_app, E. repeat split; try reflexivity; lia.
    - apply sameText_refl. }
  destruct ts as [[| kid kids] |]; try exact S1.
  eapply sameText_trans; [exact S1 |].
  apply inlineLoop_sameText. apply IH. reflexivity.
Qed.

Lemma applyInlineFormatting_sameText : forall tokens start c,
  sameText c (applyInlineFormatting tokens start c).
Proof.
  intros [l |] start c; simpl; [| apply sameText_refl].
  apply inlineLoop_sameText. apply Forall_forall.
  intros token _. apply inlineToken_sameText.
Qed.

Lemma cursorInvariant_sameText : forall c c',
  sameText c c' -> cursorInvariant c -> cursorInvariant c'.
Proof.
  unfold sameText, cursorInvariant. intros c c' (A & B & _) H. lia.
Qed.

Lemma cursorInvariant_insert : forall c text,
  cursorInvariant c ->
  cursorInvariant (advance (lengthZ text) (pushRequest (insertText (currentIndex c) text) c)).
Proof.
  unfold cursorInvariant, advance, pushRequest. intros c text H.
  cbn [currentIndex requests]. rewrite insertedLength_app.
  cbn [insertedLength]. lia.
Qed.

Lemma cursorInvariant_push : forall c r,
  insertedLength [r] = 0%Z -> cursorInvariant c -> cursorInvariant (pushRequest r c).
Proof.
  unfold cursorInvariant, pushRequest. intros c r E H.
  cbn [currentIndex requests]. rewrite insertedLength_app. lia.
Qed.

Lemma addListItem_cursor : forall isOrdered c item,
  cursorInvariant c -> cursorInvariant (addListItem isOrdered c item).
Proof.
  intros isOrdered c item H. unfold addListItem.
  eapply cursorInvariant_sameText; [apply applyInlineFormatting_sameText |].
  apply cursorInvariant_push; [reflexivity |].
  apply cursorInvariant_insert. exact H.
Qed.

Lemma processToken_cursor : forall c token,
  cursorInvariant c -> cursorInvariant (processToken c token).
Proof.
  intros c token H. unfold processToken.
  repeat match goal with
         | |- context [if ?b then _ else _] => destruct b
         end; try exact H.
  - unfold addHeading.
    eapply cursorInvariant_sameText; [apply applyInlineFormatting_sameText |].
    apply cursorInvariant_push; [reflexivity |].
    apply cursorInvariant_insert. exact H.
  - unfold addParagraph.
    eapply cursorInvariant_sameText; [apply applyInlineFormatting_sameText |].
    apply cursorInvariant_insert. exact H.
  - unfold addList. generalize dependent c.
    induction (items token) as [| item rest IH]; intros c H; simpl; [exact H |].
    apply IH. apply addListItem_cursor. exact H.
  - unfold addCodeBlock.
    apply cursorInvariant_push; [reflexivity |].
    apply cursorInvariant_insert. exact H.
  - unfold addTable.
    match goal with
    | |- context [advance (lengthZ ?p) (pushRequest (insertText _ ?p) c)] =>
        pose proof (cursorInvariant_insert c p H) as G
    end.
    unfold cursorInvariant in *. cbn [currentIndex requests] in *. exact G.
Qed.

(** X16.  For every token list, the cursor after the compilation is one more
    than the total length of the inserted text, placeholders included. *)
Lemma runTokens_cursor : forall tokens : list Token,
  currentIndex (runTokens tokens)
  = (1 + insertedLength (requests (runTokens tokens)))%Z.
Proof.
  intros tokens. unfold runTokens.
  assert (H : cursorInvariant freshConverter) by reflexivity.
  revert H. generalize freshConverter.
  induction tokens as [| token rest IH]; intros c H; simpl; [exact H |].
  apply IH. apply processToken_cursor. exact H.
Qed.

(** C1.  For ["# Title\n\nHello **world**"], whose tokens are a heading
    of depth 1 and a paragraph with a bold span, [convert] emits: the text
    ["Title\n"] at 1, the paragraph style HEADING_1 over [1,6), the text
    ["Hello world\n"] at 7, and bold over [13,18). *)
Theorem convert_title_hello : forall lexer : string -> list Token,
  lexer titleHelloMarkdown = titleHelloTokens ->
  contentRequests (convert lexer titleHelloMarkdown)
  = [ insertText 1 ("Title" ++ JS.LF);
      updateParagraphStyle 1 6 "HEADING_1" "namedStyleType";
      insertText 7 ("Hello world" ++ JS.LF);
      updateTextStyle 13 18 boldStyle "bold" ].
Proof.
  intros lexer H. unfold convert, convertState. rewrite H. reflexivity.
Qed.

Lemma convert_title_hello_witness :
  contentRequests (convert (fun _ => titleHelloTokens) titleHelloMarkdown)
  = [ insertText 1 ("Title" ++ JS.LF);
      updateParagraphStyle 1 6 "HEADING_1" "namedStyleType";
      insertText 7 ("Hello world" ++ JS.LF);
      updateTextStyle 13 18 boldStyle "bold" ].
Proof.
  apply (convert_title_hello (fun _ => titleHelloTokens)). reflexivity.
Defined.

(** C2, at the list item of [nestedItemList].  The cursor ends at 4, which
    is one more than the 3 characters inserted, but the bold range emitted
    for the second span is [6,7): both of its ends lie beyond the cursor. *)
Theorem nested_item_range_beyond_cursor :
  currentIndex (runTokens nestedItemList) = 4%Z
  /\ insertedLength (requests (runTokens nestedItemList)) = 3%Z
  /\ In (updateTextStyle 6 7 boldStyle "bold") (requests (runTokens nestedItemList))
  /\ forallb (withinCursor (currentIndex (runTokens nestedItemList)))
       (requests (runTokens nestedItemList)) = false.
Proof.
  vm_compute. repeat split; auto.
Qed.

(** C3, at the item tokens of [itemTokens] and at [delTokens].  The block
    text [**a**] renders as one character, yet the running offset advances
    by 5, the length of its literal text: the span that follows renders at
    offset 1 of the item and is styled at offset 5.  The strike-through
    span renders as one character and the offset does not advance at all:
    the bold span renders at offset 2 and is styled at offset 1. *)
Theorem inline_offset_by_literal_length :
  (lengthZ (extractToken itemTextA) = 1%Z
   /\ inlineLength itemTextA = 5%Z
   /\ extractPlainText (Some itemTokens) = "ab"
   /\ requests (applyInlineFormatting (Some itemTokens) 1 freshConverter)
      = [ updateTextStyle 1 2 boldStyle "bold";
          updateTextStyle 6 7 boldStyle "bold" ])
  /\ (lengthZ (extractToken (inline "del" "a" (Some [plain "a"]))) = 1%Z
      /\ inlineLength (inline "del" "a" (Some [plain "a"])) = 0%Z
      /\ extractPlainText (Some delTokens) = "a b"
      /\ requests (applyInlineFormatting (Some delTokens) 1 freshConverter)
         = [ updateTextStyle 2 3 boldStyle "bold" ]).
Proof.
  repeat split; reflexivity.
Qed.

(** ** The section parser *)

(** The heading styles of the enumeration are the ones whose name starts
    with [HEADING_], and their level is the digit of the name. *)
Lemma levelOfStyle_heading : forall named : NamedStyleType,
  JS.startsWith (styleName named) "HEADING_" = true ->
  JS.parseInt (JS.dropPrefix (styleName named) "HEADING_")
  = Some (levelOfStyle (styleName named))
  /\ 1 <= levelOfStyle (styleName named) <= 6.
Proof.
  intros named. destruct named; vm_compute; intros H;
    try discriminate; repeat split; repeat constructor.
Qed.

Lemma nth_error_Some_lt : forall (A : Type) (l : list A) (n : nat) (x : A),
  nth_error l n = Some x -> n < List.length l.
Proof.
  intros A l n x E. apply nth_error_Some. rewrite E. discriminate.
Qed.

(** The inner loop stops at the first index, from [idx] on, that is out of
    range or names a heading that is not deeper than [lvl]. *)
Lemma scanEndHeading_spec : forall (headings : list Heading) (lvl fuel idx : nat),
  idx + fuel = List.length headings ->
  let stop := scanEndHeading headings lvl idx fuel in
  idx <= stop <= List.length headings
  /\ (forall k deeper, idx <= k < stop ->
        nth_error headings k = Some deeper -> lvl < h_level deeper)
  /\ (forall next, nth_error headings stop = Some next -> h_level next <= lvl).
Proof.
  intros headings lvl fuel. induction fuel as [| fuel IH]; intros idx Hlen; simpl.
  - repeat split; try lia.
    intros next E. apply nth_error_Some_lt in E. lia.
  - destruct (nth_error headings idx) as [h |] eqn:E.
    + destruct (lvl <? h_level h) eqn:L.
      * apply Nat.ltb_lt in L.
        destruct (IH (S idx) ltac:(lia)) as (B & D & N).
        repeat split; try lia; [| exact N].
        intros k deeper Hk Ek.
        destruct (Nat.eq_dec k idx) as [-> | Hne].
        -- rewrite E in Ek. inversion Ek; subst. exact L.
        -- apply (D k deeper); [lia | exact Ek].
      * apply Nat.ltb_ge in L.
        repeat split; try lia.
        intros next En. rewrite E in En. inversion En; subst. exact L.
    + apply nth_error_None in E. lia.
Qed.

Lemma sectionsFrom_nth : forall content headings rest i k heading,
  nth_error rest k = Some heading ->
  nth_error (sectionsFrom content headings i rest) k
  = Some (sectionOfHeading heading (sectionEndOf content headings (i + k) heading)).
Proof.
  intros content headings rest. induction rest as [| h rest' IH]; intros i k heading E.
  - destruct k; discriminate.
  - destruct k as [| k']; simpl in *.
    + inversion E; subst. rewrite Nat.add_0_r. reflexivity.
    + rewrite (IH (S i) k' heading E).
      replace (S i + k') with (i + S k') by lia. reflexivity.
Qed.

Lemma sectionsFrom_length : forall content headings rest i,
  List.length (sectionsFrom content headings i rest) = List.length rest.
Proof.
  intros content headings rest. induction rest as [| h rest' IH]; intros i; simpl;
    [reflexivity | rewrite IH; reflexivity].
Qed.

(** One section per heading, in the order of the headings. *)
Lemma parseDocumentSections_length : forall doc : Document,
  List.length (parseDocumentSections doc)
  = List.length (collectHeadings (content_of_body doc)).
Proof.
  intros doc. apply sectionsFrom_length.
Qed.

Lemma sectionEndOf_boundary : forall content headings i heading,
  nth_error headings i = Some heading ->
  isBoundary headings (lastEndIndex content) i heading
    (sectionEndOf content headings i heading).
Proof.
  intros content headings i heading E. unfold sectionEndOf.
  assert (Hi : i < List.length headings) by (eapply nth_error_Some_lt; eauto).
  destruct (nth_error headings (i + 1)) as [nextHeading |] eqn:En.
  - destruct (scanEndHeading_spec headings (h_level heading)
                (List.length headings - (i + 1)) (i + 1) ltac:(lia))
      as (B & D & N).
    set (stop := scanEndHeading headings (h_level heading) (i + 1)
                   (List.length headings - (i + 1))) in *.
    destruct (nth_error headings stop) as [endHeading |] eqn:Es.
    + left. exists stop, endHeading. repeat split; try lia; auto.
      intros k deeper Hk Ek. apply (D k deeper); [lia | exact Ek].
    + right. split; [| reflexivity].
      apply nth_error_None in Es.
      intros j later Hj Ej. apply (D j later); [| exact Ej].
      apply nth_error_Some_lt in Ej. lia.
  - right. split; [| reflexivity].
    apply nth_error_None in En.
    intros j later Hj Ej. apply nth_error_Some_lt in Ej. lia.
Qed.

(** Section [i] is the record built from heading [i] and its boundary. *)
Lemma parseDocumentSections_at : forall (doc : Document) (i : nat) (heading : Heading),
  nth_error (collectHeadings (content_of_body doc)) i = Some heading ->
  let boundary :=
    sectionEndOf (content_of_body doc)
      (collectHeadings (content_of_body doc)) i heading in
  nth_error (parseDocumentSections doc) i
  = Some (sectionOfHeading heading boundary)
  /\ isBoundary (collectHeadings (content_of_body doc))
       (lastEndIndex (content_of_body doc)) i heading boundary.
Proof.
  intros doc i heading E. split.
  - apply (sectionsFrom_nth _ _ _ 0 i heading E).
  - apply sectionEndOf_boundary. exact E.
Qed.

(** The document end the parser reads is the end index of the element
    that closes the body. *)
Lemma lastEndIndex_final : forall (before : list StructuralElement)
    (final : StructuralElement),
  lastEndIndex (before ++ [final]) = endIndex final.
Proof.
  intros before final. unfold lastEndIndex.
  rewrite map_app. cbn [map]. apply last_last.
Qed.

(** A document with a heading has a last structural element. *)
Lemma heading_has_final_element : forall (content : list StructuralElement)
    (i : nat) (heading : Heading),
  nth_error (collectHeadings content) i = Some heading ->
  exists before final, content = before ++ [final].
Proof.
  intros content i heading E.
  destruct content as [| first rest]; [destruct i; discriminate |].
  destruct (exists_last (l := first :: rest)) as (before & final & ->);
    [discriminate |].
  exists before, final. reflexivity.
Qed.

(** C4.  For every document and every heading [i] of its heading sequence,
    section [i] ends at the start of the first later heading whose level
    is not greater, or, when there is none, at the end index of [final],
    the last structural element of the body; its section range starts at
    the heading's start and its content range at the heading's end, both
    ending at that boundary. *)
Theorem section_boundary_rule : forall (doc : Document) (i : nat) (heading : Heading),
  nth_error (collectHeadings (content_of_body doc)) i = Some heading ->
  exists (section : Section) (before : list StructuralElement)
         (final : StructuralElement),
    nth_error (parseDocumentSections doc) i = Some section
    /\ content_of_body doc = before ++ [final]
    /\ isBoundary (collectHeadings (content_of_body doc))
         (endIndex final) i heading (sectionEndIndex section)
    /\ sectionStartIndex section = h_startIndex heading
    /\ contentStartIndex section = h_endIndex heading
    /\ contentEndIndex section = sectionEndIndex section
    /\ level section = h_level heading.
Proof.
  intros doc i heading E.
  destruct (parseDocumentSections_at doc i heading E) as (Es & B).
  destruct (heading_has_final_element _ _ _ E) as (before & final & Ec).
  rewrite Ec in B at 2. rewrite lastEndIndex_final in B.
  eexists. exists before, final. split; [exact Es |]. split; [exact Ec |].
  simpl. repeat split; try reflexivity. exact B.
Qed.

Lemma section_boundary_rule_witness :
  (exists section : Section,
     nth_error (parseDocumentSections doc1221) 0 = Some section
     /\ sectionStartIndex section = 1
     /\ contentStartIndex section = 3
     /\ contentEndIndex section = 15
     /\ sectionEndIndex section = 15)
  /\ (exists section : Section,
        nth_error (parseDocumentSections doc1221) 3 = Some section
        /\ sectionStartIndex section = 15
        /\ contentStartIndex section = 17
        /\ contentEndIndex section = 21
        /\ sectionEndIndex section = 21).
Proof.
  split.
  - destruct (section_boundary_rule doc1221 0
                {| h_level := 1; h_text := "A"; h_headingId := None;
                   h_startIndex := 1; h_endIndex := 3 |} eq_refl)
      as (section & before & final & Es & _ & B & S1 & S2 & S3 & _).
    assert (Eb : sectionEndIndex section = 15).
    { destruct B as [(j & next & Hj & En & Hle & _ & Eb) | (Hall & _)].
      - pose proof (nth_error_Some_lt _ _ _ _ En) as Hlt.
        change (List.length (collectHeadings (content_of_body doc1221)))
          with 4 in Hlt.
        destruct j as [| [| [| [| j]]]]; try lia;
          vm_compute in En; inversion En; subst next;
          cbn [h_level h_startIndex] in Hle, Eb; try lia.
      - exfalso.
        pose proof (Hall 3 {| h_level := 1; h_text := "D"; h_headingId := None;
                              h_startIndex := 15; h_endIndex := 17 |}
                      ltac:(lia) eq_refl) as Hd.
        cbn [h_level] in Hd. lia. }
    exists section. cbn [h_startIndex h_endIndex] in S1, S2.
    rewrite Eb in S3.
    exact (conj Es (conj S1 (conj S2 (conj S3 Eb)))).
  - destruct (section_boundary_rule doc1221 3
                {| h_level := 1; h_text := "D"; h_headingId := None;
                   h_startIndex := 15; h_endIndex := 17 |} eq_refl)
      as (section & before & final & Es & Ec & B & S1 & S2 & S3 & _).
    assert (Ef : endIndex final = 21).
    { change (content_of_body doc1221)
        with (firstn 7 (content_of_body doc1221)
              ++ [para NORMAL_TEXT ("end" ++ JS.LF) 17 21]) in Ec.
      apply app_inj_tail in Ec. destruct Ec as [_ <-]. reflexivity. }
    assert (Eb : sectionEndIndex section = 21).
    { destruct B as [(j & next & Hj & En & _) | (_ & Eb)].
      - pose proof (nth_error_Some_lt _ _ _ _ En) as Hlt.
        change (List.length (collectHeadings (content_of_body doc1221)))
          with 4 in Hlt.
        lia.
      - rewrite Eb. exact Ef. }
    exists section. cbn [h_startIndex h_endIndex] in S1, S2.
    rewrite Eb in S3.
    exact (conj Es (conj S1 (conj S2 (conj S3 Eb)))).
Defined.

(** *** Coverage and nesting of the sections *)

Lemma last_cons_default : forall (A : Type) (l : list A) (x d : A),
  last (x :: l) d = last l x.
Proof.
  intros A l. induction l as [| y r IH]; intros x d; [reflexivity |].
  change (last (x :: y :: r) d) with (last (y :: r) d).
  rewrite (IH y d), (IH y x). reflexivity.
Qed.

Lemma headingOfElement_range : forall element h,
  headingOfElement element = Some h ->
  h_startIndex h = startIndex element /\ h_endIndex h = endIndex element.
Proof.
  intros element h. unfold headingOfElement.
  destruct (paragraph element) as [para |]; [| discriminate].
  destruct (paragraphStyle para) as [style |]; [| discriminate].
  destruct (namedStyleType style) as [named |]; [| discriminate].
  destruct (JS.startsWith _ _); [| discriminate].
  intros H. inversion H; subst. split; reflexivity.
Qed.

Lemma orderedFrom_weaken : forall headings lo lo' hi,
  lo' <= lo -> orderedFrom lo headings hi -> orderedFrom lo' headings hi.
Proof.
  intros [| h rest] lo lo' hi Hle; simpl.
  - lia.
  - intros (A & B & C). repeat split; [lia | exact B | exact C].
Qed.

Lemma contiguousFrom_ordered : forall (elems : list StructuralElement) pos,
  contiguousFrom pos elems = true ->
  orderedFrom pos (collectHeadings elems) (last (map endIndex elems) pos).
Proof.
  induction elems as [| element rest IH]; intros pos H.
  - simpl. lia.
  - simpl in H. apply andb_prop in H. destruct H as [H Hrest].
    apply andb_prop in H. destruct H as [Hs Hne].
    apply Nat.eqb_eq in Hs. apply Nat.ltb_lt in Hne.
    specialize (IH _ Hrest).
    change (map endIndex (element :: rest))
      with (endIndex element :: map endIndex rest).
    rewrite last_cons_default. simpl.
    destruct (headingOfElement element) as [h |] eqn:E.
    + apply headingOfElement_range in E. destruct E as [E1 E2].
      simpl. rewrite E1, E2. repeat split; [lia | lia | exact IH].
    + apply (orderedFrom_weaken _ (endIndex element)); [lia | exact IH].
Qed.

Lemma orderedFrom_bounds : forall headings lo hi,
  orderedFrom lo headings hi -> lo <= hi.
Proof.
  induction headings as [| h rest IH]; intros lo hi; simpl; [lia |].
  intros (A & B & C). apply IH in C. lia.
Qed.

Lemma orderedFrom_nth : forall headings lo hi i h,
  orderedFrom lo headings hi ->
  nth_error headings i = Some h ->
  lo <= h_startIndex h /\ h_startIndex h < h_endIndex h /\ h_endIndex h <= hi.
Proof.
  induction headings as [| h0 rest IH]; intros lo hi i h Hord E.
  - destruct i; discriminate.
  - simpl in Hord. destruct Hord as (A & B & C).
    destruct i as [| i']; simpl in E.
    + inversion E; subst. apply orderedFrom_bounds in C. lia.
    + destruct (IH _ _ _ _ C E) as (A' & B' & C'). lia.
Qed.

Lemma orderedFrom_apart : forall headings lo hi i j a b,
  orderedFrom lo headings hi ->
  i < j ->
  nth_error headings i = Some a ->
  nth_error headings j = Some b ->
  h_endIndex a <= h_startIndex b.
Proof.
  induction headings as [| h0 rest IH]; intros lo hi i j a b Hord Hij Ea Eb.
  - destruct i; discriminate.
  - simpl in Hord. destruct Hord as (A & B & C).
    destruct j as [| j']; [lia |]. simpl in Eb.
    destruct i as [| i']; simpl in Ea.
    + inversion Ea; subst.
      destruct (orderedFrom_nth _ _ _ _ _ C Eb) as (A' & _). exact A'.
    + apply (IH _ _ i' j' a b C); [lia | exact Ea | exact Eb].
Qed.

Lemma orderedFrom_increasing : forall headings lo hi i j a b,
  orderedFrom lo headings hi ->
  i < j ->
  nth_error headings i = Some a ->
  nth_error headings j = Some b ->
  h_startIndex a < h_startIndex b.
Proof.
  intros headings lo hi i j a b Hord Hij Ea Eb.
  pose proof (orderedFrom_apart _ _ _ _ _ _ _ Hord Hij Ea Eb).
  pose proof (orderedFrom_nth _ _ _ _ _ Hord Ea). lia.
Qed.

(** The last heading that starts at or before [p]. *)
Lemma orderedFrom_last_before : forall headings lo hi first p,
  orderedFrom lo headings hi ->
  nth_error headings 0 = Some first ->
  h_startIndex first <= p ->
  exists i h,
    nth_error headings i = Some h
    /\ h_startIndex h <= p
    /\ forall j later, i < j -> nth_error headings j = Some later ->
                       p < h_startIndex later.
Proof.
  induction headings as [| h0 rest IH]; intros lo hi first p Hord E0 Hp.
  - discriminate.
  - simpl in E0. inversion E0; subst h0. clear E0.
    pose proof Hord as Hall.
    simpl in Hord. destruct Hord as (A & B & C).
    destruct rest as [| h1 rest'].
    + exists 0, first. repeat split; auto.
      intros j later Hj Ej. destruct j as [| [| j']]; [lia | discriminate | discriminate].
    + destruct (le_lt_dec (h_startIndex h1) p) as [Hle | Hlt].
      * destruct (IH _ _ h1 p C eq_refl Hle) as (i & h & Ei & Hi & Hafter).
        exists (S i), h. repeat split; auto.
        intros j later Hj Ej. destruct j as [| j']; [lia |].
        apply (Hafter j' later); [lia | exact Ej].
      * exists 0, first. repeat split; auto.
        intros j later Hj Ej. destruct j as [| j']; [lia |].
        destruct j' as [| j''].
        -- simpl in Ej. inversion Ej; subst. exact Hlt.
        -- assert (h_startIndex h1 < h_startIndex later).
           { apply (orderedFrom_increasing _ _ _ 1 (S (S j'')) h1 later Hall);
               [lia | reflexivity | exact Ej]. }
           lia.
Qed.

(** In a well laid out document the boundary of a heading lies between
    its end and the end of the document. *)
Lemma isBoundary_range : forall headings lo docEnd i heading boundary,
  orderedFrom lo headings docEnd ->
  nth_error headings i = Some heading ->
  isBoundary headings docEnd i heading boundary ->
  h_endIndex heading <= boundary <= docEnd.
Proof.
  intros headings lo docEnd i heading boundary Hord E
    [(j & next & Hj & Ej & _ & _ & ->) | (_ & ->)].
  - pose proof (orderedFrom_apart _ _ _ _ _ _ _ Hord Hj E Ej).
    pose proof (orderedFrom_nth _ _ _ _ _ Hord Ej). lia.
  - pose proof (orderedFrom_nth _ _ _ _ _ Hord E). lia.
Qed.

(** Two sections are apart or nested. *)
Lemma isBoundary_laminar : forall headings lo docEnd i j hi hj bi bj,
  orderedFrom lo headings docEnd ->
  i < j ->
  nth_error headings i = Some hi ->
  nth_error headings j = Some hj ->
  isBoundary headings docEnd i hi bi ->
  isBoundary headings docEnd j hj bj ->
  bi <= h_startIndex hj
  \/ (bj <= bi /\ h_level hi < h_level hj).
Proof.
  intros headings lo docEnd i j hi hj bi bj Hord Hij Ei Ej Bi Bj.
  pose proof (isBoundary_range _ _ _ _ _ _ Hord Ej Bj) as Rj.
  destruct Bi as [(k & nk & Hk & Ek & Lk & Dk & ->) | (Di & ->)].
  - destruct (le_lt_dec k j) as [Hkj | Hjk].
    + left. destruct (Nat.eq_dec k j) as [-> | Hne].
      * rewrite Ej in Ek. inversion Ek; subst. lia.
      * pose proof (orderedFrom_increasing _ _ _ k j nk hj Hord ltac:(lia) Ek Ej).
        lia.
    + right. assert (Lij : h_level hi < h_level hj) by (apply (Dk j hj); [lia | exact Ej]).
      split; [| exact Lij].
      destruct Bj as [(k' & nk' & Hk' & Ek' & Lk' & Dk' & ->) | (Dj & ->)].
      * destruct (le_lt_dec k' k) as [Hle | Hgt].
        -- destruct (Nat.eq_dec k' k) as [-> | Hne].
           ++ rewrite Ek in Ek'. inversion Ek'; subst. lia.
           ++ pose proof (orderedFrom_increasing _ _ _ k' k nk' nk Hord ltac:(lia) Ek' Ek).
              lia.
        -- pose proof (Dk' k nk ltac:(lia) Ek). lia.
      * pose proof (Dj k nk Hjk Ek). lia.
  - right. split; [lia |]. apply (Di j hj Hij Ej).
Qed.

Lemma collectHeadings_In : forall (elems : list StructuralElement) h,
  In h (collectHeadings elems) ->
  exists element, In element elems /\ headingOfElement element = Some h.
Proof.
  induction elems as [| element rest IH]; intros h Hin; simpl in Hin.
  - contradiction.
  - destruct (headingOfElement element) as [h0 |] eqn:E.
    + destruct Hin as [-> | Hin].
      * exists element. split; [left; reflexivity | exact E].
      * destruct (IH _ Hin) as (e & He & Ee). exists e. split; [right |]; assumption.
    + destruct (IH _ Hin) as (e & He & Ee). exists e. split; [right |]; assumption.
Qed.

(** A heading that does not end the document is followed by an element
    that starts where the heading ends. *)
Lemma contiguousFrom_next : forall (elems : list StructuralElement) pos h,
  contiguousFrom pos elems = true ->
  In h (collectHeadings elems) ->
  h_endIndex h < last (map endIndex elems) pos ->
  exists element, In element elems /\ startIndex element = h_endIndex h.
Proof.
  induction elems as [| element rest IH]; intros pos h H Hin Hlt.
  - contradiction.
  - simpl in H. apply andb_prop in H. destruct H as [H Hrest].
    change (map endIndex (element :: rest))
      with (endIndex element :: map endIndex rest) in Hlt.
    rewrite last_cons_default in Hlt.
    assert (Later : In h (collectHeadings rest) ->
                    exists e, In e (element :: rest) /\ startIndex e = h_endIndex h).
    { intros Hr. destruct (IH _ _ Hrest Hr Hlt) as (e & He & Ee).
      exists e. split; [right |]; assumption. }
    simpl in Hin. destruct (headingOfElement element) as [h0 |] eqn:E; [| auto].
    destruct Hin as [-> | Hin]; [| auto].
    apply headingOfElement_range in E. destruct E as [_ E2].
    destruct rest as [| e2 rest'].
    + simpl in Hlt. lia.
    + exists e2. split; [right; left; reflexivity |].
      simpl in Hrest. apply andb_prop in Hrest. destruct Hrest as [Hr _].
      apply andb_prop in Hr. destruct Hr as [Hr _].
      apply Nat.eqb_eq in Hr. lia.
Qed.

Lemma contiguous_ordered : forall elems : list StructuralElement,
  contiguous elems = true ->
  collectHeadings elems <> [] ->
  exists lo, contiguousFrom lo elems = true
             /\ last (map endIndex elems) lo = lastEndIndex elems
             /\ orderedFrom lo (collectHeadings elems) (lastEndIndex elems).
Proof.
  intros [| element rest] H Hne; [contradiction Hne; reflexivity |].
  exists (startIndex element). simpl in H.
  assert (E : last (map endIndex (element :: rest)) (startIndex element)
              = lastEndIndex (element :: rest)).
  { unfold lastEndIndex.
    change (map endIndex (element :: rest))
      with (endIndex element :: map endIndex rest).
    rewrite !last_cons_default. reflexivity. }
  repeat split; [exact H | exact E |].
  rewrite <- E. apply contiguousFrom_ordered. exact H.
Qed.

(** Section [i] is built from heading [i]. *)
Lemma parseDocumentSections_nth : forall doc i section,
  nth_error (parseDocumentSections doc) i = Some section ->
  exists heading,
    nth_error (collectHeadings (content_of_body doc)) i = Some heading
    /\ section = sectionOfHeading heading
                   (sectionEndOf (content_of_body doc)
                      (collectHeadings (content_of_body doc)) i heading).
Proof.
  intros doc i section E.
  assert (Hi : i < List.length (collectHeadings (content_of_body doc))).
  { rewrite <- parseDocumentSections_length. eapply nth_error_Some_lt; eauto. }
  destruct (nth_error (collectHeadings (content_of_body doc)) i) as [heading |] eqn:Eh.
  - exists heading. split; [reflexivity |].
    unfold parseDocumentSections in E.
    rewrite (sectionsFrom_nth _ _ _ 0 i heading Eh) in E.
    inversion E. reflexivity.
  - apply nth_error_None in Eh. lia.
Qed.

(** In [doc1221] the first section, [1,15), contains the second,
    [9,13): the sections of a document are not disjoint. *)
Lemma sections_overlap_doc1221 :
  ~ disjointSections (parseDocumentSections doc1221).
Proof.
  intros H.
  apply (H 0 1
           {| level := 1; title := "A"; headingId := None;
              headingStartIndex := 1; headingEndIndex := 3;
              contentStartIndex := 3; contentEndIndex := 15;
              sectionStartIndex := 1; sectionEndIndex := 15 |}
           {| level := 2; title := "B"; headingId := None;
              headingStartIndex := 9; headingEndIndex := 11;
              contentStartIndex := 11; contentEndIndex := 13;
              sectionStartIndex := 9; sectionEndIndex := 13 |}
           10); [discriminate | reflexivity | reflexivity |].
  unfold inSection. simpl. lia.
Qed.

(** C5, amended.  In a document whose elements are laid out contiguously
    and that has a heading: the section ranges cover exactly the positions
    from the first heading's start to the end of the document; the sections
    are listed by increasing start, and a later section either begins at or
    after the end of an earlier one or lies inside it with a deeper level;
    and the content range of a section is empty exactly when no element of
    the document starts inside it. *)
Theorem sections_cover_and_nest : forall (doc : Document) (first : Heading),
  contiguous (content_of_body doc) = true ->
  nth_error (collectHeadings (content_of_body doc)) 0 = Some first ->
  (forall p : nat,
     h_startIndex first <= p < lastEndIndex (content_of_body doc)
     <-> exists s, In s (parseDocumentSections doc) /\ inSection p s)
  /\ (forall i j si sj,
        i < j ->
        nth_error (parseDocumentSections doc) i = Some si ->
        nth_error (parseDocumentSections doc) j = Some sj ->
        sectionStartIndex si < sectionStartIndex sj
        /\ (sectionEndIndex si <= sectionStartIndex sj
            \/ (sectionEndIndex sj <= sectionEndIndex si /\ level si < level sj)))
  /\ (forall s,
        In s (parseDocumentSections doc) ->
        (contentStartIndex s >= contentEndIndex s
         <-> extractSectionContent doc s = [])).
Proof.
  intros doc first Hc E0.
  set (elems := content_of_body doc) in *.
  set (headings := collectHeadings elems) in *.
  assert (Hne : headings <> []) by (intros N; rewrite N in E0; discriminate).
  destruct (contiguous_ordered elems Hc Hne) as (lo & Hfrom & Elast & Hord).
  fold headings in Hord.
  assert (Sec : forall i s, nth_error (parseDocumentSections doc) i = Some s ->
            exists h, nth_error headings i = Some h
                      /\ s = sectionOfHeading h (sectionEndOf elems headings i h)
                      /\ isBoundary headings (lastEndIndex elems) i h (sectionEndIndex s)).
  { intros i s Es. destruct (parseDocumentSections_nth doc i s Es) as (h & Eh & ->).
    exists h. repeat split; auto. simpl. apply sectionEndOf_boundary. exact Eh. }
  split; [| split].
  - intros p. split.
    + intros [Hlo Hhi].
      destruct (orderedFrom_last_before _ _ _ first p Hord E0 Hlo)
        as (i & h & Ei & Hi & Hafter).
      destruct (parseDocumentSections_at doc i h Ei) as (Es & Bs).
      eexists. split; [eapply nth_error_In; exact Es |].
      unfold inSection. simpl. split; [exact Hi |].
      destruct Bs as [(j & next & Hj & Ej & _ & _ & Eb) | (_ & Eb)];
        rewrite Eb.
      * apply (Hafter j next Hj Ej).
      * exact Hhi.
    + intros (s & Hin & [Hs He]).
      apply In_nth_error in Hin. destruct Hin as (i & Es).
      destruct (Sec i s Es) as (h & Eh & -> & Bs).
      pose proof (isBoundary_range _ _ _ _ _ _ Hord Eh Bs) as R.
      simpl in *. split; [| lia].
      destruct i as [| i'].
      * assert (Eq : Some first = Some h) by (rewrite <- E0, <- Eh; reflexivity).
        inversion Eq; subst. exact Hs.
      * pose proof (orderedFrom_increasing _ _ _ 0 (S i') first h Hord
                      ltac:(lia) E0 Eh). lia.
  - intros i j si sj Hij Ei Ej.
    destruct (Sec i si Ei) as (hi & Ehi & -> & Bi).
    destruct (Sec j sj Ej) as (hj & Ehj & -> & Bj).
    simpl in *. split.
    + apply (orderedFrom_increasing _ _ _ i j hi hj Hord Hij Ehi Ehj).
    + apply (isBoundary_laminar _ _ _ i j hi hj _ _ Hord Hij Ehi Ehj Bi Bj).
  - intros s Hin. apply In_nth_error in Hin. destruct Hin as (i & Es).
    destruct (Sec i s Es) as (h & Eh & -> & Bs).
    pose proof (isBoundary_range _ _ _ _ _ _ Hord Eh Bs) as R.
    simpl in *. unfold extractSectionContent. simpl. fold elems. split.
    + intros Hge.
      destruct (filter _ elems) as [| e r] eqn:F; [reflexivity |].
      assert (Hin : In e (filter
                (fun element =>
                   (h_endIndex h <=? startIndex element)
                   && (startIndex element <? sectionEndOf elems headings i h))
                elems)) by (rewrite F; left; reflexivity).
      apply filter_In in Hin. destruct Hin as [_ Hin].
      apply andb_prop in Hin. destruct Hin as [H1 H2].
      apply Nat.leb_le in H1. apply Nat.ltb_lt in H2. lia.
    + intros F.
      destruct (le_lt_dec (sectionEndOf elems headings i h) (h_endIndex h))
        as [Hle | Hlt]; [lia |].
      exfalso.
      destruct (contiguousFrom_next elems lo h Hfrom) as (e & He & Ee).
      * eapply nth_error_In; eauto.
      * rewrite Elast. lia.
      * assert (Hin : In e (filter
                  (fun element =>
                     (h_endIndex h <=? startIndex element)
                     && (startIndex element <? sectionEndOf elems headings i h))
                  elems)).
        { apply filter_In. split; [exact He |].
          apply andb_true_intro. split;
            [apply Nat.leb_le | apply Nat.ltb_lt]; lia. }
        rewrite F in Hin. contradiction.
Qed.

Lemma sections_cover_and_nest_witness :
  (forall p : nat,
     1 <= p < 21
     <-> exists s, In s (parseDocumentSections doc1221) /\ inSection p s)
  /\ (forall i j si sj,
        i < j ->
        nth_error (parseDocumentSections doc1221) i = Some si ->
        nth_error (parseDocumentSections doc1221) j = Some sj ->
        sectionStartIndex si < sectionStartIndex sj
        /\ (sectionEndIndex si <= sectionStartIndex sj
            \/ (sectionEndIndex sj <= sectionEndIndex si /\ level si < level sj)))
  /\ (forall s,
        In s (parseDocumentSections doc1221) ->
        (contentStartIndex s >= contentEndIndex s
         <-> extractSectionContent doc1221 s = [])).
Proof.
  apply (sections_cover_and_nest doc1221
           {| h_level := 1; h_text := "A"; h_headingId := None;
              h_startIndex := 1; h_endIndex := 3 |});
    reflexivity.
Defined.

(** ** The outline *)

Lemma pushChild_length : forall st parent child,
  List.length (pushChild st parent child) = List.length st.
Proof.
  induction st as [| node rest IH]; intros parent child; simpl; [reflexivity |].
  destruct parent; simpl; [reflexivity | rewrite IH; reflexivity].
Qed.

Lemma pushChild_same : forall st parent child node,
  nth_error st parent = Some node ->
  nth_error (pushChild st parent child) parent
  = Some {| node_section := node_section node;
            children := children node ++ [child] |}.
Proof.
  induction st as [| n rest IH]; intros parent child node E.
  - destruct parent; discriminate.
  - destruct parent as [| parent']; simpl in *.
    + inversion E; subst. reflexivity.
    + apply IH. exact E.
Qed.

Lemma pushChild_other : forall st parent child k,
  k <> parent ->
  nth_error (pushChild st parent child) k = nth_error st k.
Proof.
  induction st as [| n rest IH]; intros parent child k Hne.
  - destruct parent; reflexivity.
  - destruct parent as [| parent']; destruct k as [| k']; simpl; try reflexivity.
    + contradiction Hne; reflexivity.
    + apply IH. intros ->. apply Hne. reflexivity.
Qed.

(** The loop of pops removes a prefix of entries that are not shallower
    than [lvl] and stops at an entry that is shallower, if any is left. *)
Lemma popStack_spec : forall st stk lvl,
  exists popped,
    stk = popped ++ popStack st stk lvl
    /\ Forall (fun ref => lvl <= levelOfRef st ref) popped
    /\ match popStack st stk lvl with
       | [] => True
       | top :: _ => levelOfRef st top < lvl
       end.
Proof.
  intros st stk lvl. induction stk as [| top below IH]; simpl.
  - exists []. repeat split; constructor.
  - destruct (lvl <=? levelOfRef st top) eqn:L.
    + apply Nat.leb_le in L. destruct IH as (popped & E & F & T).
      exists (top :: popped). repeat split.
      * simpl. rewrite <- E. reflexivity.
      * constructor; assumption.
      * exact T.
    + apply Nat.leb_gt in L. exists []. repeat split; [constructor | exact L].
Qed.

Lemma popStack_suffix_valid : forall st stk lvl (P : nat -> Prop),
  Forall P stk -> Forall P (popStack st stk lvl).
Proof.
  intros st stk lvl P H. destruct (popStack_spec st stk lvl) as (popped & E & _).
  rewrite E in H. apply Forall_app in H. apply H.
Qed.

Lemma Forall_lt_S : forall (l : list nat) (n : nat),
  Forall (fun ref => ref < n) l -> Forall (fun ref => ref < S n) l.
Proof.
  intros l n H. eapply Forall_impl; [| exact H]. simpl. intros; lia.
Qed.

Lemma nth_error_snoc : forall (A : Type) (l : list A) (x y : A) (k : nat),
  nth_error (l ++ [x]) k = Some y ->
  (k < List.length l /\ nth_error l k = Some y) \/ (k = List.length l /\ y = x).
Proof.
  intros A l x y k E.
  destruct (Nat.lt_ge_cases k (List.length l)) as [Hlt | Hge].
  - left. rewrite nth_error_app1 in E by exact Hlt. split; assumption.
  - right. rewrite nth_error_app2 in E by exact Hge.
    remember (k - List.length l) as d eqn:Ed.
    destruct d as [| d']; simpl in E.
    + inversion E; subst. split; [lia | reflexivity].
    + destruct d'; discriminate.
Qed.

(** A step leaves the level of every node already allocated as it is. *)
Lemma outlineStep_levels : forall s section ref,
  ref < List.length (store s) ->
  levelOfRef (store (outlineStep s section)) ref = levelOfRef (store s) ref.
Proof.
  intros s section ref Hlt. unfold outlineStep, levelOfRef.
  set (leaf := {| node_section := section; children := [] |}).
  assert (Eapp : nth_error (store s ++ [leaf]) ref = nth_error (store s) ref)
    by (apply nth_error_app1; exact Hlt).
  destruct (popStack (store s) (stack s) (level section)) as [| top kept]; simpl.
  - rewrite Eapp. reflexivity.
  - destruct (Nat.eq_dec ref top) as [-> | Hne].
    + destruct (nth_error (store s) top) as [parent |] eqn:Ep;
        [| apply nth_error_None in Ep; lia].
      rewrite (pushChild_same _ _ _ parent) by exact Eapp.
      reflexivity.
    + rewrite pushChild_other by exact Hne. rewrite Eapp. reflexivity.
Qed.

Lemma outlineStep_new_level : forall s section,
  Forall (fun ref => ref < List.length (store s)) (stack s) ->
  levelOfRef (store (outlineStep s section)) (List.length (store s))
  = level section.
Proof.
  intros s section Hstack. unfold outlineStep, levelOfRef.
  pose proof (popStack_suffix_valid (store s) (stack s) (level section) _ Hstack)
    as Hkept.
  set (leaf := {| node_section := section; children := [] |}).
  assert (Enew : nth_error (store s ++ [leaf]) (List.length (store s)) = Some leaf).
  { rewrite nth_error_app2 by lia. rewrite Nat.sub_diag. reflexivity. }
  destruct (popStack (store s) (stack s) (level section)) as [| top kept]; simpl.
  - rewrite Enew. reflexivity.
  - assert (top < List.length (store s)) by (inversion Hkept; assumption).
    rewrite pushChild_other by lia. rewrite Enew. reflexivity.
Qed.

(** What the pops leave is sorted as the stack was, and lies below the
    level of the section. *)
Lemma popStack_sorted : forall st stk lvl,
  StronglySorted (fun upper lower => lower < upper) (map (levelOfRef st) stk) ->
  StronglySorted (fun upper lower => lower < upper)
    (map (levelOfRef st) (popStack st stk lvl))
  /\ Forall (fun ref => levelOfRef st ref < lvl) (popStack st stk lvl).
Proof.
  intros st stk lvl. induction stk as [| top below IH]; intros H; simpl.
  - split; constructor.
  - simpl in H. apply StronglySorted_inv in H. destruct H as [Hbelow Htop].
    destruct (lvl <=? levelOfRef st top) eqn:L.
    + apply IH. exact Hbelow.
    + apply Nat.leb_gt in L. split.
      * simpl. constructor; assumption.
      * constructor; [exact L |].
        apply Forall_forall. intros ref Hin.
        rewrite Forall_forall in Htop.
        specialize (Htop (levelOfRef st ref) (in_map _ _ _ Hin)). lia.
Qed.

Lemma outlineStep_wellFormed : forall s section,
  wellFormedOutline s -> wellFormedOutline (outlineStep s section).
Proof.
  intros s section (Hstack & Houtline & Hkids & Hsorted).
  pose proof (outlineStep_levels s section) as Hlevels.
  pose proof (outlineStep_new_level s section Hstack) as Hnew.
  pose proof (popStack_suffix_valid (store s) (stack s) (level section) _ Hstack) as Hkept.
  destruct (popStack_sorted (store s) (stack s) (level section) Hsorted)
    as [Hksorted Hkbelow].
  assert (Hstk : stack (outlineStep s section)
                 = List.length (store s)
                   :: popStack (store s) (stack s) (level section)).
  { unfold outlineStep.
    destruct (popStack (store s) (stack s) (level section)); reflexivity. }
  assert (Hsorted' : StronglySorted (fun upper lower => lower < upper)
                       (stackLevels (outlineStep s section))).
  { unfold stackLevels. rewrite Hstk. simpl. rewrite Hnew.
    assert (Emap : map (levelOfRef (store (outlineStep s section)))
                     (popStack (store s) (stack s) (level section))
                   = map (levelOfRef (store s))
                       (popStack (store s) (stack s) (level section))).
    { apply map_ext_in. intros ref Hin. apply Hlevels.
      rewrite Forall_forall in Hkept. apply Hkept. exact Hin. }
    rewrite Emap. constructor; [exact Hksorted |].
    apply Forall_forall. intros l Hin. apply in_map_iff in Hin.
    destruct Hin as (ref & <- & Hin).
    rewrite Forall_forall in Hkbelow. apply Hkbelow. exact Hin. }
  revert Hsorted'. unfold outlineStep, stackLevels.
  set (node := List.length (store s)) in *.
  set (leaf := {| node_section := section; children := [] |}).
  assert (Hlen : List.length (store s ++ [leaf]) = S node)
    by (rewrite length_app; simpl; lia).
  destruct (popStack (store s) (stack s) (level section)) as [| top kept] eqn:P;
    intros Hsorted'.
  - unfold wellFormedOutline, stackLevels; simpl. rewrite Hlen.
    split; [| split; [| split]].
    + constructor; [lia | constructor].
    + apply Forall_app. split; [apply Forall_lt_S; exact Houtline |].
      constructor; [lia | constructor].
    + intros k nd E.
      apply nth_error_snoc in E. destruct E as [[Hlt E] | [-> ->]].
      * eapply Forall_impl; [| apply (Hkids k nd E)]. simpl. intros; lia.
      * constructor.
    + exact Hsorted'.
  - assert (Htop : top < node) by (inversion Hkept; assumption).
    unfold wellFormedOutline, stackLevels; simpl.
    rewrite pushChild_length, Hlen.
    split; [| split; [| split]].
    + constructor; [lia |]. apply Forall_lt_S. exact Hkept.
    + apply Forall_lt_S. exact Houtline.
    + intros k nd E.
      destruct (Nat.eq_dec k top) as [-> | Hne].
      * destruct (nth_error (store s) top) as [parent |] eqn:Ep;
          [| apply nth_error_None in Ep; unfold node in Htop; lia].
        rewrite (pushChild_same _ _ _ parent) in E
          by (rewrite nth_error_app1 by exact Htop; exact Ep).
        inversion E; subst. simpl. apply Forall_app. split.
        -- eapply Forall_impl; [| apply (Hkids top parent Ep)]. simpl. intros; lia.
        -- constructor; [lia | constructor].
      * rewrite pushChild_other in E by exact Hne.
        apply nth_error_snoc in E. destruct E as [[Hlt E] | [-> ->]].
        -- eapply Forall_impl; [| apply (Hkids k nd E)]. simpl. intros; lia.
        -- constructor.
    + exact Hsorted'.
Qed.

(** Every state the loop reaches is well formed; in particular a child is
    always allocated after its parent. *)
Lemma children_forward : forall sections : list Section,
  wellFormedOutline (outlineLoop sections).
Proof.
  intros sections. unfold outlineLoop.
  assert (H : wellFormedOutline initialOutlineState).
  { split; [| split; [| split]]; try constructor.
    intros k nd E. destruct k; discriminate. }
  revert H. generalize initialOutlineState.
  induction sections as [| section rest IH]; intros s H; simpl; [exact H |].
  apply IH. apply outlineStep_wellFormed. exact H.
Qed.

(** C6.  One iteration of the pass of [buildOutline], from any state the
    pass can be in: the entries popped all have a level at least the
    section's and the entries left all have a lower one; the new node
    becomes a child of the entry left on top, or a top-level entry when
    none is left; then it is pushed.  For headings at levels [1,2,2,1]: the
    content range of the first section ends at the start of the 4th
    heading, the two level-2 sections are the children of the first
    section, and the 4th section is the second top-level entry. *)
Theorem buildOutline_stack_pass :
  (forall (s : OutlineState) (section : Section),
     wellFormedOutline s ->
     let node := List.length (store s) in
     let s' := outlineStep s section in
     exists popped kept,
       stack s = popped ++ kept
       /\ Forall (fun ref => level section <= levelOfRef (store s) ref) popped
       /\ Forall (fun ref => levelOfRef (store s) ref < level section) kept
       /\ stack s' = node :: kept
       /\ nth_error (store s') node
          = Some {| node_section := section; children := [] |}
       /\ match kept with
          | [] =>
              outline s' = outline s ++ [node]
              /\ forall k, k < node -> nth_error (store s') k = nth_error (store s) k
          | top :: _ =>
              levelOfRef (store s) top < level section
              /\ outline s' = outline s
              /\ (exists parent,
                    nth_error (store s) top = Some parent
                    /\ nth_error (store s') top
                       = Some {| node_section := node_section parent;
                                 children := children parent ++ [node] |})
              /\ forall k, k < node -> k <> top ->
                           nth_error (store s') k = nth_error (store s) k
          end)
  /\ (forall doc : Document,
        map h_level (collectHeadings (content_of_body doc)) = [1; 2; 2; 1] ->
        exists s1 s2 s3 s4 h4,
          parseDocumentSections doc = [s1; s2; s3; s4]
          /\ nth_error (collectHeadings (content_of_body doc)) 3 = Some h4
          /\ contentEndIndex s1 = h_startIndex h4
          /\ buildOutline (parseDocumentSections doc)
             = [ OutlineOf s1 [OutlineOf s2 []; OutlineOf s3 []];
                 OutlineOf s4 [] ]).
Proof.
  split.
  - intros s section (Hstack & _ & _ & Hsorted) node s'.
    destruct (popStack_spec (store s) (stack s) (level section))
      as (popped & E & Hpopped & Htop).
    destruct (popStack_sorted (store s) (stack s) (level section) Hsorted)
      as [_ Hbelow].
    pose proof (popStack_suffix_valid (store s) (stack s) (level section) _ Hstack)
      as Hkept.
    exists popped, (popStack (store s) (stack s) (level section)).
    subst s'. unfold outlineStep. fold node.
    destruct (popStack (store s) (stack s) (level section)) as [| top kept] eqn:P;
      simpl; repeat split; auto.
    + rewrite nth_error_app2 by (unfold node; lia).
      replace (node - List.length (store s)) with 0 by (unfold node; lia).
      reflexivity.
    + intros k Hk. apply nth_error_app1. exact Hk.
    + assert (top < node) by (inversion Hkept; assumption).
      rewrite pushChild_other by lia.
      rewrite nth_error_app2 by (unfold node; lia).
      replace (node - List.length (store s)) with 0 by (unfold node; lia).
      reflexivity.
    + assert (Hlt : top < node) by (inversion Hkept; assumption).
      destruct (nth_error (store s) top) as [parent |] eqn:Ep;
        [| apply nth_error_None in Ep; unfold node in Hlt; lia].
      exists parent. split; [reflexivity |].
      apply pushChild_same. rewrite nth_error_app1 by exact Hlt. exact Ep.
    + intros k Hk Hne. rewrite pushChild_other by exact Hne.
      apply nth_error_app1. exact Hk.
  - intros doc Hlevels. unfold parseDocumentSections.
    destruct (collectHeadings (content_of_body doc))
      as [| [l1 t1 i1 a1 b1] [| [l2 t2 i2 a2 b2] [| [l3 t3 i3 a3 b3]
            [| [l4 t4 i4 a4 b4] [| h5 rest]]]]]; try discriminate.
    simpl in Hlevels. inversion Hlevels; subst. clear Hlevels.
    do 4 eexists. exists (Build_Heading 1 t4 i4 a4 b4).
    repeat split.
Qed.

Lemma buildOutline_stack_pass_witness :
  (exists popped kept,
     stack (outlineLoop (firstn 2 (parseDocumentSections doc1221)))
     = popped ++ kept
     /\ kept = [0])
  /\ exists s1 s2 s3 s4 h4,
       parseDocumentSections doc1221 = [s1; s2; s3; s4]
       /\ nth_error (collectHeadings (content_of_body doc1221)) 3 = Some h4
       /\ contentEndIndex s1 = h_startIndex h4
       /\ buildOutline (parseDocumentSections doc1221)
          = [ OutlineOf s1 [OutlineOf s2 []; OutlineOf s3 []];
              OutlineOf s4 [] ].
Proof.
  split.
  - destruct (proj1 buildOutline_stack_pass
                (outlineLoop (firstn 2 (parseDocumentSections doc1221)))
                {| level := 2; title := "C"; headingId := None;
                   headingStartIndex := 13; headingEndIndex := 15;
                   contentStartIndex := 15; contentEndIndex := 15;
                   sectionStartIndex := 13; sectionEndIndex := 15 |}
                (children_forward _))
      as (popped & kept & E & _ & _ & S & _).
    exists popped, kept. split; [exact E |].
    vm_compute in S. inversion S. reflexivity.
  - apply (proj2 buildOutline_stack_pass doc1221). reflexivity.
Defined.

(** ** Search *)

Lemma prefix_empty : forall s : string, String.prefix "" s = true.
Proof. intros [| c r]; reflexivity. Qed.

(** The empty string is found at once, at the start position. *)
Lemma indexOfFrom_empty : forall (s : string) (pos from : nat),
  pos <= from <= pos + String.length s ->
  indexOfFrom "" s pos from = Some from.
Proof.
  induction s as [| c r IH]; intros pos from H; simpl in *.
  - replace from with pos by lia. rewrite Nat.leb_refl. reflexivity.
  - destruct (from <=? pos) eqn:L.
    + apply Nat.leb_le in L. simpl. f_equal. lia.
    + apply Nat.leb_gt in L. simpl. apply IH. lia.
Qed.

Lemma indexOf_empty : forall (s : string) (from : nat),
  indexOf s "" from = Some (Nat.min from (String.length s)).
Proof.
  intros s from. unfold indexOf. apply indexOfFrom_empty. lia.
Qed.

(** With an empty query the loop over the hits never ends: every
    iteration finds a hit and leaves [index] where it was. *)
Lemma matchLoop_empty_query : forall (fuel start : nat) (text lowerText : string)
    (index : nat) (matches : list Match),
  matchLoop fuel start text lowerText "" "" index matches = None.
Proof.
  induction fuel as [| fuel IH]; intros start text lowerText index matches; simpl.
  - reflexivity.
  - rewrite indexOf_empty. apply IH.
Qed.

(** C7, at the empty query.  On the document whose only paragraph holds
    ["abc ABC abc"], no number of iterations lets the search for [""]
    return: it has no result.  This holds whatever the lower-casing does
    to the text of the paragraph. *)
Theorem search_empty_query_diverges {L : LowerCase} : forall fuel : nat,
  searchInDocument fuel docAbc "" None = None.
Proof.
  intros fuel. unfold searchInDocument, docAbc.
  rewrite toLowerCase_empty. simpl.
  rewrite matchLoop_empty_query. reflexivity.
Qed.

(** The search for ["abc"] in ["abc ABC abc"] reports the three
    occurrences, whatever their case. *)
Lemma search_abc_three_matches :
  @searchInDocument asciiLowerCase 4 docAbc "abc" None
  = Some [ {| m_startIndex := 1; m_endIndex := 4; m_text := "abc";
              m_context := "abc ABC abc"; m_paragraphIndex := 1 |};
           {| m_startIndex := 5; m_endIndex := 8; m_text := "ABC";
              m_context := "abc ABC abc"; m_paragraphIndex := 1 |};
           {| m_startIndex := 9; m_endIndex := 12; m_text := "abc";
              m_context := "abc ABC abc"; m_paragraphIndex := 1 |} ].
Proof. reflexivity. Qed.

Lemma asciiLower_length : forall s : string,
  String.length (asciiLower s) = String.length s.
Proof.
  induction s as [| c r IH]; simpl; [reflexivity | rewrite IH; reflexivity].
Qed.

Lemma prefix_length : forall q s : string,
  String.prefix q s = true -> String.length q <= String.length s.
Proof.
  induction q as [| c q' IH]; intros s H; simpl; [lia |].
  destruct s as [| d s']; simpl in H; [discriminate |].
  destruct (ascii_dec c d); [| discriminate].
  apply IH in H. simpl. lia.
Qed.

(** A hit lies at or after the start position and inside the text. *)
Lemma indexOfFrom_bounds : forall (q s : string) (pos from i : nat),
  indexOfFrom q s pos from = Some i ->
  from <= i /\ pos <= i /\ i + String.length q <= pos + String.length s.
Proof.
  intros q s. induction s as [| c r IH]; intros pos from i H.
  - change (indexOfFrom q "" pos from)
      with (if (from <=? pos) && String.prefix q "" then Some pos else None) in H.
    destruct ((from <=? pos) && String.prefix q "") eqn:E; [| discriminate].
    inversion H; subst. apply andb_prop in E. destruct E as [E1 E2].
    apply Nat.leb_le in E1. apply prefix_length in E2. simpl in *. lia.
  - change (indexOfFrom q (String c r) pos from)
      with (if (from <=? pos) && String.prefix q (String c r) then Some pos
            else indexOfFrom q r (S pos) from) in H.
    destruct ((from <=? pos) && String.prefix q (String c r)) eqn:E.
    + inversion H; subst. apply andb_prop in E. destruct E as [E1 E2].
      apply Nat.leb_le in E1. apply prefix_length in E2. simpl in *. lia.
    + apply IH in H. simpl. lia.
Qed.

(** For a query that is not empty the loop over the hits ends within as
    many iterations as characters are left, plus one. *)
Lemma matchLoop_total : forall (fuel start : nat) (text lowerText query searchQuery : string)
    (index : nat) (matches : list Match),
  searchQuery <> "" ->
  query <> "" ->
  String.length lowerText - index < fuel ->
  exists result,
    matchLoop fuel start text lowerText query searchQuery index matches
    = Some result.
Proof.
  induction fuel as [| fuel IH];
    intros start text lowerText query searchQuery index matches Hsq Hq Hfuel.
  - lia.
  - simpl. destruct (indexOf lowerText searchQuery index) as [i |] eqn:E.
    + unfold indexOf in E. apply indexOfFrom_bounds in E.
      assert (0 < String.length query)
        by (destruct query; [exfalso; apply Hq; reflexivity | simpl; lia]).
      assert (0 < String.length searchQuery)
        by (destruct searchQuery; [exfalso; apply Hsq; reflexivity | simpl; lia]).
      apply IH; auto. lia.
    + eexists. reflexivity.
Qed.

(** More iterations do not change a result. *)
Lemma matchLoop_more_fuel : forall (fuel fuel' start : nat)
    (text lowerText query searchQuery : string) (index : nat)
    (matches result : list Match),
  fuel <= fuel' ->
  matchLoop fuel start text lowerText query searchQuery index matches = Some result ->
  matchLoop fuel' start text lowerText query searchQuery index matches = Some result.
Proof.
  induction fuel as [| fuel IH];
    intros fuel' start text lowerText query searchQuery index matches result Hle H.
  - discriminate.
  - destruct fuel' as [| fuel'']; [lia |]. simpl in *.
    destruct (indexOf lowerText searchQuery index) as [i |]; [| exact H].
    apply (IH fuel''); [lia | exact H].
Qed.

(** X13.  For every query that is not empty the search returns: there is a
    number of iterations from which on the result is the same list. *)
Lemma searchInDocument_total {L : LowerCase} : forall (doc : Document) (query : string)
    (section : option Section),
  query <> "" ->
  exists fuel result,
    forall fuel', fuel <= fuel' ->
      searchInDocument fuel' doc query section = Some result.
Proof.
  intros doc query section Hq. unfold searchInDocument.
  generalize (@nil Match).
  generalize (match section with Some s => sectionStartIndex s | None => 0 end).
  generalize (match section with Some s => Some (sectionEndIndex s) | None => None end).
  induction (content_of_body doc) as [| element rest IH]; intros e s matches.
  - exists 0, matches. intros fuel' _. reflexivity.
  - simpl. destruct (paragraph element) as [para |]; [| apply IH].
    destruct (outsideRange (startIndex element) s e); [apply IH |].
    set (text := extractTextFromParagraph para).
    destruct (matchLoop_total (S (String.length (toLowerCase text)))
                (startIndex element) text (toLowerCase text) query
                (toLowerCase query) 0 matches
                (fun E => Hq (toLowerCase_nonempty query E)) Hq ltac:(lia))
      as (r1 & E1).
    destruct (IH e s r1) as (fuel2 & result & H2).
    exists (Nat.max (S (String.length (toLowerCase text))) fuel2), result.
    intros fuel' Hle.
    rewrite (matchLoop_more_fuel (S (String.length (toLowerCase text))) fuel'
               _ _ _ _ _ _ _ _ ltac:(lia) E1).
    apply H2. lia.
Qed.

(** * Further properties of the code *)

(** ** Sections of a parsed document *)

Lemma parseDocumentSections_In : forall doc section,
  In section (parseDocumentSections doc) ->
  exists i heading,
    nth_error (collectHeadings (content_of_body doc)) i = Some heading
    /\ nth_error (parseDocumentSections doc) i = Some section
    /\ section = sectionOfHeading heading
                   (sectionEndOf (content_of_body doc)
                      (collectHeadings (content_of_body doc)) i heading).
Proof.
  intros doc section Hin. apply In_nth_error in Hin. destruct Hin as (i & E).
  destruct (parseDocumentSections_nth doc i section E) as (heading & Eh & Es).
  exists i, heading. repeat split; assumption.
Qed.

Lemma collectHeadings_nil : forall elems : list StructuralElement,
  collectHeadings elems = []
  <-> forall element, In element elems -> headingOfElement element = None.
Proof.
  induction elems as [| element rest IH]; simpl.
  - split; [intros _ e [] | reflexivity].
  - destruct (headingOfElement element) as [h |] eqn:E.
    + split; [discriminate |]. intros H.
      specialize (H element (or_introl eq_refl)). congruence.
    + rewrite IH. split.
      * intros H e [<- | Hin]; [exact E | apply H; exact Hin].
      * intros H e Hin. apply H. right. exact Hin.
Qed.

Lemma headingOfElement_None : forall element : StructuralElement,
  headingOfElement element = None
  <-> forall para style named,
        paragraph element = Some para ->
        paragraphStyle para = Some style ->
        namedStyleType style = Some named ->
        JS.startsWith (styleName named) "HEADING_" = false.
Proof.
  intros element. unfold headingOfElement. split.
  - intros H para style named Ep Es En. rewrite Ep, Es, En in H.
    destruct (JS.startsWith (styleName named) "HEADING_"); [discriminate | reflexivity].
  - intros H. destruct (paragraph element) as [para |]; [| reflexivity].
    destruct (paragraphStyle para) as [style |] eqn:Es; [| reflexivity].
    destruct (namedStyleType style) as [named |] eqn:En; [| reflexivity].
    rewrite (H para style named eq_refl Es En). reflexivity.
Qed.

(** X2.  A document has no section exactly when none of its elements is a
    paragraph with a heading style: elements that are not paragraphs,
    paragraphs without a style or a named style, and the styles
    [NORMAL_TEXT], [TITLE] and [SUBTITLE] never open a section. *)
Theorem no_sections_iff_no_heading_style : forall doc : Document,
  parseDocumentSections doc = []
  <-> forall element para style named,
        In element (content_of_body doc) ->
        paragraph element = Some para ->
        paragraphStyle para = Some style ->
        namedStyleType style = Some named ->
        JS.startsWith (styleName named) "HEADING_" = false.
Proof.
  intros doc. split.
  - intros H element para style named Hin.
    assert (Hh : collectHeadings (content_of_body doc) = []).
    { pose proof (parseDocumentSections_length doc) as L. rewrite H in L.
      destruct (collectHeadings (content_of_body doc)); [reflexivity | discriminate]. }
    apply (proj1 (headingOfElement_None element)).
    apply (proj1 (collectHeadings_nil _) Hh). exact Hin.
  - intros H.
    assert (Hh : collectHeadings (content_of_body doc) = []).
    { apply collectHeadings_nil. intros element Hin.
      apply headingOfElement_None. intros para style named. apply H. exact Hin. }
    unfold parseDocumentSections. rewrite Hh. reflexivity.
Qed.

(** X3.  The last section of a document always runs to the end index of the
    last structural element, whatever its level. *)
Theorem last_section_ends_with_document : forall (doc : Document)
    (before : list Section) (section : Section),
  parseDocumentSections doc = before ++ [section] ->
  sectionEndIndex section = lastEndIndex (content_of_body doc)
  /\ contentEndIndex section = lastEndIndex (content_of_body doc).
Proof.
  intros doc before section E.
  assert (En : nth_error (parseDocumentSections doc) (List.length before)
               = Some section).
  { rewrite E. rewrite nth_error_app2 by lia. rewrite Nat.sub_diag. reflexivity. }
  destruct (parseDocumentSections_nth doc _ section En) as (heading & Eh & ->).
  assert (Hlen : List.length (collectHeadings (content_of_body doc))
                 = S (List.length before)).
  { rewrite <- parseDocumentSections_length, E, length_app. simpl. lia. }
  simpl. unfold sectionEndOf.
  destruct (nth_error (collectHeadings (content_of_body doc)) (List.length before + 1))
    eqn:N.
  - apply nth_error_Some_lt in N. lia.
  - split; reflexivity.
Qed.

Lemma last_section_ends_with_document_witness :
  sectionEndIndex {| level := 1; title := "D"; headingId := None;
                     headingStartIndex := 15; headingEndIndex := 17;
                     contentStartIndex := 17; contentEndIndex := 21;
                     sectionStartIndex := 15; sectionEndIndex := 21 |}
  = lastEndIndex (content_of_body doc1221)
  /\ contentEndIndex {| level := 1; title := "D"; headingId := None;
                        headingStartIndex := 15; headingEndIndex := 17;
                        contentStartIndex := 17; contentEndIndex := 21;
                        sectionStartIndex := 15; sectionEndIndex := 21 |}
     = lastEndIndex (content_of_body doc1221).
Proof.
  apply (last_section_ends_with_document doc1221
           (firstn 3 (parseDocumentSections doc1221))).
  reflexivity.
Defined.

Lemma contiguous_section_ranges : forall (doc : Document) (section : Section),
  contiguous (content_of_body doc) = true ->
  In section (parseDocumentSections doc) ->
  sectionStartIndex section = headingStartIndex section
  /\ headingStartIndex section < headingEndIndex section
  /\ headingEndIndex section = contentStartIndex section
  /\ contentStartIndex section <= contentEndIndex section
  /\ contentEndIndex section = sectionEndIndex section
  /\ sectionEndIndex section <= lastEndIndex (content_of_body doc).
Proof.
  intros doc section Hc Hin.
  destruct (parseDocumentSections_In doc section Hin) as (i & heading & Eh & _ & ->).
  assert (Hne : collectHeadings (content_of_body doc) <> [])
    by (intros N; rewrite N in Eh; destruct i; discriminate).
  destruct (contiguous_ordered _ Hc Hne) as (lo & _ & _ & Hord).
  pose proof (orderedFrom_nth _ _ _ _ _ Hord Eh) as (_ & Hh & _).
  pose proof (isBoundary_range _ _ _ _ _ _ Hord Eh
                (sectionEndOf_boundary _ _ _ _ Eh)) as R.
  simpl. repeat split; lia.
Qed.

(** X4.  In a contiguously laid out document every section has a heading that
    is not empty, a content range that starts where the heading ends and is
    never inverted, and an end that does not pass the end of the
    document. *)
Theorem section_ranges_well_ordered : forall (doc : Document) (section : Section),
  contiguous (content_of_body doc) = true ->
  In section (parseDocumentSections doc) ->
  sectionStartIndex section = headingStartIndex section
  /\ headingStartIndex section < headingEndIndex section
  /\ headingEndIndex section = contentStartIndex section
  /\ contentStartIndex section <= contentEndIndex section
  /\ contentEndIndex section = sectionEndIndex section
  /\ sectionEndIndex section <= lastEndIndex (content_of_body doc).
Proof. exact contiguous_section_ranges. Qed.

Lemma section_ranges_well_ordered_witness :
  let section :=
    {| level := 1; title := "A"; headingId := None;
       headingStartIndex := 1; headingEndIndex := 3;
       contentStartIndex := 3; contentEndIndex := 15;
       sectionStartIndex := 1; sectionEndIndex := 15 |} in
  sectionStartIndex section = headingStartIndex section
  /\ headingStartIndex section < headingEndIndex section
  /\ headingEndIndex section = contentStartIndex section
  /\ contentStartIndex section <= contentEndIndex section
  /\ contentEndIndex section = sectionEndIndex section
  /\ sectionEndIndex section <= lastEndIndex (content_of_body doc1221).
Proof.
  apply (section_ranges_well_ordered doc1221); [reflexivity | left; reflexivity].
Defined.

(** X5.  The two delete requests of a section of a contiguous document fit
    together: the section request is never inverted, and the content
    request, when there is one, starts at the end of the heading, after the
    start of the section request, is never inverted and ends where the
    section request ends. *)
Theorem delete_content_inside_delete_section : forall (doc : Document)
    (section : Section),
  contiguous (content_of_body doc) = true ->
  In section (parseDocumentSections doc) ->
  exists a b : Z,
    createDeleteSectionRequest section = deleteContentRange a b
    /\ (a <= b)%Z
    /\ forall a' b' : Z,
         createDeleteSectionContentRequest section
         = Some (deleteContentRange a' b') ->
         a' = Z.of_nat (headingEndIndex section)
         /\ (a < a')%Z /\ (a' <= b')%Z /\ b' = b.
Proof.
  intros doc section Hc Hin.
  destruct (contiguous_section_ranges doc section Hc Hin)
    as (E1 & H1 & E2 & H2 & E3 & _).
  eexists. eexists. split; [reflexivity |]. split; [lia |].
  intros a' b' E. unfold createDeleteSectionContentRequest in E.
  destruct (contentEndIndex section <=? contentStartIndex section) eqn:L;
    [discriminate |].
  apply Nat.leb_gt in L. inversion E; subst. repeat split; lia.
Qed.

Lemma delete_content_inside_delete_section_witness :
  exists a b : Z,
    createDeleteSectionRequest
      {| level := 1; title := "A"; headingId := None;
         headingStartIndex := 1; headingEndIndex := 3;
         contentStartIndex := 3; contentEndIndex := 15;
         sectionStartIndex := 1; sectionEndIndex := 15 |}
    = deleteContentRange a b
    /\ (a <= b)%Z
    /\ forall a' b' : Z,
         createDeleteSectionContentRequest
           {| level := 1; title := "A"; headingId := None;
              headingStartIndex := 1; headingEndIndex := 3;
              contentStartIndex := 3; contentEndIndex := 15;
              sectionStartIndex := 1; sectionEndIndex := 15 |}
         = Some (deleteContentRange a' b') ->
         a' = 3%Z /\ (a < a')%Z /\ (a' <= b')%Z /\ b' = b.
Proof.
  apply (delete_content_inside_delete_section doc1221);
    [reflexivity | left; reflexivity].
Defined.

(** *** The content of a section *)

Lemma contiguousFrom_In : forall (elems : list StructuralElement) pos e,
  contiguousFrom pos elems = true ->
  In e elems ->
  pos <= startIndex e /\ startIndex e < endIndex e
  /\ endIndex e <= last (map endIndex elems) pos.
Proof.
  induction elems as [| e0 rest IH]; intros pos e H Hin; [contradiction |].
  simpl in H. apply andb_prop in H. destruct H as [H Hrest].
  apply andb_prop in H. destruct H as [Hs Hne].
  apply Nat.eqb_eq in Hs. apply Nat.ltb_lt in Hne.
  change (map endIndex (e0 :: rest)) with (endIndex e0 :: map endIndex rest).
  rewrite last_cons_default.
  pose proof (orderedFrom_bounds _ _ _ (contiguousFrom_ordered rest _ Hrest)) as B.
  destruct Hin as [<- | Hin].
  - lia.
  - destruct (IH _ _ Hrest Hin) as (A1 & A2 & A3). lia.
Qed.

(** A position where an element starts, or the end of the last one. *)
Lemma contiguousFrom_start_cut : forall (elems : list StructuralElement) pos,
  contiguousFrom pos elems = true ->
  pos = last (map endIndex elems) pos
  \/ exists e, In e elems /\ startIndex e = pos.
Proof.
  intros [| e rest] pos H; [left; reflexivity |].
  right. exists e. split; [left; reflexivity |].
  simpl in H. apply andb_prop in H. destruct H as [H _].
  apply andb_prop in H. destruct H as [Hs _]. apply Nat.eqb_eq in Hs. exact Hs.
Qed.

Lemma contiguousFrom_end_cut : forall (elems : list StructuralElement) pos e,
  contiguousFrom pos elems = true ->
  In e elems ->
  endIndex e = last (map endIndex elems) pos
  \/ exists e', In e' elems /\ startIndex e' = endIndex e.
Proof.
  induction elems as [| e0 rest IH]; intros pos e H Hin; [contradiction |].
  simpl in H. apply andb_prop in H. destruct H as [_ Hrest].
  change (map endIndex (e0 :: rest)) with (endIndex e0 :: map endIndex rest).
  rewrite last_cons_default.
  destruct Hin as [<- | Hin].
  - destruct (contiguousFrom_start_cut rest _ Hrest) as [E | (e' & He' & E)].
    + left. exact E.
    + right. exists e'. split; [right |]; assumption.
  - destruct (IH _ _ Hrest Hin) as [E | (e' & He' & E)].
    + left. exact E.
    + right. exists e'. split; [right |]; assumption.
Qed.

Lemma filter_none : forall (A : Type) (f : A -> bool) (l : list A),
  (forall x, In x l -> f x = false) -> filter f l = [].
Proof.
  intros A f l. induction l as [| x r IH]; intros H; simpl; [reflexivity |].
  rewrite (H x (or_introl eq_refl)). apply IH.
  intros y Hy. apply H. right. exact Hy.
Qed.

(** Between two cuts of a contiguous run, the elements that start in
    between tile the interval. *)
Lemma filter_between_cuts : forall (elems : list StructuralElement) pos cs ce,
  contiguousFrom pos elems = true ->
  (cs = last (map endIndex elems) pos
   \/ exists e, In e elems /\ startIndex e = cs) ->
  (ce = last (map endIndex elems) pos
   \/ exists e, In e elems /\ startIndex e = ce) ->
  cs <= ce ->
  let found :=
    filter (fun element => (cs <=? startIndex element)
                           && (startIndex element <? ce)) elems in
  contiguousFrom cs found = true
  /\ last (map endIndex found) cs = ce.
Proof.
  induction elems as [| e rest IH]; intros pos cs ce H Hcs Hce Hle.
  - simpl in *.
    assert (cs = pos) by (destruct Hcs as [-> | (x & [] & _)]; reflexivity).
    assert (ce = pos) by (destruct Hce as [-> | (x & [] & _)]; reflexivity).
    subst. split; reflexivity.
  - pose proof H as Hall.
    simpl in H. apply andb_prop in H. destruct H as [H Hrest].
    apply andb_prop in H. destruct H as [Hs Hne].
    apply Nat.eqb_eq in Hs. apply Nat.ltb_lt in Hne.
    change (map endIndex (e :: rest)) with (endIndex e :: map endIndex rest) in *.
    rewrite last_cons_default in *.
    pose proof (orderedFrom_bounds _ _ _ (contiguousFrom_ordered rest _ Hrest)) as B.
    assert (Cut : forall c,
              (c = last (map endIndex rest) (endIndex e)
               \/ exists x, In x (e :: rest) /\ startIndex x = c) ->
              c = pos
              \/ (endIndex e <= c
                  /\ (c = last (map endIndex rest) (endIndex e)
                      \/ exists x, In x rest /\ startIndex x = c))).
    { intros c [-> | (x & [<- | Hx] & <-)].
      - right. split; [lia | left; reflexivity].
      - left. exact Hs.
      - right. destruct (contiguousFrom_In rest _ x Hrest Hx) as (A & _).
        split; [lia |]. right. exists x. split; [exact Hx | reflexivity]. }
    assert (Later : forall x, In x rest -> endIndex e <= startIndex x).
    { intros x Hx. apply (contiguousFrom_In rest _ x Hrest Hx). }
    cbn zeta. simpl filter.
    destruct (Cut cs Hcs) as [-> | (Hcs1 & Hcs2)].
    + destruct (Cut ce Hce) as [-> | (Hce1 & Hce2)].
      * replace ((pos <=? startIndex e) && (startIndex e <? pos)) with false
          by (symmetry; apply andb_false_iff; right; apply Nat.ltb_ge; lia).
        assert (F : filter (fun element => (pos <=? startIndex element)
                                           && (startIndex element <? pos)) rest = []).
        { apply filter_none. intros x Hx. apply andb_false_iff. right.
          apply Nat.ltb_ge. specialize (Later x Hx). lia. }
        rewrite F. split; reflexivity.
      * replace ((pos <=? startIndex e) && (startIndex e <? ce)) with true
          by (symmetry; apply andb_true_intro; split;
              [apply Nat.leb_le | apply Nat.ltb_lt]; lia).
        assert (F : filter (fun element => (pos <=? startIndex element)
                                           && (startIndex element <? ce)) rest
                    = filter (fun element => (endIndex e <=? startIndex element)
                                             && (startIndex element <? ce)) rest).
        { apply filter_ext_in. intros x Hx. specialize (Later x Hx).
          replace (pos <=? startIndex x) with true
            by (symmetry; apply Nat.leb_le; lia).
          replace (endIndex e <=? startIndex x) with true
            by (symmetry; apply Nat.leb_le; lia).
          reflexivity. }
        rewrite F.
        destruct (IH (endIndex e) (endIndex e) ce Hrest
                    (contiguousFrom_start_cut rest _ Hrest) Hce2 Hce1) as [I1 I2].
        split.
        -- simpl. rewrite I1, Hs, Nat.eqb_refl.
           replace (pos <? endIndex e) with true
             by (symmetry; apply Nat.ltb_lt; lia).
           reflexivity.
        -- simpl map. rewrite last_cons_default. exact I2.
    + replace ((cs <=? startIndex e) && (startIndex e <? ce)) with false
        by (symmetry; apply andb_false_iff; left; apply Nat.leb_gt; lia).
      destruct (Cut ce Hce) as [-> | (Hce1 & Hce2)]; [lia |].
      apply (IH (endIndex e) cs ce Hrest Hcs2 Hce2 Hle).
Qed.

(** X6.  In a contiguous document the elements extracted for a section tile
    its content range: the first starts at [contentStartIndex], each
    starts where the one before it ends, and the last ends at
    [contentEndIndex] (none is extracted when the range is empty). *)
Theorem section_content_tiles_content_range : forall (doc : Document)
    (section : Section),
  contiguous (content_of_body doc) = true ->
  In section (parseDocumentSections doc) ->
  contiguousFrom (contentStartIndex section)
    (extractSectionContent doc section) = true
  /\ last (map endIndex (extractSectionContent doc section))
       (contentStartIndex section)
     = contentEndIndex section.
Proof.
  intros doc section Hc Hin.
  destruct (contiguous_section_ranges doc section Hc Hin) as (_ & _ & _ & Hle & _).
  destruct (parseDocumentSections_In doc section Hin) as (i & heading & Eh & _ & ->).
  assert (Hne : collectHeadings (content_of_body doc) <> [])
    by (intros N; rewrite N in Eh; destruct i; discriminate).
  destruct (contiguous_ordered _ Hc Hne) as (lo & Hfrom & Elast & _).
  unfold extractSectionContent. simpl in *.
  apply (filter_between_cuts (content_of_body doc) lo); auto.
  - destruct (collectHeadings_In _ heading (nth_error_In _ _ Eh))
      as (element & He & Ee).
    apply headingOfElement_range in Ee. destruct Ee as [_ ->].
    apply (contiguousFrom_end_cut _ lo element Hfrom He).
  - destruct (sectionEndOf_boundary (content_of_body doc) _ i heading Eh)
      as [(j & next & _ & Ej & _ & _ & ->) | (_ & ->)].
    + right.
      destruct (collectHeadings_In _ next (nth_error_In _ _ Ej))
        as (element & He & Ee).
      apply headingOfElement_range in Ee. destruct Ee as [-> _].
      exists element. split; [exact He | reflexivity].
    + left. symmetry. exact Elast.
Qed.

Lemma section_content_tiles_content_range_witness :
  contiguousFrom 3
    (extractSectionContent doc1221
       {| level := 1; title := "A"; headingId := None;
          headingStartIndex := 1; headingEndIndex := 3;
          contentStartIndex := 3; contentEndIndex := 15;
          sectionStartIndex := 1; sectionEndIndex := 15 |}) = true
  /\ last (map endIndex
             (extractSectionContent doc1221
                {| level := 1; title := "A"; headingId := None;
                   headingStartIndex := 1; headingEndIndex := 3;
                   contentStartIndex := 3; contentEndIndex := 15;
                   sectionStartIndex := 1; sectionEndIndex := 15 |})) 3
     = 15.
Proof.
  apply (section_content_tiles_content_range doc1221
           {| level := 1; title := "A"; headingId := None;
              headingStartIndex := 1; headingEndIndex := 3;
              contentStartIndex := 3; contentEndIndex := 15;
              sectionStartIndex := 1; sectionEndIndex := 15 |});
    [reflexivity | left; reflexivity].
Defined.

(** ** Search: what is reported *)

Lemma indexOfFrom_unfold : forall (q s : string) (pos from : nat),
  indexOfFrom q s pos from
  = if (from <=? pos) && String.prefix q s then Some pos
    else match s with
         | EmptyString => None
         | String _ r => indexOfFrom q r (S pos) from
         end.
Proof. intros q [| c r] pos from; reflexivity. Qed.

Lemma prefix_occurs : forall q s : string,
  String.prefix q s = true <-> occursAt q s 0.
Proof.
  intros q s. unfold occursAt. split.
  - intros H. split; [apply prefix_length; exact H |].
    apply prefix_correct. exact H.
  - intros [_ H]. apply prefix_correct. exact H.
Qed.

Lemma occursAt_tail : forall (q : string) (c : ascii) (r : string) (k : nat),
  occursAt q (String c r) (S k) <-> occursAt q r k.
Proof.
  intros q c r k. unfold occursAt. simpl. split; intros [A B]; split;
    try lia; exact B.
Qed.

(** A hit of the scan is an occurrence at or after the start position,
    and the first such one. *)
Lemma indexOfFrom_Some : forall (q s : string) (pos from i : nat),
  indexOfFrom q s pos from = Some i ->
  exists k, i = pos + k /\ from <= i /\ occursAt q s k
            /\ forall j, j < k -> from <= pos + j -> ~ occursAt q s j.
Proof.
  intros q s. induction s as [| c r IH]; intros pos from i H;
    rewrite indexOfFrom_unfold in H.
  - destruct ((from <=? pos) && String.prefix q "") eqn:E; [| discriminate].
    inversion H; subst. apply andb_prop in E. destruct E as [E1 E2].
    apply Nat.leb_le in E1. exists 0.
    split; [lia |]. split; [lia |]. split.
    + apply prefix_occurs. exact E2.
    + intros j Hj. lia.
  - destruct ((from <=? pos) && String.prefix q (String c r)) eqn:E.
    + inversion H; subst. apply andb_prop in E. destruct E as [E1 E2].
      apply Nat.leb_le in E1. exists 0.
      split; [lia |]. split; [lia |]. split.
      * apply prefix_occurs. exact E2.
      * intros j Hj. lia.
    + destruct (IH _ _ _ H) as (k & -> & Hfrom & Hocc & Hfirst).
      exists (S k).
      split; [lia |]. split; [lia |]. split.
      * apply (proj2 (occursAt_tail q c r k) Hocc).
      * intros j Hj Hfj Hoj. destruct j as [| j'].
        -- apply andb_false_iff in E. destruct E as [E | E].
           ++ apply Nat.leb_gt in E. lia.
           ++ apply prefix_occurs in Hoj. congruence.
        -- apply (Hfirst j'); [lia | lia |].
           apply (proj1 (occursAt_tail q c r j') Hoj).
Qed.

(** When the scan finds nothing there is no occurrence at or after the
    start position. *)
Lemma indexOfFrom_None : forall (q s : string) (pos from : nat),
  indexOfFrom q s pos from = None ->
  forall j, from <= pos + j -> ~ occursAt q s j.
Proof.
  intros q s. induction s as [| c r IH]; intros pos from H j Hj Hocc;
    rewrite indexOfFrom_unfold in H.
  - destruct ((from <=? pos) && String.prefix q "") eqn:E; [discriminate |].
    destruct Hocc as [Hlen Hsub]. simpl in Hlen.
    assert (j = 0) by lia. subst j.
    apply andb_false_iff in E. destruct E as [E | E].
    + apply Nat.leb_gt in E. lia.
    + assert (String.prefix q "" = true)
        by (apply prefix_occurs; split; assumption).
      congruence.
  - destruct ((from <=? pos) && String.prefix q (String c r)) eqn:E;
      [discriminate |].
    destruct j as [| j'].
    + apply andb_false_iff in E. destruct E as [E | E].
      * apply Nat.leb_gt in E. lia.
      * apply prefix_occurs in Hocc. congruence.
    + apply (IH _ _ H j'); [lia |].
      apply (proj1 (occursAt_tail q c r j') Hocc).
Qed.

Lemma indexOf_Some : forall (s q : string) (from i : nat),
  indexOf s q from = Some i ->
  Nat.min from (String.length s) <= i /\ occursAt q s i
  /\ forall j, Nat.min from (String.length s) <= j -> j < i -> ~ occursAt q s j.
Proof.
  intros s q from i H. unfold indexOf in H.
  destruct (indexOfFrom_Some _ _ _ _ _ H) as (k & -> & Hfrom & Hocc & Hfirst).
  simpl in *. split; [exact Hfrom |]. split; [exact Hocc |].
  intros j Hj Hjk. apply Hfirst; [exact Hjk | simpl; lia].
Qed.

Lemma indexOf_None : forall (s q : string) (from : nat),
  indexOf s q from = None ->
  forall j, Nat.min from (String.length s) <= j -> ~ occursAt q s j.
Proof.
  intros s q from H j Hj. unfold indexOf in H.
  apply (indexOfFrom_None _ _ _ _ H j). simpl. exact Hj.
Qed.

(** The loop over the hits only appends to [matches], and what it appends
    does not depend on what was there. *)
Lemma matchLoop_hits : forall (fuel start : nat) (text lowerText query searchQuery : string)
    (index : nat) (matches result : list Match),
  matchLoop fuel start text lowerText query searchQuery index matches = Some result ->
  exists hits,
    greedyHits searchQuery lowerText (String.length query) index hits
    /\ forall matches',
         matchLoop fuel start text lowerText query searchQuery index matches'
         = Some (matches' ++ map (matchAt start text query) hits).
Proof.
  induction fuel as [| fuel IH];
    intros start text lowerText query searchQuery index matches result H.
  - discriminate.
  - simpl in H. destruct (indexOf lowerText searchQuery index) as [i |] eqn:E.
    + destruct (IH _ _ _ _ _ _ _ _ H) as (hits & G & Hall).
      destruct (indexOf_Some _ _ _ _ E) as (A & B & C).
      exists (i :: hits). split.
      * cbn [greedyHits]. split; [exact A |]. split; [exact B |].
        split; [exact C | exact G].
      * intros matches'. simpl. rewrite E. rewrite Hall.
        rewrite <- app_assoc. reflexivity.
    + exists []. split.
      * cbn [greedyHits]. apply (indexOf_None _ _ _ E).
      * intros matches'. simpl. rewrite E, app_nil_r. reflexivity.
Qed.

Lemma scanned_spec : forall element section,
  scanned element section = true
  <-> exists para,
        paragraph element = Some para
        /\ outsideRange (startIndex element)
             (match section with Some s => sectionStartIndex s | None => 0 end)
             (match section with
              | Some s => Some (sectionEndIndex s)
              | None => None
              end) = false.
Proof.
  intros element section. unfold scanned.
  destruct (paragraph element) as [para |].
  - rewrite negb_true_iff. split.
    + intros H. exists para. split; [reflexivity | exact H].
    + intros (p & _ & H). exact H.
  - split; [discriminate | intros (p & H & _); discriminate].
Qed.

(** The whole search: the result lists, for the scanned paragraphs in
    document order, the matches of their greedy hits. *)
Lemma searchInDocument_parts {L : LowerCase} : forall (fuel : nat) (doc : Document)
    (query : string) (section : option Section) (result : list Match),
  searchInDocument fuel doc query section = Some result ->
  exists parts : list (StructuralElement * list nat),
    map fst parts
    = filter (fun element => scanned element section) (content_of_body doc)
    /\ Forall (fun part =>
                 greedyHits (toLowerCase query) (toLowerCase (textOf (fst part)))
                   (String.length query) 0 (snd part)) parts
    /\ result = flat_map (matchesOf query) parts.
Proof.
  intros fuel doc query section result. unfold searchInDocument.
  assert (G : forall elems matches result,
            searchLoop fuel elems query (toLowerCase query)
              (match section with Some s => sectionStartIndex s | None => 0 end)
              (match section with
               | Some s => Some (sectionEndIndex s)
               | None => None
               end) matches = Some result ->
            exists parts : list (StructuralElement * list nat),
              map fst parts
              = filter (fun element => scanned element section) elems
              /\ Forall (fun part =>
                           greedyHits (toLowerCase query)
                             (toLowerCase (textOf (fst part)))
                             (String.length query) 0 (snd part)) parts
              /\ result = matches ++ flat_map (matchesOf query) parts).
  { induction elems as [| element rest IH]; intros matches res H.
    - simpl in H. inversion H; subst. exists []. simpl.
      rewrite app_nil_r. repeat split; constructor.
    - simpl in H. simpl filter. unfold scanned at 1.
      destruct (paragraph element) as [para |] eqn:Ep; [| apply IH; exact H].
      destruct (outsideRange (startIndex element) _ _) eqn:O; simpl negb.
      + apply IH. exact H.
      + destruct (matchLoop fuel (startIndex element)
                    (extractTextFromParagraph para)
                    (toLowerCase (extractTextFromParagraph para))
                    query (toLowerCase query) 0 matches) as [m1 |] eqn:M;
          [| discriminate].
        destruct (matchLoop_hits _ _ _ _ _ _ _ _ _ M) as (hits & Gh & Hall).
        rewrite Hall in M. inversion M; subst m1. clear M.
        destruct (IH _ _ H) as (parts & P1 & P2 & P3).
        exists ((element, hits) :: parts). split; [| split].
        * simpl. rewrite P1. reflexivity.
        * constructor; [| exact P2]. simpl. unfold textOf. rewrite Ep. exact Gh.
        * rewrite P3.
          change (flat_map (matchesOf query) ((element, hits) :: parts))
            with (matchesOf query (element, hits)
                  ++ flat_map (matchesOf query) parts).
          assert (Em : matchesOf query (element, hits)
                       = map (matchAt (startIndex element)
                                (extractTextFromParagraph para) query) hits)
            by (unfold matchesOf, textOf; simpl; rewrite Ep; reflexivity).
          rewrite Em, <- app_assoc. reflexivity. }
  intros H. destruct (G _ _ _ H) as (parts & P1 & P2 & P3).
  exists parts. repeat split; assumption.
Qed.

Lemma asciiLower_substring : forall (s : string) (i n : nat),
  asciiLower (substring i n s) = substring i n (asciiLower s).
Proof.
  induction s as [| c r IH]; intros i n.
  - destruct i, n; reflexivity.
  - destruct i as [| i'].
    + destruct n as [| n']; simpl; [reflexivity |].
      rewrite (IH 0 n'). reflexivity.
    + simpl. apply IH.
Qed.

Lemma substring_length : forall (s : string) (i n : nat),
  i + n <= String.length s -> String.length (substring i n s) = n.
Proof.
  induction s as [| c r IH]; intros i n H; simpl in H.
  - assert (i = 0) by lia. assert (n = 0) by lia. subst. reflexivity.
  - destruct i as [| i'].
    + destruct n as [| n']; simpl; [reflexivity |].
      rewrite (IH 0 n') by (simpl; lia). reflexivity.
    + simpl. apply IH. lia.
Qed.

Lemma greedyHits_first : forall (q s : string) (n : nat) (hits : list nat)
    (from i : nat),
  greedyHits q s n from hits ->
  In i hits ->
  (exists h, In h hits /\ Nat.min from (String.length s) <= h /\ h <= i)
  /\ occursAt q s i.
Proof.
  intros q s n hits. induction hits as [| h rest IH]; intros from i G Hin;
    [contradiction |].
  cbn [greedyHits] in G. destruct G as (A & B & _ & G).
  destruct Hin as [<- | Hin].
  - split; [| exact B]. exists h. split; [left; reflexivity | lia].
  - destruct (IH _ _ G Hin) as [(h' & Hh' & A' & A'') B']. split; [| exact B'].
    exists h. split; [left; reflexivity |]. split; [exact A |].
    destruct B as [B _]. destruct (proj2 (IH _ _ G Hh')) as [B'' _]. lia.
Qed.

Lemma greedyHits_In : forall (q s : string) (n : nat) (hits : list nat)
    (from i : nat),
  greedyHits q s n from hits ->
  In i hits ->
  Nat.min from (String.length s) <= i /\ occursAt q s i.
Proof.
  intros q s n hits from i G Hin.
  destruct (greedyHits_first _ _ _ _ _ _ G Hin) as [(h & _ & A & B) C].
  split; [lia | exact C].
Qed.

(** Hits are apart by the step, provided the step is 0 when the string
    searched for is empty. *)
Lemma greedyHits_apart : forall (q s : string) (n : nat) (hits : list nat)
    (from : nat),
  (q = "" -> n = 0) ->
  greedyHits q s n from hits ->
  StronglySorted (fun a b => a + n <= b) hits.
Proof.
  intros q s n hits. induction hits as [| h rest IH]; intros from Hq G;
    [constructor |].
  cbn [greedyHits] in G. destruct G as (_ & B & _ & G).
  constructor; [apply (IH _ Hq G) |].
  apply Forall_forall. intros i Hin.
  destruct (greedyHits_In _ _ _ _ _ _ G Hin) as [A' [B' _]].
  destruct B as [B _].
  destruct q as [| c q'].
  - rewrite (Hq eq_refl) in *. cbn [String.length] in *. lia.
  - cbn [String.length] in *. lia.
Qed.

(** X7.  If the search returns, it returns exactly this: for each scanned
    paragraph, in document order, the matches of its hits, the hits being
    the occurrences of the lower-cased query in the lower-cased text taken
    greedily from the left, each search resuming at the end of the hit
    before. *)
Theorem search_reports_greedy_hits {L : LowerCase} : forall (fuel : nat) (doc : Document)
    (query : string) (section : option Section) (result : list Match),
  searchInDocument fuel doc query section = Some result ->
  exists parts : list (StructuralElement * list nat),
    map fst parts
    = filter (fun element => scanned element section) (content_of_body doc)
    /\ Forall (fun part =>
                 greedyHits (toLowerCase query) (toLowerCase (textOf (fst part)))
                   (String.length query) 0 (snd part)) parts
    /\ result = flat_map (matchesOf query) parts.
Proof. exact searchInDocument_parts. Qed.

Lemma search_reports_greedy_hits_witness :
  exists parts : list (StructuralElement * list nat),
    map fst parts
    = filter (fun element => scanned element None) (content_of_body docAbc)
    /\ Forall (fun part =>
                 greedyHits (asciiLower "abc") (asciiLower (textOf (fst part)))
                   (String.length "abc") 0 (snd part)) parts
    /\ [ {| m_startIndex := 1; m_endIndex := 4; m_text := "abc";
            m_context := "abc ABC abc"; m_paragraphIndex := 1 |};
         {| m_startIndex := 5; m_endIndex := 8; m_text := "ABC";
            m_context := "abc ABC abc"; m_paragraphIndex := 1 |};
         {| m_startIndex := 9; m_endIndex := 12; m_text := "abc";
            m_context := "abc ABC abc"; m_paragraphIndex := 1 |} ]
       = flat_map (matchesOf "abc") parts.
Proof.
  apply (search_reports_greedy_hits (L := asciiLowerCase) 4 docAbc "abc" None).
  reflexivity.
Defined.

(** X8.  Every reported match comes from a scanned paragraph and an offset
    at which the lower-cased text reads the lower-cased query; its
    paragraph index is the paragraph's start, its range starts at the
    paragraph start plus that offset and has the length of the query.
    When lower-casing works unit by unit on the paragraph's text and keeps
    the length of the query, as it does on ASCII text, the offset is also
    an offset of the text itself: the range ends inside the paragraph, the
    reported text has the length of the query and differs from it by case
    only. *)
Theorem search_match_is_occurrence {L : LowerCase} : forall (fuel : nat) (doc : Document)
    (query : string) (section : option Section) (result : list Match) (m : Match),
  searchInDocument fuel doc query section = Some result ->
  In m result ->
  exists element i,
    In element (content_of_body doc)
    /\ scanned element section = true
    /\ occursAt (toLowerCase query) (toLowerCase (textOf element)) i
    /\ m = matchAt (startIndex element) (textOf element) query i
    /\ m_paragraphIndex m = startIndex element
    /\ m_startIndex m = startIndex element + i
    /\ m_endIndex m = m_startIndex m + String.length query
    /\ (unitwise (textOf element) ->
        String.length (toLowerCase query) = String.length query ->
        m_endIndex m <= startIndex element + String.length (textOf element)
        /\ String.length (m_text m) = String.length query
        /\ toLowerCase (m_text m) = toLowerCase query).
Proof.
  intros fuel doc query section result m H Hin.
  destruct (searchInDocument_parts _ _ _ _ _ H) as (parts & P1 & P2 & ->).
  apply in_flat_map in Hin. destruct Hin as (part & Hpart & Hm).
  unfold matchesOf in Hm. apply in_map_iff in Hm. destruct Hm as (i & <- & Hi).
  assert (Hel : In (fst part)
                  (filter (fun element => scanned element section)
                     (content_of_body doc)))
    by (rewrite <- P1; apply in_map; exact Hpart).
  apply filter_In in Hel. destruct Hel as [Hel Hsc].
  rewrite Forall_forall in P2. specialize (P2 part Hpart).
  destruct (greedyHits_In _ _ _ _ _ _ P2 Hi) as [_ Hocc].
  exists (fst part), i.
  split; [exact Hel |]. split; [exact Hsc |]. split; [exact Hocc |].
  split; [reflexivity |]. simpl.
  split; [reflexivity |]. split; [reflexivity |]. split; [reflexivity |].
  intros [Ulen Usub] Lq.
  destruct Hocc as [Hlen Hsub]. rewrite Lq, Ulen in Hlen.
  split; [lia |].
  unfold substringJS.
  replace (i + String.length query - i) with (String.length query) by lia.
  split.
  - apply substring_length. exact Hlen.
  - rewrite Usub. rewrite <- Lq. exact Hsub.
Qed.

Lemma asciiLower_unitwise : forall s : string, unitwise (L := asciiLowerCase) s.
Proof.
  intros s. split.
  - apply asciiLower_length.
  - intros a n. apply asciiLower_substring.
Qed.

Lemma search_match_is_occurrence_witness :
  exists element i,
    In element (content_of_body docAbc)
    /\ scanned element None = true
    /\ occursAt (asciiLower "abc") (asciiLower (textOf element)) i
    /\ {| m_startIndex := 5; m_endIndex := 8; m_text := "ABC";
          m_context := "abc ABC abc"; m_paragraphIndex := 1 |}
       = matchAt (startIndex element) (textOf element) "abc" i
    /\ 1 = startIndex element
    /\ 5 = startIndex element + i
    /\ 8 = 5 + String.length "abc"
    /\ 8 <= startIndex element + String.length (textOf element)
    /\ String.length "ABC" = String.length "abc"
    /\ asciiLower "ABC" = asciiLower "abc".
Proof.
  destruct (search_match_is_occurrence (L := asciiLowerCase) 4 docAbc "abc" None
              [ {| m_startIndex := 1; m_endIndex := 4; m_text := "abc";
                   m_context := "abc ABC abc"; m_paragraphIndex := 1 |};
                {| m_startIndex := 5; m_endIndex := 8; m_text := "ABC";
                   m_context := "abc ABC abc"; m_paragraphIndex := 1 |};
                {| m_startIndex := 9; m_endIndex := 12; m_text := "abc";
                   m_context := "abc ABC abc"; m_paragraphIndex := 1 |} ]
              {| m_startIndex := 5; m_endIndex := 8; m_text := "ABC";
                 m_context := "abc ABC abc"; m_paragraphIndex := 1 |}
              eq_refl (or_intror (or_introl eq_refl)))
    as (element & i & A1 & A2 & A3 & A4 & A5 & A6 & A7 & A8).
  destruct (A8 (asciiLower_unitwise (textOf element)) eq_refl) as (B1 & B2 & B3).
  exists element, i.
  exact (conj A1 (conj A2 (conj A3 (conj A4 (conj A5 (conj A6 (conj A7
           (conj B1 (conj B2 B3))))))))).
Defined.

Lemma flat_map_nil : forall (A B : Type) (f : A -> list B) (l : list A),
  flat_map f l = [] <-> forall x, In x l -> f x = [].
Proof.
  intros A B f l. induction l as [| a r IH]; simpl.
  - split; [intros _ x [] | reflexivity].
  - split.
    + intros H. apply app_eq_nil in H. destruct H as [Ha Hr].
      intros x [<- | Hx]; [exact Ha | apply (proj1 IH Hr x Hx)].
    + intros H. rewrite (H a (or_introl eq_refl)). simpl.
      apply IH. intros x Hx. apply H. right. exact Hx.
Qed.

(** X9.  If the search returns, it returns no match exactly when the
    lower-cased query occurs in the lower-cased text of no scanned
    paragraph: no occurrence is missed. *)
Theorem search_empty_iff_no_occurrence {L : LowerCase} : forall (fuel : nat) (doc : Document)
    (query : string) (section : option Section) (result : list Match),
  searchInDocument fuel doc query section = Some result ->
  (result = []
   <-> forall element i,
         In element (content_of_body doc) ->
         scanned element section = true ->
         ~ occursAt (toLowerCase query) (toLowerCase (textOf element)) i).
Proof.
  intros fuel doc query section result H.
  destruct (searchInDocument_parts _ _ _ _ _ H) as (parts & P1 & P2 & ->).
  rewrite Forall_forall in P2. split.
  - intros E element i Hel Hsc.
    assert (Hf : In element (map fst parts))
      by (rewrite P1; apply filter_In; split; assumption).
    apply in_map_iff in Hf. destruct Hf as (part & <- & Hpart).
    pose proof (proj1 (flat_map_nil _ _ _ _) E part Hpart) as Em.
    unfold matchesOf in Em. apply map_eq_nil in Em.
    specialize (P2 part Hpart). rewrite Em in P2. cbn [greedyHits] in P2.
    apply P2. lia.
  - intros Hno. apply flat_map_nil. intros part Hpart.
    unfold matchesOf. specialize (P2 part Hpart).
    destruct (snd part) as [| i rest]; [reflexivity |].
    cbn [greedyHits] in P2. destruct P2 as (_ & Hocc & _).
    exfalso. apply (Hno (fst part) i); [| | exact Hocc].
    + assert (Hf : In (fst part) (map fst parts)) by (apply in_map; exact Hpart).
      rewrite P1 in Hf. apply filter_In in Hf. apply Hf.
    + assert (Hf : In (fst part) (map fst parts)) by (apply in_map; exact Hpart).
      rewrite P1 in Hf. apply filter_In in Hf. apply Hf.
Qed.

Lemma search_empty_iff_no_occurrence_witness :
  @nil Match = []
  <-> forall element i,
        In element (content_of_body docAbc) ->
        scanned element None = true ->
        ~ occursAt (asciiLower "xyz") (asciiLower (textOf element)) i.
Proof.
  apply (search_empty_iff_no_occurrence (L := asciiLowerCase) 2 docAbc "xyz"
           None []).
  reflexivity.
Defined.

(** X10.  Within one paragraph the matches come from left to right and do not
    overlap: each starts at or after the end of every match reported
    before it for that paragraph. *)
Theorem search_matches_do_not_overlap {L : LowerCase} : forall (fuel : nat) (doc : Document)
    (query : string) (section : option Section) (result : list Match),
  searchInDocument fuel doc query section = Some result ->
  exists parts : list (StructuralElement * list nat),
    map fst parts
    = filter (fun element => scanned element section) (content_of_body doc)
    /\ result = flat_map (matchesOf query) parts
    /\ Forall (fun part =>
                 StronglySorted (fun a b => m_endIndex a <= m_startIndex b)
                   (matchesOf query part)) parts.
Proof.
  intros fuel doc query section result H.
  destruct (searchInDocument_parts _ _ _ _ _ H) as (parts & P1 & P2 & P3).
  exists parts. split; [exact P1 |]. split; [exact P3 |].
  eapply Forall_impl; [| exact P2]. intros part G.
  apply greedyHits_apart in G;
    [| intros E; rewrite (toLowerCase_nonempty query E); reflexivity].
  unfold matchesOf. induction G as [| i rest _ IH Hi]; simpl; constructor.
  - exact IH.
  - apply Forall_forall. intros m Hm. apply in_map_iff in Hm.
    destruct Hm as (j & <- & Hj). rewrite Forall_forall in Hi.
    specialize (Hi j Hj). simpl. lia.
Qed.

Lemma search_matches_do_not_overlap_witness :
  exists parts : list (StructuralElement * list nat),
    map fst parts
    = filter (fun element => scanned element None) (content_of_body docAbc)
    /\ [ {| m_startIndex := 1; m_endIndex := 4; m_text := "abc";
            m_context := "abc ABC abc"; m_paragraphIndex := 1 |};
         {| m_startIndex := 5; m_endIndex := 8; m_text := "ABC";
            m_context := "abc ABC abc"; m_paragraphIndex := 1 |};
         {| m_startIndex := 9; m_endIndex := 12; m_text := "abc";
            m_context := "abc ABC abc"; m_paragraphIndex := 1 |} ]
       = flat_map (matchesOf "abc") parts
    /\ Forall (fun part =>
                 StronglySorted (fun a b => m_endIndex a <= m_startIndex b)
                   (matchesOf "abc" part)) parts.
Proof.
  apply (search_matches_do_not_overlap (L := asciiLowerCase) 4 docAbc "abc" None).
  reflexivity.
Defined.

Lemma matchLoop_map_filter : forall (start : nat) (text query : string)
    (hits : list nat) (section : Section),
  filter (inSectionRange section) (map (matchAt start text query) hits)
  = if (sectionStartIndex section <=? start) && (start <? sectionEndIndex section)
    then map (matchAt start text query) hits
    else [].
Proof.
  intros start text query hits section.
  induction hits as [| i rest IH]; simpl.
  - destruct (_ && _); reflexivity.
  - unfold inSectionRange at 1. simpl. rewrite IH.
    destruct ((sectionStartIndex section <=? start)
              && (start <? sectionEndIndex section)); reflexivity.
Qed.

Lemma outsideRange_section : forall (start : nat) (section : Section),
  outsideRange start (sectionStartIndex section) (Some (sectionEndIndex section))
  = negb ((sectionStartIndex section <=? start)
          && (start <? sectionEndIndex section)).
Proof.
  intros start section. unfold outsideRange.
  destruct (Nat.ltb_spec start (sectionStartIndex section));
    destruct (Nat.leb_spec (sectionEndIndex section) start);
    destruct (Nat.leb_spec (sectionStartIndex section) start);
    destruct (Nat.ltb_spec start (sectionEndIndex section));
    simpl; try reflexivity; lia.
Qed.

(** X11.  Bounding the search by a section reports the matches of the
    whole-document search whose paragraph starts inside the section range,
    in the same order. *)
Theorem search_in_section_filters_whole_search {L : LowerCase} : forall (fuel : nat)
    (doc : Document) (query : string) (section : Section) (result : list Match),
  searchInDocument fuel doc query None = Some result ->
  searchInDocument fuel doc query (Some section)
  = Some (filter (inSectionRange section) result).
Proof.
  intros fuel doc query section result. unfold searchInDocument.
  change (@nil Match) with (filter (inSectionRange section) (@nil Match)) at 2.
  generalize (@nil Match). revert result.
  induction (content_of_body doc) as [| element rest IH]; intros result matches H.
  - cbn [searchLoop] in *. inversion H. reflexivity.
  - cbn [searchLoop] in *.
    destruct (paragraph element) as [para |]; [| apply IH; exact H].
    assert (O : outsideRange (startIndex element) 0 None = false)
      by (unfold outsideRange; rewrite orb_false_r; apply Nat.ltb_ge; lia).
    rewrite O in H.
    destruct (matchLoop fuel (startIndex element) (extractTextFromParagraph para)
                (toLowerCase (extractTextFromParagraph para)) query
                (toLowerCase query) 0 matches) as [m1 |] eqn:M; [| discriminate].
    destruct (matchLoop_hits _ _ _ _ _ _ _ _ _ M) as (hits & _ & Hall).
    rewrite Hall in M. inversion M; subst m1. clear M.
    specialize (IH _ _ H). rewrite filter_app, matchLoop_map_filter in IH.
    rewrite outsideRange_section.
    destruct ((sectionStartIndex section <=? startIndex element)
              && (startIndex element <? sectionEndIndex section)); simpl negb.
    + rewrite Hall. exact IH.
    + rewrite app_nil_r in IH. exact IH.
Qed.

Lemma search_in_section_filters_whole_search_witness :
  @searchInDocument asciiLowerCase 4 docAbc "abc"
    (Some {| level := 1; title := "none"; headingId := None;
             headingStartIndex := 13; headingEndIndex := 14;
             contentStartIndex := 14; contentEndIndex := 20;
             sectionStartIndex := 13; sectionEndIndex := 20 |})
  = Some (filter
            (inSectionRange
               {| level := 1; title := "none"; headingId := None;
                  headingStartIndex := 13; headingEndIndex := 14;
                  contentStartIndex := 14; contentEndIndex := 20;
                  sectionStartIndex := 13; sectionEndIndex := 20 |})
            [ {| m_startIndex := 1; m_endIndex := 4; m_text := "abc";
                 m_context := "abc ABC abc"; m_paragraphIndex := 1 |};
              {| m_startIndex := 5; m_endIndex := 8; m_text := "ABC";
                 m_context := "abc ABC abc"; m_paragraphIndex := 1 |};
              {| m_startIndex := 9; m_endIndex := 12; m_text := "abc";
                 m_context := "abc ABC abc"; m_paragraphIndex := 1 |} ]).
Proof.
  apply (search_in_section_filters_whole_search (L := asciiLowerCase) 4 docAbc
           "abc").
  reflexivity.
Defined.

Lemma matchLoop_query_length : forall (fuel start : nat)
    (text lowerText q1 q2 searchQuery : string) (index : nat) (matches : list Match),
  String.length q1 = String.length q2 ->
  matchLoop fuel start text lowerText q1 searchQuery index matches
  = matchLoop fuel start text lowerText q2 searchQuery index matches.
Proof.
  induction fuel as [| fuel IH];
    intros start text lowerText q1 q2 searchQuery index matches Hlen;
    [reflexivity |].
  simpl. destruct (indexOf lowerText searchQuery index) as [i |]; [| reflexivity].
  rewrite Hlen. apply IH. exact Hlen.
Qed.

(** X12.  The search reads its query through two things only, the
    lower-cased query and the length of the query: two queries with the
    same lower-cased form and the same length give the same matches, with
    the same positions, texts and contexts. *)
Theorem search_ignores_query_case {L : LowerCase} : forall (fuel : nat) (doc : Document)
    (q1 q2 : string) (section : option Section),
  toLowerCase q1 = toLowerCase q2 ->
  String.length q1 = String.length q2 ->
  searchInDocument fuel doc q1 section = searchInDocument fuel doc q2 section.
Proof.
  intros fuel doc q1 q2 section E Hlen. unfold searchInDocument. rewrite E.
  generalize (@nil Match).
  induction (content_of_body doc) as [| element rest IH]; intros matches;
    [reflexivity |].
  cbn [searchLoop]. destruct (paragraph element) as [para |]; [| apply IH].
  destruct (outsideRange _ _ _); [apply IH |].
  rewrite (matchLoop_query_length _ _ _ _ q1 q2 _ _ _ Hlen).
  destruct (matchLoop _ _ _ _ _ _ _ _); [apply IH | reflexivity].
Qed.

Lemma search_ignores_query_case_witness :
  @searchInDocument asciiLowerCase 4 docAbc "ABC" None
  = @searchInDocument asciiLowerCase 4 docAbc "abc" None.
Proof.
  apply (search_ignores_query_case (L := asciiLowerCase) 4 docAbc "ABC" "abc");
    reflexivity.
Defined.

Lemma searchInDocument_total_witness :
  exists fuel result,
    forall fuel', fuel <= fuel' ->
      @searchInDocument asciiLowerCase fuel' docAbc "abc" None = Some result.
Proof.
  apply (searchInDocument_total (L := asciiLowerCase) docAbc "abc" None).
  discriminate.
Defined.

(** ** Lookup of a section by title *)

Lemma includes_spec : forall s t : string,
  includes s t = true <-> exists i, occursAt t s i.
Proof.
  intros s t. unfold includes.
  destruct (indexOf s t 0) as [i |] eqn:E.
  - destruct (indexOf_Some _ _ _ _ E) as (_ & Hocc & _).
    split; [intros _; exists i; exact Hocc | reflexivity].
  - split; [discriminate |]. intros (i & Hocc). exfalso.
    apply (indexOf_None _ _ _ E i); [simpl; lia | exact Hocc].
Qed.

Lemma findLoop_spec {L : LowerCase} : forall (sections : list Section) (searchTitle : string),
  match findLoop sections searchTitle with
  | Some section =>
      exists before after,
        sections = before ++ section :: after
        /\ includes (toLowerCase (title section)) searchTitle = true
        /\ forall s, In s before ->
             includes (toLowerCase (title s)) searchTitle = false
  | None =>
      forall s, In s sections ->
        includes (toLowerCase (title s)) searchTitle = false
  end.
Proof.
  intros sections searchTitle. induction sections as [| s rest IH]; simpl.
  - intros s [].
  - destruct (includes (toLowerCase (title s)) searchTitle) eqn:E.
    + exists [], rest. repeat split; auto. intros x [].
    + destruct (findLoop rest searchTitle) as [found |].
      * destruct IH as (before & after & -> & Hf & Hb).
        exists (s :: before), after. repeat split; auto.
        intros x [<- | Hx]; [exact E | apply Hb; exact Hx].
      * intros x [<- | Hx]; [exact E | apply IH; exact Hx].
Qed.

(** X14.  [findSectionByTitle] answers the first section, in list order, whose
    title contains the wanted title, case apart, and [null] exactly when
    no title does. *)
Theorem findSectionByTitle_first_match {L : LowerCase} : forall (sections : list Section)
    (title : string),
  match findSectionByTitle sections title with
  | Some section =>
      exists before after,
        sections = before ++ section :: after
        /\ titleMatches title section
        /\ forall s, In s before -> ~ titleMatches title s
  | None => forall s, In s sections -> ~ titleMatches title s
  end.
Proof.
  intros sections title. unfold findSectionByTitle, titleMatches.
  pose proof (findLoop_spec sections (toLowerCase title)) as H.
  destruct (findLoop sections (toLowerCase title)) as [section |].
  - destruct H as (before & after & E & Hf & Hb).
    exists before, after. split; [exact E |]. split.
    + apply includes_spec. exact Hf.
    + intros s Hs Hm. apply includes_spec in Hm.
      rewrite (Hb s Hs) in Hm. discriminate.
  - intros s Hs Hm. apply includes_spec in Hm.
    rewrite (H s Hs) in Hm. discriminate.
Qed.

Lemma includes_empty : forall s : string, includes s "" = true.
Proof.
  intros s. unfold includes. rewrite indexOf_empty. reflexivity.
Qed.

(** X15.  An empty title selects the first section: with an empty title the
    lookup never answers [null] unless there is no section at all. *)
Theorem findSectionByTitle_empty_title {L : LowerCase} : forall sections : list Section,
  findSectionByTitle sections "" = hd_error sections.
Proof.
  intros [| s rest]; [reflexivity |].
  unfold findSectionByTitle. rewrite toLowerCase_empty. simpl.
  rewrite includes_empty. reflexivity.
Qed.

(** ** The compiler: how scripts are built *)

Lemma rebase_app : forall (k : Z) (s1 s2 : list Request),
  Rebaser.rebase k (s1 ++ s2) = Rebaser.rebase k s1 ++ Rebaser.rebase k s2.
Proof. intros k s1 s2. apply map_app. Qed.

Lemma rebaseRequest_add : forall (j k : Z) (r : Request),
  Rebaser.rebaseRequest k (Rebaser.rebaseRequest j r)
  = Rebaser.rebaseRequest (j + k) r.
Proof. intros j k r. destruct r; simpl; f_equal; lia. Qed.

Lemma rebase_add : forall (j k : Z) (s : list Request),
  Rebaser.rebase k (Rebaser.rebase j s) = Rebaser.rebase (j + k) s.
Proof.
  intros j k s. unfold Rebaser.rebase. rewrite map_map.
  apply map_ext. intros r. apply rebaseRequest_add.
Qed.

Lemma rebaseRequest_zero : forall r : Request, Rebaser.rebaseRequest 0 r = r.
Proof. intros r. destruct r; simpl; f_equal; lia. Qed.

Lemma rebase_zero : forall s : list Request, Rebaser.rebase 0 s = s.
Proof.
  intros s. unfold Rebaser.rebase. rewrite <- (map_id s) at 2.
  apply map_ext. intros r. apply rebaseRequest_zero.
Qed.

Lemma inlineStyle_shift : forall (token : Token) (s e k : Z),
  inlineStyle token (s + k) (e + k)
  = option_map (Rebaser.rebaseRequest k) (inlineStyle token s e).
Proof.
  intros token s e k. unfold inlineStyle.
  repeat match goal with
         | |- context [if ?b then _ else _] => destruct b
         end; reflexivity.
Qed.

Lemma inlineStyle_isInline : forall (token : Token) (s e : Z) (r : Request),
  inlineStyle token s e = Some r -> isInlineStyle r = true.
Proof.
  intros token s e r. unfold inlineStyle.
  repeat match goal with
         | |- context [if ?b then _ else _] => destruct b
         end; intros H; inversion H; reflexivity.
Qed.

Lemma emittedLoop_cons : forall (token : Token) (rest : list Token)
    (startOffset currentOffset : Z),
  appendsOnly token ->
  (forall c, requests (inlineLoop inlineToken rest startOffset
                         (currentOffset + inlineLength token) c)
             = requests c
               ++ emittedLoop rest startOffset (currentOffset + inlineLength token)) ->
  forall c,
    requests (inlineLoop inlineToken (token :: rest) startOffset currentOffset c)
    = requests c
      ++ emittedToken token (startOffset + currentOffset)
      ++ emittedLoop rest startOffset (currentOffset + inlineLength token).
Proof.
  intros token rest startOffset currentOffset (A & _ & _) Hrest c.
  cbn [inlineLoop]. rewrite Hrest, A, <- app_assoc. reflexivity.
Qed.

Lemma inlineLoop_appends : forall l : list Token,
  Forall appendsOnly l ->
  (forall startOffset currentOffset c,
     requests (inlineLoop inlineToken l startOffset currentOffset c)
     = requests c ++ emittedLoop l startOffset currentOffset)
  /\ (forall startOffset currentOffset k,
        emittedLoop l (startOffset + k) currentOffset
        = Rebaser.rebase k (emittedLoop l startOffset currentOffset))
  /\ (forall startOffset currentOffset,
        Forall (fun r => isInlineStyle r = true)
          (emittedLoop l startOffset currentOffset)).
Proof.
  induction 1 as [| token rest Htoken Hrest (IH1 & IH2 & IH3)].
  - repeat split.
    + intros. cbn [inlineLoop]. unfold emittedLoop. cbn [inlineLoop].
      simpl. rewrite app_nil_r. reflexivity.
    + intros. constructor.
  - assert (E : forall startOffset currentOffset,
              emittedLoop (token :: rest) startOffset currentOffset
              = emittedToken token (startOffset + currentOffset)
                ++ emittedLoop rest startOffset (currentOffset + inlineLength token)).
    { intros startOffset currentOffset. unfold emittedLoop at 1.
      rewrite (emittedLoop_cons token rest _ _ Htoken (IH1 _ _)).
      reflexivity. }
    destruct Htoken as (A & B & C).
    split; [| split].
    + intros startOffset currentOffset c. rewrite E.
      apply (emittedLoop_cons token rest _ _ (conj A (conj B C)) (IH1 _ _)).
    + intros startOffset currentOffset k. rewrite !E, rebase_app, <- IH2.
      replace (startOffset + k + currentOffset)%Z
        with (startOffset + currentOffset + k)%Z by lia.
      rewrite B. reflexivity.
    + intros startOffset currentOffset. rewrite E.
      apply Forall_app. split; [apply C | apply IH3].
Qed.

Lemma inlineToken_appendsOnly : forall token : Token, appendsOnly token.
Proof.
  intros token. induction token as [token IH] using Token_nested_ind.
  assert (U : forall start c,
            requests (inlineToken token start c)
            = requests c
              ++ match inlineStyle token start (start + inlineLength token) with
                 | Some r => [r]
                 | None => []
                 end
              ++ match tokens token with
                 | Some (kid :: kids) => emittedLoop (kid :: kids) start 0
                 | _ => []
                 end).
  { intros start c. destruct token as [ty tx ts d h o it hd rs].
    cbn [inlineToken tokens] in *.
    set (tok := mkToken ty tx ts d h o it hd rs).
    assert (P : forall r, requests (pushRequest r c) = requests c ++ [r])
      by reflexivity.
    destruct ts as [[| kid kids] |].
    - destruct (inlineStyle tok start (start + inlineLength tok));
        simpl; rewrite ?app_nil_r; reflexivity.
    - destruct (inlineLoop_appends (kid :: kids) (IH _ eq_refl)) as (L1 & _ & _).
      rewrite L1.
      destruct (inlineStyle tok start (start + inlineLength tok));
        simpl; rewrite <- ?app_assoc; reflexivity.
    - destruct (inlineStyle tok start (start + inlineLength tok));
        simpl; rewrite ?app_nil_r; reflexivity. }
  assert (E : forall start,
            emittedToken token start
            = match inlineStyle token start (start + inlineLength token) with
              | Some r => [r]
              | None => []
              end
              ++ match tokens token with
                 | Some (kid :: kids) => emittedLoop (kid :: kids) start 0
                 | _ => []
                 end).
  { intros start. unfold emittedToken. rewrite U. reflexivity. }
  split; [| split].
  - intros start c. rewrite E. apply U.
  - intros start k. rewrite !E, rebase_app.
    replace (start + k + inlineLength token)%Z
      with (start + inlineLength token + k)%Z by lia.
    rewrite inlineStyle_shift. f_equal.
    + destruct (inlineStyle token start (start + inlineLength token)); reflexivity.
    + destruct (tokens token) as [[| kid kids] |] eqn:T; try reflexivity.
      destruct (inlineLoop_appends (kid :: kids) (IH _ eq_refl)) as (_ & L2 & _).
      apply L2.
  - intros start. rewrite E. apply Forall_app. split.
    + destruct (inlineStyle token start (start + inlineLength token)) as [r |] eqn:S;
        constructor; [| constructor].
      apply (inlineStyle_isInline _ _ _ _ S).
    + destruct (tokens token) as [[| kid kids] |] eqn:T; try constructor.
      destruct (inlineLoop_appends (kid :: kids) (IH _ eq_refl)) as (_ & _ & L3).
      apply L3.
Qed.

(** [applyInlineFormatting] only appends inline styles, the same
    whatever the converter holds, and shifted as the start is shifted. *)
Lemma applyInlineFormatting_appends : forall (tokens : option (list Token)),
  (forall start c,
     requests (applyInlineFormatting tokens start c)
     = requests c ++ emitted tokens start)
  /\ (forall start k,
        emitted tokens (start + k) = Rebaser.rebase k (emitted tokens start))
  /\ (forall start, Forall (fun r => isInlineStyle r = true) (emitted tokens start)).
Proof.
  intros [l |].
  - assert (F : Forall appendsOnly l)
      by (apply Forall_forall; intros token _; apply inlineToken_appendsOnly).
    destruct (inlineLoop_appends l F) as (L1 & L2 & L3).
    repeat split; intros; [apply L1 | apply L2 | apply L3].
  - repeat split; intros.
    + simpl. unfold emitted. simpl. rewrite app_nil_r. reflexivity.
    + constructor.
Qed.

(** *** The requests of each block handler *)

Lemma applyInlineFormatting_cursor : forall tokens start c,
  currentIndex (applyInlineFormatting tokens start c) = currentIndex c
  /\ tableInsertRequests (applyInlineFormatting tokens start c)
     = tableInsertRequests c
  /\ tables (applyInlineFormatting tokens start c) = tables c.
Proof.
  intros tokens start c.
  destruct (applyInlineFormatting_sameText tokens start c) as (A & _ & B & C).
  repeat split; assumption.
Qed.

Lemma addHeading_script : forall (token : Token) (c : Converter),
  requests (addHeading token c)
  = requests c
    ++ insertText (currentIndex c) (extractPlainText (tokens token) ++ JS.LF)
    :: updateParagraphStyle (currentIndex c)
         (currentIndex c
          + lengthZ (extractPlainText (tokens token) ++ JS.LF) - 1)
         ("HEADING_" ++ JS.ofNat (depth token)) "namedStyleType"
    :: emitted (tokens token) (currentIndex c)
  /\ currentIndex (addHeading token c)
     = (currentIndex c + lengthZ (extractPlainText (tokens token) ++ JS.LF))%Z.
Proof.
  intros token c. unfold addHeading.
  destruct (applyInlineFormatting_appends (tokens token)) as (A & _ & _).
  split.
  - rewrite A. unfold pushRequest, advance. cbn [requests currentIndex].
    rewrite <- !app_assoc. reflexivity.
  - rewrite (proj1 (applyInlineFormatting_cursor _ _ _)). reflexivity.
Qed.

Lemma addParagraph_script : forall (token : Token) (c : Converter),
  requests (addParagraph token c)
  = requests c
    ++ insertText (currentIndex c) (extractPlainText (tokens token) ++ JS.LF)
    :: emitted (tokens token) (currentIndex c)
  /\ currentIndex (addParagraph token c)
     = (currentIndex c + lengthZ (extractPlainText (tokens token) ++ JS.LF))%Z.
Proof.
  intros token c. unfold addParagraph.
  destruct (applyInlineFormatting_appends (tokens token)) as (A & _ & _).
  split.
  - rewrite A. unfold pushRequest, advance. cbn [requests currentIndex].
    rewrite <- !app_assoc. reflexivity.
  - rewrite (proj1 (applyInlineFormatting_cursor _ _ _)). reflexivity.
Qed.

Lemma addListItem_script : forall (isOrdered : bool) (c : Converter) (item : Token),
  requests (addListItem isOrdered c item)
  = requests c
    ++ insertText (currentIndex c) (extractPlainText (tokens item) ++ JS.LF)
    :: createParagraphBullets (currentIndex c)
         (currentIndex c
          + lengthZ (extractPlainText (tokens item) ++ JS.LF) - 1)
         (if isOrdered then "NUMBERED_DECIMAL_ALPHA_ROMAN"
          else "BULLET_DISC_CIRCLE_SQUARE")
    :: emitted (tokens item) (currentIndex c)
  /\ currentIndex (addListItem isOrdered c item)
     = (currentIndex c + lengthZ (extractPlainText (tokens item) ++ JS.LF))%Z.
Proof.
  intros isOrdered c item. unfold addListItem.
  destruct (applyInlineFormatting_appends (tokens item)) as (A & _ & _).
  split.
  - rewrite A. unfold pushRequest, advance. cbn [requests currentIndex].
    rewrite <- !app_assoc. reflexivity.
  - rewrite (proj1 (applyInlineFormatting_cursor _ _ _)). reflexivity.
Qed.

Lemma addCodeBlock_script : forall (token : Token) (c : Converter),
  requests (addCodeBlock token c)
  = requests c
    ++ [ insertText (currentIndex c) (textOrEmpty token ++ JS.LF ++ JS.LF);
         updateTextStyle (currentIndex c)
           (currentIndex c
            + lengthZ (textOrEmpty token ++ JS.LF ++ JS.LF) - 2)
           codeStyle codeFields ]
  /\ currentIndex (addCodeBlock token c)
     = (currentIndex c + lengthZ (textOrEmpty token ++ JS.LF ++ JS.LF))%Z.
Proof.
  intros token c. unfold addCodeBlock, pushRequest, advance.
  cbn [requests currentIndex]. rewrite <- !app_assoc. split; reflexivity.
Qed.

(** The placeholder text of a table token. *)
Lemma addTable_script : forall (token : Token) (c : Converter),
  exists placeholder : string,
    placeholder
    = ("[TABLE:" ++ JS.ofNat (List.length (rows token) + 1) ++ "x"
       ++ JS.ofNat (List.length (header token)) ++ "]" ++ JS.LF)%string
    /\ requests (addTable token c)
       = requests c ++ [insertText (currentIndex c) placeholder]
    /\ currentIndex (addTable token c)
       = (currentIndex c + lengthZ placeholder)%Z.
Proof.
  intros token c. eexists. split; [reflexivity |].
  unfold addTable, pushRequest, advance. cbn [requests currentIndex].
  split; reflexivity.
Qed.

Lemma lengthZ_line : forall s : string, (1 <= lengthZ (s ++ JS.LF))%Z.
Proof.
  intros s. unfold lengthZ. rewrite length_append. simpl. lia.
Qed.

Lemma lengthZ_nonneg : forall s : string, (0 <= lengthZ s)%Z.
Proof. intros s. unfold lengthZ. lia. Qed.

Lemma insertsFrom_app : forall (s1 s2 : list Request) (pos : Z),
  insertsFrom pos (s1 ++ s2)
  <-> insertsFrom pos s1 /\ insertsFrom (pos + insertedLength s1)%Z s2.
Proof.
  induction s1 as [| r rest IH]; intros s2 pos.
  - simpl. rewrite Z.add_0_r. tauto.
  - rewrite <- app_comm_cons.
    destruct r; cbn [insertsFrom insertedLength]; rewrite ?IH; try tauto.
    replace (pos + (lengthZ text0 + insertedLength rest))%Z
      with (pos + lengthZ text0 + insertedLength rest)%Z by lia.
    tauto.
Qed.

Lemma insertsFrom_styles : forall (s : list Request) (pos : Z),
  Forall (fun r => match r with insertText _ _ => False | _ => True end) s ->
  insertsFrom pos s /\ insertedLength s = 0%Z.
Proof.
  induction 1 as [| r rest Hr _ [IH1 IH2]]; [split; reflexivity |].
  destruct r; try contradiction; simpl; split; assumption.
Qed.

Lemma blockBounded_grows : forall (cursor cursor' : Z) (r : Request),
  (cursor <= cursor')%Z -> blockBounded cursor r -> blockBounded cursor' r.
Proof.
  intros cursor cursor' r Hle. destruct r; simpl; try tauto; try lia.
  destruct (String.eqb fields codeFields); [lia | tauto].
Qed.

Lemma inlineStyle_free : forall r : Request,
  isInlineStyle r = true ->
  match r with insertText _ _ => False | _ => True end
  /\ forall cursor, blockBounded cursor r.
Proof.
  intros r H. destruct r; try discriminate. simpl in *. split; [exact I |].
  intros cursor. destruct (String.eqb fields codeFields); [discriminate | exact I].
Qed.

(** One block: an insert at the cursor, the requests of the handler and
    inline styles. *)
Lemma wellPlaced_block : forall (c c' : Converter) (text : string)
    (block styles : list Request),
  wellPlaced c ->
  requests c' = requests c ++ insertText (currentIndex c) text :: block ++ styles ->
  currentIndex c' = (currentIndex c + lengthZ text)%Z ->
  Forall (fun r => match r with insertText _ _ => False | _ => True end) block ->
  Forall (blockBounded (currentIndex c')) block ->
  Forall (fun r => isInlineStyle r = true) styles ->
  wellPlaced c'.
Proof.
  intros c c' text block styles (K1 & K2 & K3 & K4) Er Ec Hb1 Hb2 Hs.
  pose proof (lengthZ_nonneg text) as Ht.
  assert (Hfree : Forall (fun r => match r with insertText _ _ => False | _ => True end)
                    (block ++ styles)).
  { apply Forall_app. split; [exact Hb1 |].
    eapply Forall_impl; [| exact Hs]. intros r Hr. apply (inlineStyle_free r Hr). }
  unfold wellPlaced. rewrite Er, Ec. repeat split.
  - rewrite insertedLength_app. cbn [insertedLength].
    rewrite (proj2 (insertsFrom_styles _ 0%Z Hfree)). lia.
  - apply insertsFrom_app. split; [exact K2 |]. cbn [insertsFrom].
    split; [lia |]. apply insertsFrom_styles. exact Hfree.
  - lia.
  - rewrite <- Ec. apply Forall_app. split.
    + eapply Forall_impl; [| exact K4]. intros r. apply blockBounded_grows. lia.
    + constructor; [simpl; lia |]. apply Forall_app. split; [exact Hb2 |].
      eapply Forall_impl; [| exact Hs]. intros r Hr. apply (inlineStyle_free r Hr).
Qed.

Lemma addListItem_wellPlaced : forall isOrdered c item,
  wellPlaced c -> wellPlaced (addListItem isOrdered c item).
Proof.
  intros isOrdered c item K.
  destruct (addListItem_script isOrdered c item) as [Er Ec].
  pose proof (lengthZ_line (extractPlainText (tokens item))) as Hl.
  destruct K as (K1 & K2 & K3 & K4).
  eapply (wellPlaced_block c _ _ [_] _ (conj K1 (conj K2 (conj K3 K4))) Er Ec).
  - constructor; [exact I | constructor].
  - constructor; [| constructor]. rewrite Ec. simpl. lia.
  - apply (applyInlineFormatting_appends (tokens item)).
Qed.

Lemma processToken_wellPlaced : forall c token,
  wellPlaced c -> wellPlaced (processToken c token).
Proof.
  intros c token K. unfold processToken.
  repeat match goal with
         | |- context [if ?b then _ else _] => destruct b
         end; try exact K.
  - destruct (addHeading_script token c) as [Er Ec].
    pose proof (lengthZ_line (extractPlainText (tokens token))) as Hl.
    pose proof K as (_ & _ & K3 & _).
    eapply (wellPlaced_block c _ _ [_] _ K Er Ec).
    + constructor; [exact I | constructor].
    + constructor; [| constructor]. rewrite Ec. simpl. lia.
    + apply (applyInlineFormatting_appends (tokens token)).
  - destruct (addParagraph_script token c) as [Er Ec].
    eapply (wellPlaced_block c _ _ [] _ K Er Ec).
    + constructor.
    + constructor.
    + apply (applyInlineFormatting_appends (tokens token)).
  - unfold addList. revert c K.
    induction (items token) as [| item rest IH]; intros c K; simpl; [exact K |].
    apply IH. apply addListItem_wellPlaced. exact K.
  - destruct (addCodeBlock_script token c) as [Er Ec].
    pose proof K as (_ & _ & K3 & _).
    assert (Hl : (2 <= lengthZ (textOrEmpty token ++ JS.LF ++ JS.LF))%Z).
    { unfold lengthZ. rewrite !length_append. simpl. lia. }
    eapply (wellPlaced_block c _ _ [_] [] K).
    + rewrite Er. reflexivity.
    + exact Ec.
    + constructor; [exact I | constructor].
    + constructor; [| constructor]. rewrite Ec.
      unfold blockBounded. rewrite String.eqb_refl. lia.
    + constructor.
  - destruct (addTable_script token c) as (placeholder & _ & Er & Ec).
    eapply (wellPlaced_block c _ _ [] [] K).
    + rewrite Er. reflexivity.
    + exact Ec.
    + constructor.
    + constructor.
    + constructor.
Qed.

Lemma runTokens_wellPlaced : forall tokens : list Token,
  wellPlaced (runTokens tokens).
Proof.
  intros tokens. unfold runTokens.
  assert (K : wellPlaced freshConverter).
  { unfold wellPlaced. simpl. repeat split; try lia. constructor. }
  revert K. generalize freshConverter.
  induction tokens as [| token rest IH]; intros c K; simpl; [exact K |].
  apply IH. apply processToken_wellPlaced. exact K.
Qed.

(** X17.  For every token list the inserts of the script lie end to end: the
    first is at index 1 and each next one at the index where the text
    inserted before it ends, so that the script, applied in order, writes
    the inserted texts one after the other. *)
Theorem inserts_lie_end_to_end : forall tokens : list Token,
  insertsFrom 1 (requests (runTokens tokens)).
Proof. intros tokens. apply (runTokens_wellPlaced tokens). Qed.

(** X18.  For every token list the requests of the block handlers (inserts,
    heading styles, bullets and code block styles) have indexes from 1 to
    the final cursor, and their ranges are not inverted. *)
Theorem block_requests_within_cursor : forall tokens : list Token,
  Forall (blockBounded (currentIndex (runTokens tokens)))
    (requests (runTokens tokens)).
Proof. intros tokens. apply (runTokens_wellPlaced tokens). Qed.

(** *** Compiling from another cursor *)

Lemma shiftsWith_intro : forall (f : Converter -> Converter)
    (script : Z -> list Request) (len : Z),
  (forall c, requests (f c) = requests c ++ script (currentIndex c)) ->
  (forall c, currentIndex (f c) = (currentIndex c + len)%Z) ->
  (forall cursor, script cursor = Rebaser.rebase (cursor - 1) (script 1%Z)) ->
  shiftsWith f.
Proof.
  intros f script len Hr Hc Hs c. split.
  - rewrite Hr, (Hr freshConverter).
    change (currentIndex freshConverter) with 1%Z.
    change (requests freshConverter) with (@nil Request).
    apply f_equal. apply Hs.
  - rewrite Hc, (Hc freshConverter).
    change (currentIndex freshConverter) with 1%Z. lia.
Qed.

Lemma shiftsWith_compose : forall f g : Converter -> Converter,
  shiftsWith f -> shiftsWith g -> shiftsWith (fun c => g (f c)).
Proof.
  intros f g Hf Hg c.
  destruct (Hf c) as [F1 F2]. destruct (Hg (f c)) as [G1 G2].
  destruct (Hg (f freshConverter)) as [G3 G4].
  split.
  - rewrite G1, F1, G3, rebase_app, rebase_add, <- app_assoc, F2.
    do 3 f_equal. lia.
  - rewrite G2, F2, G4. lia.
Qed.

Lemma shiftsWith_fold : forall (A : Type) (f : Converter -> A -> Converter)
    (l : list A),
  (forall x, shiftsWith (fun c => f c x)) ->
  shiftsWith (fun c => fold_left f l c).
Proof.
  intros A f l Hf. induction l as [| x rest IH].
  - intros c. cbn [fold_left].
    change (currentIndex freshConverter) with 1%Z.
    change (requests freshConverter) with (@nil Request).
    unfold Rebaser.rebase. cbn [map]. rewrite app_nil_r.
    split; [reflexivity | lia].
  - apply (shiftsWith_compose (fun c => f c x) (fun c => fold_left f rest c));
      [apply Hf | exact IH].
Qed.

Lemma emitted_from : forall (tokens : option (list Token)) (cursor : Z),
  emitted tokens cursor = Rebaser.rebase (cursor - 1) (emitted tokens 1%Z).
Proof.
  intros tokens cursor.
  destruct (applyInlineFormatting_appends tokens) as (_ & B & _).
  rewrite <- B. f_equal. lia.
Qed.

Lemma addListItem_shifts : forall (isOrdered : bool) (item : Token),
  shiftsWith (fun c => addListItem isOrdered c item).
Proof.
  intros isOrdered item.
  eapply (shiftsWith_intro _
            (fun cursor =>
               insertText cursor (extractPlainText (tokens item) ++ JS.LF)
               :: createParagraphBullets cursor
                    (cursor + lengthZ (extractPlainText (tokens item) ++ JS.LF) - 1)
                    (if isOrdered then "NUMBERED_DECIMAL_ALPHA_ROMAN"
                     else "BULLET_DISC_CIRCLE_SQUARE")
               :: emitted (tokens item) cursor)).
  - intros c. apply (addListItem_script isOrdered c item).
  - intros c. apply (addListItem_script isOrdered c item).
  - intros cursor. cbn [Rebaser.rebase map Rebaser.rebaseRequest].
    rewrite (emitted_from _ cursor). unfold Rebaser.rebase.
    f_equal; [f_equal; lia |]. f_equal. f_equal; lia.
Qed.

Lemma processToken_shifts : forall token : Token,
  shiftsWith (fun c => processToken c token).
Proof.
  intros token. unfold processToken.
  destruct (isType token "heading").
  { eapply (shiftsWith_intro _
              (fun cursor =>
                 insertText cursor (extractPlainText (tokens token) ++ JS.LF)
                 :: updateParagraphStyle cursor
                      (cursor + lengthZ (extractPlainText (tokens token) ++ JS.LF) - 1)
                      ("HEADING_" ++ JS.ofNat (depth token)) "namedStyleType"
                 :: emitted (tokens token) cursor)).
    - intros c. apply (addHeading_script token c).
    - intros c. apply (addHeading_script token c).
    - intros cursor. cbn [Rebaser.rebase map Rebaser.rebaseRequest].
      rewrite (emitted_from _ cursor). unfold Rebaser.rebase.
      f_equal; [f_equal; lia |]. f_equal. f_equal; lia. }
  destruct (isType token "paragraph").
  { eapply (shiftsWith_intro _
              (fun cursor =>
                 insertText cursor (extractPlainText (tokens token) ++ JS.LF)
                 :: emitted (tokens token) cursor)).
    - intros c. apply (addParagraph_script token c).
    - intros c. apply (addParagraph_script token c).
    - intros cursor. cbn [Rebaser.rebase map Rebaser.rebaseRequest].
      rewrite (emitted_from _ cursor). unfold Rebaser.rebase.
      f_equal. f_equal. lia. }
  destruct (isType token "list").
  { unfold addList. apply shiftsWith_fold. apply addListItem_shifts. }
  destruct (isType token "code").
  { eapply (shiftsWith_intro _
              (fun cursor =>
                 [ insertText cursor (textOrEmpty token ++ JS.LF ++ JS.LF);
                   updateTextStyle cursor
                     (cursor + lengthZ (textOrEmpty token ++ JS.LF ++ JS.LF) - 2)
                     codeStyle codeFields ])).
    - intros c. apply (addCodeBlock_script token c).
    - intros c. apply (addCodeBlock_script token c).
    - intros cursor. cbn [Rebaser.rebase map Rebaser.rebaseRequest].
      f_equal; [f_equal; lia |]. f_equal. f_equal; lia. }
  destruct (isType token "table").
  { destruct (addTable_script token freshConverter) as (placeholder & Ep & _).
    eapply (shiftsWith_intro _ (fun cursor => [insertText cursor placeholder])
              (lengthZ placeholder)).
    - intros c. destruct (addTable_script token c) as (p & Ep' & Er & _).
      rewrite Er. subst. reflexivity.
    - intros c. destruct (addTable_script token c) as (p & Ep' & _ & Ec).
      rewrite Ec. subst. reflexivity.
    - intros cursor. cbn [Rebaser.rebase map Rebaser.rebaseRequest].
      f_equal. f_equal. lia. }
  assert (Id : shiftsWith (fun c => c)).
  { intros c. change (currentIndex freshConverter) with 1%Z.
    change (requests freshConverter) with (@nil Request).
    unfold Rebaser.rebase. cbn [map]. rewrite app_nil_r.
    split; [reflexivity | lia]. }
  destruct (isType token "space"); exact Id.
Qed.

(** X19.  Compiling one token list after another: the script is the script of
    the first list followed by the script of the second with every index
    shifted by the cursor the first list ends at, less one; the cursors
    add up likewise.  Shifting is what the batch rebaser does. *)
Theorem compile_concatenation : forall a b : list Token,
  requests (runTokens (a ++ b))
  = requests (runTokens a)
    ++ Rebaser.rebase (currentIndex (runTokens a) - 1) (requests (runTokens b))
  /\ currentIndex (runTokens (a ++ b))
     = (currentIndex (runTokens a) + (currentIndex (runTokens b) - 1))%Z.
Proof.
  intros a b.
  assert (E : runTokens (a ++ b) = fold_left processToken b (runTokens a))
    by (unfold runTokens; apply fold_left_app).
  rewrite E.
  apply (shiftsWith_fold Token processToken b processToken_shifts (runTokens a)).
Qed.

(** *** Inline ranges when the computed lengths are the rendered ones *)

Lemma emittedLoop_unfold : forall (token : Token) (rest : list Token)
    (startOffset currentOffset : Z),
  emittedLoop (token :: rest) startOffset currentOffset
  = emittedToken token (startOffset + currentOffset)
    ++ emittedLoop rest startOffset (currentOffset + inlineLength token).
Proof.
  intros token rest startOffset currentOffset.
  assert (F : Forall appendsOnly rest)
    by (apply Forall_forall; intros t _; apply inlineToken_appendsOnly).
  destruct (inlineLoop_appends rest F) as (L1 & _ & _).
  unfold emittedLoop at 1.
  rewrite (emittedLoop_cons token rest _ _ (inlineToken_appendsOnly token) (L1 _ _)).
  reflexivity.
Qed.

Lemma emittedToken_unfold : forall (token : Token) (start : Z),
  emittedToken token start
  = match inlineStyle token start (start + inlineLength token) with
    | Some r => [r]
    | None => []
    end
    ++ match tokens token with
       | Some (kid :: kids) => emittedLoop (kid :: kids) start 0
       | _ => []
       end.
Proof.
  intros token start. unfold emittedToken.
  destruct token as [ty tx ts d h o it hd rs]. cbn [inlineToken tokens].
  set (tok := mkToken ty tx ts d h o it hd rs).
  destruct ts as [[| kid kids] |].
  - destruct (inlineStyle tok start (start + inlineLength tok));
      simpl; reflexivity.
  - assert (F : Forall appendsOnly (kid :: kids))
      by (apply Forall_forall; intros t _; apply inlineToken_appendsOnly).
    destruct (inlineLoop_appends (kid :: kids) F) as (L1 & _ & _).
    rewrite L1.
    destruct (inlineStyle tok start (start + inlineLength tok)); reflexivity.
  - destruct (inlineStyle tok start (start + inlineLength tok));
      simpl; reflexivity.
Qed.

Lemma inlineStyle_range : forall (token : Token) (s e : Z) (r : Request),
  inlineStyle token s e = Some r ->
  exists style fields, r = updateTextStyle s e style fields.
Proof.
  intros token s e r. unfold inlineStyle.
  repeat match goal with
         | |- context [if ?b then _ else _] => destruct b
         end; intros H; inversion H; eexists; eexists; reflexivity.
Qed.

Lemma rangeWithin_widen : forall (lo lo' hi hi' : Z) (r : Request),
  (lo' <= lo)%Z -> (hi <= hi')%Z ->
  rangeWithin lo hi r -> rangeWithin lo' hi' r.
Proof.
  intros lo lo' hi hi' r H1 H2. destruct r; simpl; try tauto. lia.
Qed.

Lemma extractPlainText_cons_length : forall (token : Token) (rest : list Token),
  lengthZ (extractPlainText (Some (token :: rest)))
  = (lengthZ (extractToken token) + lengthZ (extractPlainText (Some rest)))%Z.
Proof.
  intros token rest.
  change (token :: rest) with ([token] ++ rest).
  rewrite extractPlainText_app, extractPlainText_single.
  unfold lengthZ. rewrite length_append. lia.
Qed.

Lemma extractToken_children : forall (token : Token) (kid : Token) (kids : list Token),
  tokens token = Some (kid :: kids) ->
  extractToken token = extractPlainText (Some (kid :: kids)).
Proof.
  intros token kid kids E. rewrite extractToken_unfold.
  assert (C : hasChildren token = true) by (unfold hasChildren; rewrite E; reflexivity).
  rewrite C, E. destruct (isFormatting token); reflexivity.
Qed.

Lemma lengthsAgree_unfold : forall token : Token,
  lengthsAgree token
  <-> inlineLength token = lengthZ (extractToken token)
      /\ match tokens token with
         | None => True
         | Some kids => Forall lengthsAgree kids
         end.
Proof.
  intros token. destruct token as [ty tx ts d h o it hd rs].
  cbn [lengthsAgree tokens].
  destruct ts as [kids |]; [| tauto].
  assert (E : forall l : list Token,
            (fix all (l : list Token) : Prop :=
               match l with
               | [] => True
               | kid :: rest => lengthsAgree kid /\ all rest
               end) l <-> Forall lengthsAgree l).
  { induction l as [| k r IH]; split; intros H.
    - constructor.
    - exact I.
    - destruct H as [H1 H2]. constructor; [exact H1 | apply IH; exact H2].
    - inversion H; subst. split; [assumption | apply IH; assumption]. }
  rewrite E. tauto.
Qed.

Lemma emittedLoop_within : forall l : list Token,
  Forall (fun token =>
            lengthsAgree token ->
            forall start,
              Forall (rangeWithin start (start + lengthZ (extractToken token)))
                (emittedToken token start)) l ->
  Forall lengthsAgree l ->
  forall startOffset currentOffset,
    Forall (rangeWithin (startOffset + currentOffset)
              (startOffset + currentOffset
               + lengthZ (extractPlainText (Some l))))
      (emittedLoop l startOffset currentOffset).
Proof.
  induction 1 as [| token rest Htoken _ IH]; intros Hagree startOffset currentOffset.
  - constructor.
  - inversion Hagree as [| ? ? Ha Hrest]; subst.
    rewrite emittedLoop_unfold, extractPlainText_cons_length.
    pose proof (lengthZ_nonneg (extractToken token)) as N1.
    pose proof (lengthZ_nonneg (extractPlainText (Some rest))) as N2.
    apply Forall_app. split.
    + eapply Forall_impl; [| apply (Htoken Ha)].
      intros r. apply rangeWithin_widen; lia.
    + apply (proj1 (lengthsAgree_unfold token)) in Ha. destruct Ha as [Ha _].
      eapply Forall_impl; [| apply (IH Hrest)].
      intros r. apply rangeWithin_widen; lia.
Qed.

Lemma emittedToken_within : forall token : Token,
  lengthsAgree token ->
  forall start,
    Forall (rangeWithin start (start + lengthZ (extractToken token)))
      (emittedToken token start).
Proof.
  intros token. induction token as [token IH] using Token_nested_ind.
  intros Hagree start.
  apply (proj1 (lengthsAgree_unfold token)) in Hagree.
  destruct Hagree as [Hlen Hkids].
  pose proof (lengthZ_nonneg (extractToken token)) as N.
  rewrite emittedToken_unfold. apply Forall_app. split.
  - destruct (inlineStyle token start (start + inlineLength token)) as [r |] eqn:S;
      constructor; [| constructor].
    destruct (inlineStyle_range _ _ _ _ S) as (style & fields & ->).
    simpl. lia.
  - destruct (tokens token) as [[| kid kids] |] eqn:T; try constructor.
    rewrite (extractToken_children token kid kids T).
    pose proof (emittedLoop_within (kid :: kids) (IH _ eq_refl) Hkids start 0) as W.
    eapply Forall_impl; [| exact W].
    intros r. apply rangeWithin_widen; lia.
Qed.

Lemma emitted_within : forall (tokens : option (list Token)) (start : Z),
  allAgree tokens ->
  Forall (rangeWithin start (start + lengthZ (extractPlainText tokens)))
    (emitted tokens start).
Proof.
  intros [l |] start H.
  - unfold allAgree in H.
    pose proof (emittedLoop_within l) as W.
    assert (F : Forall (fun token =>
                          lengthsAgree token ->
                          forall start,
                            Forall (rangeWithin start
                                      (start + lengthZ (extractToken token)))
                              (emittedToken token start)) l)
      by (apply Forall_forall; intros token _; apply emittedToken_within).
    specialize (W F H start 0%Z).
    eapply Forall_impl; [| exact W]. intros r. apply rangeWithin_widen; lia.
  - constructor.
Qed.

(** X20.  When, for every token of the list and every token nested in it, the
    length the inline pass computes is the length of the rendered text,
    every style range the pass emits lies inside the text inserted for the
    list: between the start offset and the start offset plus the length of
    the flattened text, and not inverted. *)
Theorem inline_ranges_inside_rendered_text : forall (tokens : option (list Token))
    (start : Z),
  allAgree tokens ->
  Forall (rangeWithin start (start + lengthZ (extractPlainText tokens)))
    (emitted tokens start).
Proof. exact emitted_within. Qed.

Lemma inline_ranges_inside_rendered_text_witness :
  Forall (rangeWithin 7 (7 + lengthZ "Hello world"))
    (emitted (Some [plain "Hello "; inline "strong" "world" (Some [plain "world"])]) 7).
Proof.
  apply (inline_ranges_inside_rendered_text
           (Some [plain "Hello "; inline "strong" "world" (Some [plain "world"])]) 7).
  repeat constructor.
Defined.

Lemma indexesWithin_intro : forall (cursor : Z) (r : Request),
  (forall i, In i (Rebaser.indexFields r) -> (1 <= i <= cursor)%Z) ->
  indexesWithin cursor r.
Proof. intros cursor r H. apply Forall_forall. exact H. Qed.

Lemma indexesWithin_grows : forall (cursor cursor' : Z) (r : Request),
  (cursor <= cursor')%Z -> indexesWithin cursor r -> indexesWithin cursor' r.
Proof.
  intros cursor cursor' r Hle H. unfold indexesWithin in *.
  eapply Forall_impl; [| exact H]. simpl. intros; lia.
Qed.

Lemma inline_indexesWithin : forall (tokens : option (list Token)) (cursor hi : Z),
  allAgree tokens ->
  (1 <= cursor)%Z ->
  (cursor + lengthZ (extractPlainText tokens) <= hi)%Z ->
  Forall (indexesWithin hi) (emitted tokens cursor).
Proof.
  intros tokens cursor hi Ha H1 H2.
  pose proof (emitted_within tokens cursor Ha) as W.
  destruct (applyInlineFormatting_appends tokens) as (_ & _ & S).
  specialize (S cursor). rewrite Forall_forall in *.
  intros r Hr. specialize (W r Hr). specialize (S r Hr).
  destruct r; try discriminate. apply indexesWithin_intro. cbn [Rebaser.indexFields In rangeWithin isInlineStyle] in *.
  intros i [<- | [<- | []]]; lia.
Qed.

(** One block whose inline lengths agree. *)
Lemma indexesWithin_block : forall (c c' : Converter) (tokens : option (list Token))
    (block : list Request),
  (1 <= currentIndex c)%Z ->
  Forall (indexesWithin (currentIndex c)) (requests c) ->
  requests c'
  = requests c
    ++ insertText (currentIndex c) (extractPlainText tokens ++ JS.LF)
    :: block ++ emitted tokens (currentIndex c) ->
  currentIndex c'
  = (currentIndex c + lengthZ (extractPlainText tokens ++ JS.LF))%Z ->
  Forall (indexesWithin (currentIndex c')) block ->
  allAgree tokens ->
  (1 <= currentIndex c')%Z
  /\ Forall (indexesWithin (currentIndex c')) (requests c').
Proof.
  intros c c' tokens block K1 K2 Er Ec Hb Ha.
  assert (Hl : lengthZ (extractPlainText tokens ++ JS.LF)
               = (lengthZ (extractPlainText tokens) + 1)%Z).
  { unfold lengthZ. rewrite length_append. simpl. lia. }
  pose proof (lengthZ_nonneg (extractPlainText tokens)) as N.
  split; [lia |]. rewrite Er. apply Forall_app. split.
  - eapply Forall_impl; [| exact K2]. intros r. apply indexesWithin_grows. lia.
  - constructor.
    + apply indexesWithin_intro. cbn [Rebaser.indexFields In]. intros i [<- | []]. lia.
    + apply Forall_app. split; [exact Hb |].
      apply inline_indexesWithin; [exact Ha | exact K1 | lia].
Qed.

Lemma isType_exclusive : forall (token : Token) (a b : string),
  isType token a = true -> a <> b -> isType token b = false.
Proof.
  intros token a b H N. unfold isType in *. apply String.eqb_eq in H.
  apply String.eqb_neq. congruence.
Qed.

Lemma processToken_indexesWithin : forall (c : Converter) (token : Token),
  inlineAgrees token ->
  (1 <= currentIndex c)%Z ->
  Forall (indexesWithin (currentIndex c)) (requests c) ->
  (1 <= currentIndex (processToken c token))%Z
  /\ Forall (indexesWithin (currentIndex (processToken c token)))
       (requests (processToken c token)).
Proof.
  intros c token Ha K1 K2. unfold processToken, inlineAgrees in *.
  destruct (isType token "heading") eqn:T1.
  { rewrite (isType_exclusive token "heading" "list" T1) in Ha by discriminate.
    destruct (addHeading_script token c) as [Er Ec].
    pose proof (lengthZ_line (extractPlainText (tokens token))) as Hl.
    apply (indexesWithin_block c _ (tokens token) [_] K1 K2 Er Ec); [| exact Ha].
    constructor; [| constructor]. rewrite Ec. apply indexesWithin_intro.
    cbn [Rebaser.indexFields In]. intros i [<- | [<- | []]]; lia. }
  destruct (isType token "paragraph") eqn:T2.
  { rewrite (isType_exclusive token "paragraph" "list" T2) in Ha by discriminate.
    destruct (addParagraph_script token c) as [Er Ec].
    apply (indexesWithin_block c _ (tokens token) [] K1 K2 Er Ec); [| exact Ha].
    constructor. }
  destruct (isType token "list") eqn:T3.
  { unfold addList. revert c K1 K2.
    induction Ha as [| item rest Hitem _ IH]; intros c K1 K2; simpl;
      [split; assumption |].
    destruct (addListItem_script (ordered token) c item) as [Er Ec].
    pose proof (lengthZ_line (extractPlainText (tokens item))) as Hl.
    assert (K : (1 <= currentIndex (addListItem (ordered token) c item))%Z
                /\ Forall (indexesWithin
                             (currentIndex (addListItem (ordered token) c item)))
                     (requests (addListItem (ordered token) c item))).
    { apply (indexesWithin_block c _ (tokens item) [_] K1 K2 Er Ec);
        [| exact Hitem].
      constructor; [| constructor]. rewrite Ec. apply indexesWithin_intro.
      cbn [Rebaser.indexFields In]. intros i [<- | [<- | []]]; lia. }
    destruct K as [K1' K2']. apply IH; assumption. }
  destruct (isType token "code").
  { destruct (addCodeBlock_script token c) as [Er Ec].
    assert (Hl : (2 <= lengthZ (textOrEmpty token ++ JS.LF ++ JS.LF))%Z).
    { unfold lengthZ. rewrite !length_append. simpl. lia. }
    split; [lia |]. rewrite Er, Ec. apply Forall_app. split.
    - eapply Forall_impl; [| exact K2]. intros r. apply indexesWithin_grows. lia.
    - constructor; [| constructor; [| constructor]];
        apply indexesWithin_intro; cbn [Rebaser.indexFields In].
      + intros i [<- | []]. lia.
      + intros i [<- | [<- | []]]; lia. }
  destruct (isType token "table").
  { destruct (addTable_script token c) as (placeholder & _ & Er & Ec).
    pose proof (lengthZ_nonneg placeholder) as N.
    split; [lia |]. rewrite Er, Ec. apply Forall_app. split.
    - eapply Forall_impl; [| exact K2]. intros r. apply indexesWithin_grows. lia.
    - constructor; [| constructor]. apply indexesWithin_intro. cbn [Rebaser.indexFields In].
      intros i [<- | []]. lia. }
  destruct (isType token "space"); split; assumption.
Qed.

(** X21.  When the inline lengths agree with the rendered lengths for every
    block of the input, no request of the compiled script carries an index
    below 1 or beyond the final cursor. *)
Theorem script_within_cursor_when_lengths_agree : forall tokens : list Token,
  Forall inlineAgrees tokens ->
  Forall (indexesWithin (currentIndex (runTokens tokens)))
    (requests (runTokens tokens)).
Proof.
  intros tokens H. unfold runTokens.
  assert (K : (1 <= currentIndex freshConverter)%Z
              /\ Forall (indexesWithin (currentIndex freshConverter))
                   (requests freshConverter))
    by (split; [simpl; lia | constructor]).
  revert K. generalize freshConverter.
  induction H as [| token rest Ht _ IH]; intros c [K1 K2]; simpl; [exact K2 |].
  apply IH. apply processToken_indexesWithin; assumption.
Qed.

Lemma script_within_cursor_when_lengths_agree_witness :
  Forall (indexesWithin (currentIndex (runTokens titleHelloTokens)))
    (requests (runTokens titleHelloTokens)).
Proof.
  apply (script_within_cursor_when_lengths_agree titleHelloTokens).
  repeat constructor.
Defined.

(** *** Tables *)

Lemma rowCells_coordinates : forall (cells : list Token) (row cols : nat) (b : bool),
  map cellCoordinates (rowCells cells row cols b) = map (pair row) (seq 0 cols)
  /\ Forall (fun cell => cell_bold cell = b /\ cell_row cell = row)
       (rowCells cells row cols b).
Proof.
  intros cells row cols b. unfold rowCells. split.
  - rewrite map_map. reflexivity.
  - apply Forall_forall. intros cell Hin. apply in_map_iff in Hin.
    destruct Hin as (col & <- & _). split; reflexivity.
Qed.

Lemma dataCells_coordinates : forall (rs : list (list Token)) (row cols : nat),
  map cellCoordinates (dataCells rs row cols)
  = list_prod (seq (row + 1) (List.length rs)) (seq 0 cols)
  /\ Forall (fun cell => cell_bold cell = (cell_row cell =? 0))
       (dataCells rs row cols).
Proof.
  induction rs as [| cells rest IH]; intros row cols; [split; constructor |].
  destruct (IH (S row) cols) as [IH1 IH2].
  destruct (rowCells_coordinates cells (row + 1) cols false) as [R1 R2].
  cbn [dataCells List.length seq list_prod]. split.
  - rewrite map_app, R1, IH1. reflexivity.
  - apply Forall_app. split; [| exact IH2].
    eapply Forall_impl; [| exact R2]. intros cell [-> ->].
    symmetry. apply Nat.eqb_neq. lia.
Qed.

Lemma addTable_consistent : forall (token : Token) (c : Converter),
  exists t ti,
    tables (addTable token c) = tables c ++ [t]
    /\ tableInsertRequests (addTable token c) = tableInsertRequests c ++ [ti]
    /\ tableConsistent (requests (addTable token c)) t ti.
Proof.
  intros token c. eexists. eexists.
  split; [reflexivity |]. split; [reflexivity |].
  unfold tableConsistent. cbn -[list_prod seq lengthZ].
  repeat split.
  - eexists. split; [| reflexivity]. apply in_or_app. right. left. reflexivity.
  - destruct (rowCells_coordinates (header token) 0
                (List.length (header token)) true) as [R1 _].
    destruct (dataCells_coordinates (rows token) 0
                (List.length (header token))) as [D1 _].
    rewrite map_app, R1, D1.
    replace (List.length (rows token) + 1) with (S (List.length (rows token)))
      by lia.
    reflexivity.
  - apply Forall_app. split.
    + destruct (rowCells_coordinates (header token) 0
                  (List.length (header token)) true) as [_ R2].
      eapply Forall_impl; [| exact R2]. intros cell [-> ->]. reflexivity.
    + apply dataCells_coordinates.
Qed.

Lemma tableConsistent_more : forall (script added : list Request) t ti,
  tableConsistent script t ti -> tableConsistent (script ++ added) t ti.
Proof.
  intros script added t ti (A & B & C & D & (text & Hin & Hl) & E & F).
  repeat split; auto. exists text. split; [| exact Hl].
  apply in_or_app. left. exact Hin.
Qed.

Lemma addListItem_tables : forall isOrdered c item,
  tables (addListItem isOrdered c item) = tables c
  /\ tableInsertRequests (addListItem isOrdered c item) = tableInsertRequests c.
Proof.
  intros isOrdered c item. unfold addListItem.
  destruct (applyInlineFormatting_cursor (tokens item) (currentIndex c)
              (pushRequest
                 (createParagraphBullets (currentIndex c)
                    (currentIndex
                       (advance
                          (lengthZ (extractPlainText (tokens item) ++ JS.LF))
                          (pushRequest
                             (insertText (currentIndex c)
                                (extractPlainText (tokens item) ++ JS.LF)) c)) - 1)
                    (if isOrdered then "NUMBERED_DECIMAL_ALPHA_ROMAN"
                     else "BULLET_DISC_CIRCLE_SQUARE"))
                 (advance (lengthZ (extractPlainText (tokens item) ++ JS.LF))
                    (pushRequest
                       (insertText (currentIndex c)
                          (extractPlainText (tokens item) ++ JS.LF)) c))))
    as (_ & A & B).
  split; [rewrite B | rewrite A]; reflexivity.
Qed.

(** A token that is not a table leaves the recorded tables alone; every
    token only appends to the script. *)
Lemma processToken_tables : forall (c : Converter) (token : Token),
  (exists added, requests (processToken c token) = requests c ++ added)
  /\ ((tables (processToken c token) = tables c
       /\ tableInsertRequests (processToken c token) = tableInsertRequests c)
      \/ exists t ti,
           tables (processToken c token) = tables c ++ [t]
           /\ tableInsertRequests (processToken c token)
              = tableInsertRequests c ++ [ti]
           /\ tableConsistent (requests (processToken c token)) t ti).
Proof.
  intros c token. split.
  - destruct (processToken_shifts token c) as [E _]. eexists. exact E.
  - unfold processToken.
    destruct (isType token "heading").
    { left. unfold addHeading.
      destruct (applyInlineFormatting_cursor (tokens token) (currentIndex c)
                  (pushRequest
                     (updateParagraphStyle (currentIndex c)
                        (currentIndex
                           (advance
                              (lengthZ (extractPlainText (tokens token) ++ JS.LF))
                              (pushRequest
                                 (insertText (currentIndex c)
                                    (extractPlainText (tokens token) ++ JS.LF)) c))
                         - 1)
                        ("HEADING_" ++ JS.ofNat (depth token)) "namedStyleType")
                     (advance (lengthZ (extractPlainText (tokens token) ++ JS.LF))
                        (pushRequest
                           (insertText (currentIndex c)
                              (extractPlainText (tokens token) ++ JS.LF)) c))))
        as (_ & A & B).
      split; [rewrite B | rewrite A]; reflexivity. }
    destruct (isType token "paragraph").
    { left. unfold addParagraph.
      destruct (applyInlineFormatting_cursor (tokens token) (currentIndex c)
                  (advance (lengthZ (extractPlainText (tokens token) ++ JS.LF))
                     (pushRequest
                        (insertText (currentIndex c)
                           (extractPlainText (tokens token) ++ JS.LF)) c)))
        as (_ & A & B).
      split; [rewrite B | rewrite A]; reflexivity. }
    destruct (isType token "list").
    { left. unfold addList. revert c.
      induction (items token) as [| item rest IH]; intros c; simpl;
        [split; reflexivity |].
      destruct (IH (addListItem (ordered token) c item)) as [I1 I2].
      destruct (addListItem_tables (ordered token) c item) as [T1 T2].
      split; congruence. }
    destruct (isType token "code"); [left; split; reflexivity |].
    destruct (isType token "table"); [right; apply addTable_consistent |].
    destruct (isType token "space"); left; split; reflexivity.
Qed.

(** X22.  For every token list, the recorded tables and the queued table
    insertions pair up one to one, in order; each pair names the same
    placeholder, which the script inserts at the recorded index with the
    recorded length; the cells of each table list every (row, column) of
    the table exactly once, row by row, and the bold cells are exactly the
    ones of row 0. *)
Theorem tables_match_placeholders : forall tokens : list Token,
  Forall2 (tableConsistent (requests (runTokens tokens)))
    (tables (runTokens tokens)) (tableInsertRequests (runTokens tokens)).
Proof.
  intros tokens. unfold runTokens.
  assert (K : Forall2 (tableConsistent (requests freshConverter))
                (tables freshConverter) (tableInsertRequests freshConverter))
    by constructor.
  revert K. generalize freshConverter.
  induction tokens as [| token rest IH]; intros c K; simpl; [exact K |].
  apply IH.
  destruct (processToken_tables c token) as [(added & Er) [[T1 T2] | (t & ti & T1 & T2 & T3)]].
  - rewrite T1, T2, Er.
    eapply Forall2_impl; [| exact K]. intros a b. apply tableConsistent_more.
  - rewrite T1, T2. apply Forall2_app.
    + rewrite Er. eapply Forall2_impl; [| exact K].
      intros a b. apply tableConsistent_more.
    + constructor; [exact T3 | constructor].
Qed.

(** ** The outline as a forest *)

(** Induction on an outline tree through its subsections. *)
Section OutlineInduction.
Variable P : Outline -> Prop.
Hypothesis step : forall section subsections,
  Forall P subsections -> P (OutlineOf section subsections).

Fixpoint Outline_nested_ind (t : Outline) : P t :=
  match t with
  | OutlineOf section subsections =>
      step section subsections
        ((fix all (l : list Outline) : Forall P l :=
            match l with
            | [] => Forall_nil P
            | x :: r => Forall_cons x (Outline_nested_ind x) (all r)
            end) subsections)
  end.
End OutlineInduction.

Lemma represents_unfold : forall store avoid s ts k,
  represents store avoid (OutlineOf s ts) k
  <-> ~ In k avoid
      /\ exists refs,
           nth_error store k = Some {| node_section := s; children := refs |}
           /\ Forall2 (represents store avoid) ts refs.
Proof.
  intros store avoid s ts k. cbn [represents].
  assert (E : forall (ts : list Outline) (refs : list nat),
            (fix all (ts : list Outline) (refs : list nat) : Prop :=
               match ts, refs with
               | [], [] => True
               | t' :: ts', r :: refs' =>
                   represents store avoid t' r /\ all ts' refs'
               | _, _ => False
               end) ts refs
            <-> Forall2 (represents store avoid) ts refs).
  { intros l. induction l as [| t' ts' IH]; intros [| r refs'].
    - split; intros _; constructor.
    - split; intros H; [contradiction | inversion H].
    - split; intros H; [contradiction | inversion H].
    - split; intros H.
      + destruct H as [H1 H2]. constructor; [exact H1 | apply IH; exact H2].
      + inversion H; subst. split; [assumption | apply IH; assumption]. }
  split.
  - intros (A & refs & B & C). split; [exact A |].
    exists refs. split; [exact B | apply E; exact C].
  - intros (A & refs & B & C). split; [exact A |].
    exists refs. split; [exact B | apply E; exact C].
Qed.

(** A tree that is represented stays so when the store changes elsewhere
    and the avoided references change to others, old ones or new ones. *)
Lemma represents_stable : forall store store' avoid avoid',
  (forall j, j < List.length store -> ~ In j avoid ->
             nth_error store' j = nth_error store j) ->
  (forall j, In j avoid' -> In j avoid \/ List.length store <= j) ->
  forall t k,
    represents store avoid t k ->
    represents store' avoid' t k.
Proof.
  intros store store' avoid avoid' Hsame Havoid t.
  induction t as [s ts IH] using Outline_nested_ind. intros k H.
  apply represents_unfold in H. destruct H as (A & refs & B & C).
  assert (Hk : k < List.length store) by (eapply nth_error_Some_lt; eauto).
  apply represents_unfold. split.
  - intros Hin. destruct (Havoid k Hin) as [H1 | H1]; [contradiction | lia].
  - exists refs. split; [rewrite Hsame; assumption |].
    clear B. revert refs C. induction IH as [| t' ts' Ht' _ IHts]; intros refs C.
    + inversion C; subst. constructor.
    + inversion C; subst. constructor; [apply Ht'; assumption | apply IHts; assumption].
Qed.

Lemma represents_weaken : forall store avoid avoid' t k,
  incl avoid' avoid ->
  represents store avoid t k -> represents store avoid' t k.
Proof.
  intros store avoid avoid' t k Hincl.
  apply represents_stable; [reflexivity |].
  intros j Hj. left. apply Hincl. exact Hj.
Qed.

Lemma lookupTree_before : forall (nodes : list OutlineNode) (k0 r : nat),
  r < k0 -> lookupTree (treesFrom nodes k0) r = [].
Proof.
  induction nodes as [| node rest IH]; intros k0 r H; simpl; [reflexivity |].
  destruct (Nat.eqb_spec k0 r); [lia |]. apply IH. lia.
Qed.

Lemma lookupTree_skip : forall (j : nat) (nodes : list OutlineNode) (k0 r : nat),
  k0 + j <= r ->
  lookupTree (treesFrom nodes k0) r
  = lookupTree (treesFrom (skipn j nodes) (k0 + j)) r.
Proof.
  induction j as [| j IH]; intros nodes k0 r H.
  - rewrite Nat.add_0_r. reflexivity.
  - destruct nodes as [| node rest].
    + reflexivity.
    + cbn [treesFrom lookupTree skipn].
      destruct (Nat.eqb_spec k0 r); [lia |].
      rewrite (IH rest (S k0) r) by lia.
      replace (S k0 + j) with (k0 + S j) by lia. reflexivity.
Qed.

Lemma skipn_nth : forall (A : Type) (l : list A) (k : nat) (x : A),
  nth_error l k = Some x -> skipn k l = x :: skipn (S k) l.
Proof.
  intros A l. induction l as [| a r IH]; intros k x E.
  - destruct k; discriminate.
  - destruct k as [| k']; simpl in *.
    + inversion E. reflexivity.
    + apply IH. exact E.
Qed.

(** The tree read back for a node whose children were allocated after it:
    its section over the trees read back for its children. *)
Lemma treeAt_unfold : forall (store : list OutlineNode) (k : nat) (node : OutlineNode),
  nth_error store k = Some node ->
  Forall (fun c => k < c) (children node) ->
  treeAt store k
  = [OutlineOf (node_section node) (flat_map (treeAt store) (children node))].
Proof.
  intros store k node E Hfwd. unfold treeAt.
  rewrite (lookupTree_skip k store 0 k) by lia.
  rewrite (skipn_nth _ _ _ _ E). cbn [treesFrom lookupTree Nat.add].
  rewrite Nat.eqb_refl. f_equal. f_equal.
  induction Hfwd as [| c rest Hc _ IH]; [reflexivity |].
  cbn [flat_map]. rewrite IH. f_equal.
  rewrite (lookupTree_skip (S k) store 0 c) by lia. reflexivity.
Qed.

(** Reading back a represented tree gives the tree. *)
Lemma treeAt_represents : forall (store : list OutlineNode) (t : Outline) (k : nat),
  (forall j node, nth_error store j = Some node ->
                  Forall (fun c => j < c) (children node)) ->
  represents store [] t k ->
  treeAt store k = [t].
Proof.
  intros store t. induction t as [s ts IH] using Outline_nested_ind.
  intros k Hfwd H. apply represents_unfold in H.
  destruct H as (_ & refs & E & C).
  rewrite (treeAt_unfold store k _ E (Hfwd _ _ E)). cbn [node_section children].
  f_equal. f_equal.
  clear E. revert refs C. induction IH as [| t' ts' Ht' _ IHts]; intros refs C.
  - inversion C; subst. reflexivity.
  - inversion C; subst. cbn [flat_map].
    rewrite (Ht' _ Hfwd) by assumption. rewrite IHts by assumption. reflexivity.
Qed.

Lemma spine_stable : forall store store' avoid avoid' outline done,
  (forall j, j < List.length store -> ~ In j avoid ->
             nth_error store' j = nth_error store j) ->
  (forall j, In j avoid' -> In j avoid \/ List.length store <= j) ->
  forall stk above frames,
    (forall n, In n stk -> nth_error store' n = nth_error store n) ->
    spine store avoid outline done stk above frames ->
    spine store' avoid' outline done stk above frames.
Proof.
  intros store store' avoid avoid' outline done Hsame Havoid.
  pose proof (represents_stable store store' avoid avoid' Hsame Havoid) as R.
  induction stk as [| n below IH]; intros above frames Hstk H.
  - destruct frames as [| frame frames']; [| contradiction].
    cbn [spine] in *. destruct H as (doneRefs & E & F).
    exists doneRefs. split; [exact E |].
    eapply Forall2_impl; [| exact F]. exact R.
  - destruct frames as [| [sec kids] frames']; [contradiction |].
    cbn [spine] in *. destruct H as ((crefs & E & F) & Hbelow). split.
    + exists crefs. split.
      * rewrite Hstk by (left; reflexivity). exact E.
      * eapply Forall2_impl; [| exact F]. exact R.
    + apply IH; [| exact Hbelow]. intros m Hm. apply Hstk. right. exact Hm.
Qed.

Lemma spine_weaken : forall store avoid avoid' outline done stk above frames,
  incl avoid' avoid ->
  spine store avoid outline done stk above frames ->
  spine store avoid' outline done stk above frames.
Proof.
  intros store avoid avoid' outline done stk above frames Hincl.
  apply spine_stable; [reflexivity | | reflexivity].
  intros j Hj. left. apply Hincl. exact Hj.
Qed.

Lemma flatten_app : forall f1 f2 : list Outline,
  flatten (f1 ++ f2) = flatten f1 ++ flatten f2.
Proof. intros f1 f2. unfold flatten. apply flat_map_app. Qed.

Lemma StronglySorted_snoc : forall (A : Type) (R : A -> A -> Prop)
    (l : list A) (x : A),
  StronglySorted R l -> Forall (fun a => R a x) l -> StronglySorted R (l ++ [x]).
Proof.
  intros A R l x Hs Hf. induction Hs as [| a l Hl IH Ha]; cbn [app].
  - constructor; constructor.
  - inversion Hf as [| ? ? Hax Hrest]; subst. constructor.
    + apply IH. exact Hrest.
    + apply Forall_app. split; [exact Ha |]. constructor; [exact Hax | constructor].
Qed.

Lemma siblingsDescend_unfold : forall (s : Section) (ts : list Outline),
  siblingsDescend (OutlineOf s ts) <-> descend ts.
Proof.
  intros s ts. cbn [siblingsDescend]. unfold descend.
  assert (E : (fix all (l : list Outline) : Prop :=
                 match l with
                 | [] => True
                 | sub :: rest => siblingsDescend sub /\ all rest
                 end) ts
              <-> Forall siblingsDescend ts).
  { induction ts as [| t rest IH]; [split; constructor |].
    split.
    - intros [A B]. constructor; [exact A | apply IH; exact B].
    - intros H. inversion H; subst. split; [assumption | apply IH; assumption]. }
  rewrite E. reflexivity.
Qed.

Lemma descend_snoc : forall (forest : list Outline) (s : Section)
    (ts : list Outline),
  descend forest ->
  descend ts ->
  Forall (fun t => level s <= level (rootSection t)) forest ->
  descend (forest ++ [OutlineOf s ts]).
Proof.
  intros forest s ts [S1 F1] Hts Hb. split.
  - apply StronglySorted_snoc; [exact S1 |].
    eapply Forall_impl; [| exact Hb]. cbn beta. intros t Ht. exact Ht.
  - apply Forall_app. split; [exact F1 |].
    constructor; [apply siblingsDescend_unfold; exact Hts | constructor].
Qed.

Lemma Forall_bound_snoc : forall (forest : list Outline) (s : Section)
    (ts : list Outline) (bound : nat),
  bound <= level s ->
  Forall (fun t => level s <= level (rootSection t)) forest ->
  Forall (fun t => bound <= level (rootSection t)) (forest ++ [OutlineOf s ts]).
Proof.
  intros forest s ts bound Hb Hf. apply Forall_app. split.
  - eapply Forall_impl; [| exact Hf]. cbn beta. intros t Ht. lia.
  - constructor; [exact Hb | constructor].
Qed.

(** Closing the entry over the stack: its tree becomes one more closed
    child of the entry below, or one more closed top-level tree. *)
Lemma spine_close : forall store avoid outline done stk n frames sec kids bound,
  spine store avoid outline done stk [n] frames ->
  represents store avoid (OutlineOf sec kids) n ->
  nested done frames ->
  Forall (fun kid => level sec < level (rootSection kid) /\ deeperBelow kid) kids ->
  (forall frame, hd_error frames = Some frame -> level (fst frame) < level sec) ->
  descend kids ->
  sorted (level sec) done frames ->
  bound <= level sec ->
  exists done' frames',
    spine store avoid outline done' stk [] frames'
    /\ zflat done' frames' = zflat done ((sec, kids) :: frames)
    /\ nested done' frames'
    /\ sorted bound done' frames'.
Proof.
  intros store avoid outline done stk n frames sec kids bound
    H Hrep (N1 & N2) Hkids Hlvl Dkids (S1 & S2 & S3) Hbound.
  assert (Dk : deeperBelow (OutlineOf sec kids)).
  { cbn [deeperBelow]. clear - Hkids.
    induction Hkids as [| kid rest [K1 K2] _ IH]; [exact I |].
    split; [exact K1 |]. split; [exact K2 | exact IH]. }
  destruct stk as [| n' below].
  - destruct frames as [| frame frames']; [| contradiction].
    cbn [spine] in H. destruct H as (doneRefs & E & F).
    cbn [bounded] in S3.
    exists (done ++ [OutlineOf sec kids]), []. split; [| split; [| split]].
    + cbn [spine]. exists (doneRefs ++ [n]). split.
      * rewrite app_nil_r. exact E.
      * apply Forall2_app; [exact F |]. constructor; [exact Hrep | constructor].
    + unfold zflat, flatten. simpl. rewrite flat_map_app. simpl.
      rewrite !app_nil_r. reflexivity.
    + split; [| constructor]. apply Forall_app. split; [exact N1 |].
      constructor; [exact Dk | constructor].
    + split; [| split].
      * apply descend_snoc; assumption.
      * constructor.
      * cbn [bounded]. apply Forall_bound_snoc; assumption.
  - destruct frames as [| [sec' kids'] frames']; [contradiction |].
    cbn [spine] in H. destruct H as ((crefs & E & F) & Hbelow).
    cbn [bounded fst snd] in S3. destruct S3 as [S3 S4].
    inversion S2 as [| ? ? Dkids' S2']; subst. cbn [snd] in Dkids'.
    exists done, ((sec', kids' ++ [OutlineOf sec kids]) :: frames').
    split; [| split; [| split]].
    + cbn [spine]. split; [| exact Hbelow].
      exists (crefs ++ [n]). split.
      * rewrite app_nil_r. exact E.
      * apply Forall2_app; [exact F |]. constructor; [exact Hrep | constructor].
    + unfold zflat, flatten. f_equal. simpl.
      rewrite !flat_map_app. simpl. rewrite !flat_map_app. simpl.
      rewrite !app_nil_r, <- !app_assoc. simpl. reflexivity.
    + split; [exact N1 |]. inversion N2 as [| ? ? Hf Hrest]; subst.
      constructor; [| exact Hrest]. cbn [fst snd] in *.
      apply Forall_app. split; [exact Hf |].
      constructor; [| constructor]. split; [| exact Dk].
      apply (Hlvl (sec', kids') eq_refl).
    + split; [exact S1 |]. split.
      * constructor; [| exact S2']. cbn [snd].
        apply descend_snoc; assumption.
      * cbn [bounded fst snd]. split; [| exact S4].
        apply Forall_bound_snoc; assumption.
Qed.

Lemma spine_top_level : forall store avoid outline done n below above frame frames,
  spine store avoid outline done (n :: below) above (frame :: frames) ->
  levelOfRef store n = level (fst frame).
Proof.
  intros store avoid outline done n below above [sec kids] frames H.
  cbn [spine] in H. destruct H as ((crefs & E & _) & _).
  unfold levelOfRef. rewrite E. reflexivity.
Qed.

(** A pop closes the top entry of the stack. *)
Lemma spine_pop : forall store outline done n below frames bound bound',
  spine store (n :: below) outline done (n :: below) [] frames ->
  nested done frames ->
  sorted bound' done frames ->
  bound <= levelOfRef store n ->
  StronglySorted (fun upper lower => lower < upper)
    (map (levelOfRef store) (n :: below)) ->
  exists done' frames',
    spine store below outline done' below [] frames'
    /\ zflat done' frames' = zflat done frames
    /\ nested done' frames'
    /\ sorted bound done' frames'.
Proof.
  intros store outline done n below frames bound bound'
    H (N1 & N2) (S1 & S2 & S3) Hbound Hsorted.
  destruct frames as [| [sec kids] frames]; [contradiction |].
  pose proof (spine_top_level _ _ _ _ _ _ _ _ _ H) as Ltop. cbn [fst] in Ltop.
  cbn [spine] in H. destruct H as ((crefs & E & F) & Hbelow).
  rewrite app_nil_r in E.
  cbn [map] in Hsorted. apply StronglySorted_inv in Hsorted.
  destruct Hsorted as [_ Htop]. rewrite Forall_forall in Htop.
  assert (Hnot : ~ In n below).
  { intros Hin. specialize (Htop _ (in_map (levelOfRef store) _ _ Hin)). lia. }
  assert (Hincl : incl below (n :: below)) by (intros j Hj; right; exact Hj).
  apply (spine_weaken _ _ below) in Hbelow; [| exact Hincl].
  inversion N2 as [| ? ? Hkids Hrest]; subst. cbn [fst snd] in Hkids.
  inversion S2 as [| ? ? Dkids S2']; subst. cbn [snd] in Dkids.
  cbn [bounded fst snd] in S3. destruct S3 as [_ S3].
  apply (spine_close store below outline done below n frames sec kids).
  - exact Hbelow.
  - apply represents_unfold. split; [exact Hnot |].
    exists crefs. split; [exact E |].
    eapply Forall2_impl; [| exact F].
    intros t k. apply represents_weaken. exact Hincl.
  - split; assumption.
  - exact Hkids.
  - intros frame Hf. destruct frames as [| frame' frames']; [discriminate |].
    cbn [hd_error] in Hf. inversion Hf; subst frame'.
    destruct below as [| n' below']; [contradiction |].
    pose proof (spine_top_level _ _ _ _ _ _ _ _ _ Hbelow) as Lnext.
    rewrite <- Lnext, <- Ltop. apply Htop. left. reflexivity.
  - exact Dkids.
  - split; [exact S1 |]. split; [exact S2' | exact S3].
  - rewrite <- Ltop. exact Hbound.
Qed.

(** The loop of pops closes the entries it removes and leaves the
    sections seen so far as they are. *)
Lemma spine_popStack : forall store outline lvl stk done frames,
  spine store stk outline done stk [] frames ->
  nested done frames ->
  sorted lvl done frames ->
  StronglySorted (fun upper lower => lower < upper) (map (levelOfRef store) stk) ->
  exists done' frames',
    spine store (popStack store stk lvl) outline done' (popStack store stk lvl) []
      frames'
    /\ zflat done' frames' = zflat done frames
    /\ nested done' frames'
    /\ sorted lvl done' frames'.
Proof.
  intros store outline lvl. induction stk as [| n below IH];
    intros done frames H N S Hsorted.
  - exists done, frames. cbn [popStack].
    split; [exact H |]. split; [reflexivity |]. split; assumption.
  - cbn [popStack]. destruct (lvl <=? levelOfRef store n) eqn:L.
    + apply Nat.leb_le in L.
      destruct (spine_pop _ _ _ _ _ _ lvl lvl H N S L Hsorted)
        as (done1 & frames1 & H1 & Z1 & N1 & S1).
      cbn [map] in Hsorted. apply StronglySorted_inv in Hsorted.
      destruct (IH done1 frames1 H1 N1 S1 (proj1 Hsorted))
        as (done2 & frames2 & H2 & Z2 & N2 & S2).
      exists done2, frames2. split; [exact H2 |]. split; [| split; assumption].
      rewrite Z2. exact Z1.
    + exists done, frames.
      split; [exact H |]. split; [reflexivity |]. split; assumption.
Qed.

Lemma zflat_push : forall done frames section,
  zflat done ((section, []) :: frames) = zflat done frames ++ [section].
Proof.
  intros done frames section. unfold zflat. cbn [List.rev].
  rewrite flat_map_app. cbn [flat_map fst snd flatten app].
  rewrite app_assoc. reflexivity.
Qed.

Lemma sorted_push : forall done frames section,
  sorted (level section) done frames ->
  forall bound, sorted bound done ((section, []) :: frames).
Proof.
  intros done frames section (S1 & S2 & S3) bound.
  split; [exact S1 |]. split.
  - constructor; [| exact S2]. split; constructor.
  - cbn [bounded fst snd]. split; [constructor | exact S3].
Qed.

(** One iteration of the loop keeps the store a picture of a forest under
    construction, with the new section as its last node in preorder. *)
Lemma outlineStep_tracks : forall s section processed,
  tracks s processed -> tracks (outlineStep s section) (processed ++ [section]).
Proof.
  intros s section processed (W & done & frames & H & Z & N & S).
  split; [apply outlineStep_wellFormed; exact W |].
  destruct W as (Hstack & Houtline & Hkids & Hsorted).
  destruct (spine_popStack _ _ (level section) _ _ _ H N (S (level section)) Hsorted)
    as (done1 & frames1 & H1 & Z1 & N1 & S1).
  destruct (popStack_sorted (store s) (stack s) (level section) Hsorted)
    as [Hksorted _].
  pose proof (popStack_suffix_valid (store s) (stack s) (level section) _ Hstack)
    as Hkept.
  unfold outlineStep.
  set (leaf := {| node_section := section; children := [] |}).
  assert (Enew : nth_error (store s ++ [leaf]) (List.length (store s)) = Some leaf).
  { rewrite nth_error_app2 by lia. rewrite Nat.sub_diag. reflexivity. }
  destruct (popStack (store s) (stack s) (level section)) as [| top kept].
  - destruct frames1 as [| frame1 frames1]; [| contradiction].
    cbn [spine] in H1. destruct H1 as (doneRefs & E & F).
    exists done1, [(section, [])]. cbn [store stack outline].
    split; [| split; [| split]].
    + cbn [spine]. split.
      * exists []. split; [exact Enew | constructor].
      * exists doneRefs. split.
        -- rewrite E, app_nil_r. reflexivity.
        -- eapply Forall2_impl; [| exact F].
           apply represents_stable.
           ++ intros j Hj _. apply nth_error_app1. exact Hj.
           ++ intros j [<- | []]. right. lia.
    + rewrite zflat_push, Z1, Z. reflexivity.
    + destruct N1 as [N1 _]. split; [exact N1 |].
      constructor; [constructor | constructor].
    + apply sorted_push. exact S1.
  - destruct frames1 as [| [sec' kids'] frames1]; [contradiction |].
    cbn [spine] in H1. destruct H1 as ((crefs & E & F) & Hb).
    rewrite app_nil_r in E.
    assert (Htop : top < List.length (store s)) by (inversion Hkept; assumption).
    assert (Hkept' : forall n, In n kept -> n < List.length (store s) /\ n <> top).
    { intros n Hn. inversion Hkept as [| ? ? _ Hrest]; subst.
      rewrite Forall_forall in Hrest. split; [apply Hrest; exact Hn |].
      cbn [map] in Hksorted. apply StronglySorted_inv in Hksorted.
      destruct Hksorted as [_ Hlow]. rewrite Forall_forall in Hlow.
      intros ->. specialize (Hlow _ (in_map (levelOfRef (store s)) _ _ Hn)). lia. }
    set (store' := pushChild (store s ++ [leaf]) top (List.length (store s))).
    assert (Hsame : forall j, j < List.length (store s) -> ~ In j (top :: kept) ->
                              nth_error store' j = nth_error (store s) j).
    { intros j Hj Hnot. unfold store'. rewrite pushChild_other.
      - apply nth_error_app1. exact Hj.
      - intros ->. apply Hnot. left. reflexivity. }
    assert (Havoid : forall j, In j (List.length (store s) :: top :: kept) ->
                               In j (top :: kept) \/ List.length (store s) <= j).
    { intros j [<- | Hj]; [right; lia | left; exact Hj]. }
    exists done1, ((section, []) :: (sec', kids') :: frames1).
    cbn [store stack outline]. split; [| split; [| split]].
    + cbn [spine]. split; [| split].
      * exists []. split; [| constructor].
        unfold store'. rewrite pushChild_other by lia. exact Enew.
      * exists crefs. split.
        -- unfold store'.
           rewrite (pushChild_same _ _ _ {| node_section := sec'; children := crefs |}).
           ++ reflexivity.
           ++ rewrite nth_error_app1 by exact Htop. exact E.
        -- eapply Forall2_impl; [| exact F].
           apply represents_stable; assumption.
      * apply (spine_stable (store s) store' (top :: kept)); try assumption.
        intros n Hn. destruct (Hkept' n Hn) as [Hlt Hne].
        unfold store'. rewrite pushChild_other by exact Hne.
        apply nth_error_app1. exact Hlt.
    + rewrite zflat_push, Z1, Z. reflexivity.
    + destruct N1 as [N1 N1']. split; [exact N1 |].
      constructor; [constructor | exact N1'].
    + apply sorted_push. exact S1.
Qed.

Lemma outlineLoop_tracks : forall sections : list Section,
  tracks (outlineLoop sections) sections.
Proof.
  intros sections. unfold outlineLoop.
  assert (H : tracks initialOutlineState []).
  { split.
    - split; [| split; [| split]]; try constructor.
      intros k nd E. destruct k; discriminate.
    - exists [], []. split; [| split; [| split]].
      + cbn [spine initialOutlineState stack outline]. exists [].
        split; [reflexivity | constructor].
      + reflexivity.
      + split; constructor.
      + intros bound. split; [split; constructor |].
        split; [constructor | cbn [bounded]; constructor]. }
  change sections with ([] ++ sections) at 2.
  revert H. generalize (@nil Section) as processed. generalize initialOutlineState.
  induction sections as [| section rest IH]; intros s processed H.
  - rewrite app_nil_r. exact H.
  - cbn [fold_left].
    replace (processed ++ section :: rest) with ((processed ++ [section]) ++ rest)
      by (rewrite <- app_assoc; reflexivity).
    apply IH. apply outlineStep_tracks. exact H.
Qed.

(** What [buildOutline] returns, read off the store: the forest that the
    invariant describes once every open entry is closed. *)
Lemma buildOutline_forest : forall sections : list Section,
  flatten (buildOutline sections) = sections
  /\ Forall deeperBelow (buildOutline sections)
  /\ descend (buildOutline sections).
Proof.
  intros sections.
  destruct (outlineLoop_tracks sections) as (W & done & frames & H & Z & N & S).
  destruct W as (Hstack & Houtline & Hkids & Hsorted).
  destruct (spine_popStack _ _ 0 _ _ _ H N (S 0) Hsorted)
    as (done1 & frames1 & H1 & Z1 & N1 & S1).
  assert (Epop : forall st stk, popStack st stk 0 = []).
  { intros st stk. induction stk as [| n below IH]; [reflexivity | exact IH]. }
  rewrite Epop in H1.
  destruct frames1 as [| frame1 frames1]; [| contradiction].
  cbn [spine] in H1. destruct H1 as (doneRefs & E & F).
  rewrite app_nil_r in E.
  assert (R : buildOutline sections = done1).
  { unfold buildOutline, readOutline. rewrite E.
    change (lookupTree (treesFrom (store (outlineLoop sections)) 0))
      with (treeAt (store (outlineLoop sections))).
    clear - F Hkids. induction F as [| t k ts ks Htk _ IH]; [reflexivity |].
    cbn [flat_map]. rewrite IH. rewrite (treeAt_represents _ t k).
    - reflexivity.
    - intros j node Ej. eapply Forall_impl; [| exact (Hkids j node Ej)].
      cbn beta. intros c Hc. lia.
    - exact Htk. }
  rewrite R. split; [| split].
  - rewrite <- Z, <- Z1. unfold zflat. cbn [List.rev flat_map].
    rewrite app_nil_r. reflexivity.
  - apply N1.
  - apply S1.
Qed.

(** ** Printing the outline *)



(** ** Headings written and read back *)

Lemma parseDigits_uint : forall (d : Decimal.uint) (acc : nat),
  JS.parseDigits (NilEmpty.string_of_uint d) acc = Nat.of_uint_acc d acc.
Proof.
  induction d as [| d IH | d IH | d IH | d IH | d IH | d IH | d IH | d IH
                  | d IH | d IH];
    intros acc; cbn [NilEmpty.string_of_uint Nat.of_uint_acc JS.parseDigits];
    [reflexivity | ..];
    match goal with
    | |- context [JS.digitValue ?c] =>
        let v := eval vm_compute in (JS.digitValue c) in
        change (JS.digitValue c) with v
    end;
    cbv iota beta; rewrite IH, Nat.tail_mul_spec; f_equal; lia.
Qed.

Lemma parseInt_ofNat : forall n : nat, JS.parseInt (JS.ofNat n) = Some n.
Proof.
  intros n. unfold JS.ofNat.
  rewrite <- (DecimalNat.Unsigned.of_to n) at 2.
  generalize (Nat.to_uint n) as d. intros d. unfold Nat.of_uint.
  destruct d; try reflexivity;
    unfold NilZero.string_of_uint;
    rewrite <- parseDigits_uint; reflexivity.
Qed.

Lemma substring_all : forall s : string, substring 0 (String.length s) s = s.
Proof.
  induction s as [| c r IH]; [reflexivity |].
  cbn [String.length substring]. rewrite IH. reflexivity.
Qed.

Lemma stripTrailingLF_append : forall t : string,
  JS.stripTrailingLF (t ++ JS.LF) = t.
Proof.
  induction t as [| c r IH]; [reflexivity |].
  change ((String c r ++ JS.LF)%string) with (String c (r ++ JS.LF)%string).
  cbn [JS.stripTrailingLF]. rewrite IH.
  destruct r; reflexivity.
Qed.

(** X23.  [buildOutline] loses and repeats nothing: read parents first and
    children left to right, the forest it returns lists the sections it was
    given, in their order. *)
Theorem outline_preorder_is_section_list : forall sections : list Section,
  flatten (buildOutline sections) = sections.
Proof. intros sections. apply buildOutline_forest. Qed.

(** X24.  In the forest [buildOutline] returns, every child, at any depth,
    has a strictly higher heading level than the node it hangs from. *)
Theorem outline_children_are_deeper : forall sections : list Section,
  Forall deeperBelow (buildOutline sections).
Proof. intros sections. apply buildOutline_forest. Qed.


(** X28.  In the forest [buildOutline] returns, a later sibling is never
    deeper than an earlier one: this holds for the top-level trees and for
    the children of every node, at any depth.  With the preorder and the
    rule for children this fixes the forest. *)
Theorem outline_siblings_never_deepen : forall sections : list Section,
  descend (buildOutline sections).
Proof. intros sections. apply buildOutline_forest. Qed.

(** X26.  The second request of [addHeading] sets a named style that
    [parseDocumentSections] takes for a heading, and the level it reads
    from that name is the depth of the heading token. *)
Theorem heading_style_read_back : forall (token : Token) (c : Converter),
  exists (first last : Z) (name : string),
    nth_error (requests (addHeading token c)) (S (List.length (requests c)))
    = Some (updateParagraphStyle first last name "namedStyleType")
    /\ JS.startsWith name "HEADING_" = true
    /\ JS.parseInt (JS.dropPrefix name "HEADING_") = Some (depth token)
    /\ levelOfStyle name = depth token.
Proof.
  intros token c. destruct (addHeading_script token c) as [E _].
  eexists _, _, _. split; [| split; [| split]].
  - rewrite E. rewrite nth_error_app2 by lia.
    replace (S (List.length (requests c)) - List.length (requests c)) with 1 by lia.
    reflexivity.
  - unfold JS.startsWith. simpl. destruct (JS.ofNat (depth token)); reflexivity.
  - unfold JS.dropPrefix.
    change (("HEADING_" ++ JS.ofNat (depth token))%string)
      with (String "H" (String "E" (String "A" (String "D" (String "I"
             (String "N" (String "G" (String "_" (JS.ofNat (depth token)))))))))).
    cbn [String.length Nat.sub substring].
    rewrite Nat.sub_0_r, substring_all. apply parseInt_ofNat.
  - unfold levelOfStyle, JS.dropPrefix.
    change (("HEADING_" ++ JS.ofNat (depth token))%string)
      with (String "H" (String "E" (String "A" (String "D" (String "I"
             (String "N" (String "G" (String "_" (JS.ofNat (depth token)))))))))).
    cbn [String.length Nat.sub substring].
    rewrite Nat.sub_0_r, substring_all, parseInt_ofNat. reflexivity.
Qed.

(** X27.  The text [addHeading] inserts comes back as the title: a
    paragraph whose runs, put together, are the inserted text is read by
    [extractTextFromParagraph] as the plain text of the heading token. *)
Theorem heading_text_read_back : forall (token : Token) (c : Converter)
    (inserted : string) (p : Paragraph) (els : list ParagraphElement),
  nth_error (requests (addHeading token c)) (List.length (requests c))
  = Some (insertText (currentIndex c) inserted) ->
  elements p = Some els ->
  JS.join (map (fun element =>
                  match textRun element with
                  | Some run => content run
                  | None => ""
                  end) els) = inserted ->
  extractTextFromParagraph p = extractPlainText (tokens token).
Proof.
  intros token c inserted p els Hreq Hels Hjoin.
  destruct (addHeading_script token c) as [E _].
  rewrite E in Hreq. rewrite nth_error_app2 in Hreq by lia.
  rewrite Nat.sub_diag in Hreq. cbn [nth_error] in Hreq.
  inversion Hreq as [Hins].
  unfold extractTextFromParagraph. rewrite Hels, Hjoin, <- Hins.
  apply stripTrailingLF_append.
Qed.

Lemma heading_text_read_back_witness :
  extractTextFromParagraph
    {| elements :=
         Some [ {| textRun := Some {| content := "Ti" |} |};
                {| textRun := None |};
                {| textRun := Some {| content := "tle" ++ JS.LF |} |} ];
       paragraphStyle := None |}
  = extractPlainText
      (tokens (mkToken "heading" (Some "Title") (Some [plain "Title"]) 1 ""
                 false [] [] [])).
Proof.
  apply (heading_text_read_back _ freshConverter ("Title" ++ JS.LF)%string _
           [ {| textRun := Some {| content := "Ti" |} |};
             {| textRun := None |};
             {| textRun := Some {| content := "tle" ++ JS.LF |} |} ]);
    reflexivity.
Defined.

(** ** The outline is determined by its three properties *)

Lemma deeperBelow_unfold : forall (s : Section) (ts : list Outline),
  deeperBelow (OutlineOf s ts)
  <-> Forall (fun sub => level s < level (rootSection sub) /\ deeperBelow sub) ts.
Proof.
  intros s ts. cbn [deeperBelow].
  induction ts as [| t rest IH]; [split; constructor |].
  split.
  - intros (A & B & C). constructor; [split; assumption | apply IH; exact C].
  - intros H. inversion H as [| ? ? [A B] C]; subst.
    split; [exact A |]. split; [exact B | apply IH; exact C].
Qed.

Lemma deeper_descendants : forall t : Outline,
  deeperBelow t ->
  Forall (fun x => level (rootSection t) < level x) (flatten (subsectionsOf t)).
Proof.
  intros t. induction t as [s ts IH] using Outline_nested_ind. intros D.
  apply deeperBelow_unfold in D. cbn [rootSection subsectionsOf]. unfold flatten.
  induction IH as [| c cs Hc _ IHcs]; [constructor |].
  inversion D as [| ? ? [L Dc] Drest]; subst.
  cbn [flat_map]. apply Forall_app. split; [| apply IHcs; exact Drest].
  specialize (Hc Dc). destruct c as [sc tsc].
  cbn [preorder rootSection subsectionsOf] in *. constructor; [exact L |].
  eapply Forall_impl; [| exact Hc]. cbn beta. intros x Hx. lia.
Qed.

Lemma prefix_split_unique : forall (A : Type) (P : A -> Prop) (a a' b b' : list A),
  a ++ b = a' ++ b' ->
  Forall P a -> Forall P a' ->
  (forall x, hd_error b = Some x -> ~ P x) ->
  (forall x, hd_error b' = Some x -> ~ P x) ->
  a = a' /\ b = b'.
Proof.
  intros A P. induction a as [| x a IH]; intros a' b b' E Ha Ha' Hb Hb'.
  - destruct a' as [| y a']; [split; [reflexivity | exact E] |].
    simpl in E. rewrite E in Hb. inversion Ha'; subst.
    exfalso. apply (Hb y eq_refl). assumption.
  - destruct a' as [| y a'].
    + simpl in E. rewrite <- E in Hb'. inversion Ha; subst.
      exfalso. apply (Hb' x eq_refl). assumption.
    + simpl in E. inversion E; subst y.
      inversion Ha; subst. inversion Ha'; subst.
      destruct (IH a' b b') as [-> ->]; try assumption.
      split; reflexivity.
Qed.

Lemma flatten_head : forall (t : Outline) (rest : list Outline),
  hd_error (flatten (t :: rest)) = Some (rootSection t).
Proof. intros [s ts] rest. reflexivity. Qed.

Lemma later_trees_not_deeper : forall (s : Section) (ts rest : list Outline),
  descend (OutlineOf s ts :: rest) ->
  forall x, hd_error (flatten rest) = Some x -> ~ level s < level x.
Proof.
  intros s ts rest [Hs _] x Hx. destruct rest as [| t rest']; [discriminate |].
  rewrite flatten_head in Hx. inversion Hx; subst x.
  apply StronglySorted_inv in Hs. destruct Hs as [_ Hs].
  inversion Hs; subst. cbn [rootSection] in *. lia.
Qed.

Lemma forest_unique : forall (n : nat) (f g : list Outline),
  List.length (flatten f) <= n ->
  flatten f = flatten g ->
  Forall deeperBelow f -> descend f ->
  Forall deeperBelow g -> descend g ->
  f = g.
Proof.
  induction n as [| n IH]; intros f g Hn E Df Sf Dg Sg.
  - destruct f as [| [s ts] f']; [| cbn in Hn; lia].
    destruct g as [| [s' us] g']; [reflexivity | discriminate].
  - destruct f as [| [s ts] f']; destruct g as [| [s' us] g'];
      [reflexivity | discriminate | discriminate |].
    unfold flatten in E, Hn. cbn [flat_map preorder] in E, Hn.
    cbn [app List.length] in E, Hn.
    inversion E as [[Es Erest]]. subst s'.
    rewrite List.length_app in Hn. cbn [List.length] in Hn.
    inversion Df as [| ? ? Dt Df']; subst. inversion Dg as [| ? ? Du Dg']; subst.
    destruct (prefix_split_unique _ (fun x => level s < level x)
                _ _ _ _ Erest) as [E1 E2].
    + apply (deeper_descendants (OutlineOf s ts) Dt).
    + apply (deeper_descendants (OutlineOf s us) Du).
    + apply (later_trees_not_deeper s ts f' Sf).
    + apply (later_trees_not_deeper s us g' Sg).
    + destruct Sf as [Sf1 Sf2]. destruct Sg as [Sg1 Sg2].
      apply StronglySorted_inv in Sf1. apply StronglySorted_inv in Sg1.
      inversion Sf2 as [| ? ? St Sf2']; subst.
      inversion Sg2 as [| ? ? Su Sg2']; subst.
      apply siblingsDescend_unfold in St. apply siblingsDescend_unfold in Su.
      apply deeperBelow_unfold in Dt. apply deeperBelow_unfold in Du.
      assert (Ets : ts = us).
      { apply IH; try assumption.
        - unfold flatten. lia.
        - eapply Forall_impl; [| exact Dt]. cbn beta. intros t [_ H]. exact H.
        - eapply Forall_impl; [| exact Du]. cbn beta. intros t [_ H]. exact H. }
      assert (Ef : f' = g').
      { apply IH; try assumption.
        - unfold flatten. lia.
        - split; [apply Sf1 | exact Sf2'].
        - split; [apply Sg1 | exact Sg2']. }
      subst. reflexivity.
Qed.

(** X29.  The three properties fix the outline: a forest that lists the
    sections in preorder, whose children are deeper than the node they
    hang from and whose later siblings are never deeper than earlier ones
    is the forest [buildOutline] returns. *)
Theorem outline_is_the_only_such_forest : forall (sections : list Section)
    (forest : list Outline),
  flatten forest = sections ->
  Forall deeperBelow forest ->
  descend forest ->
  buildOutline sections = forest.
Proof.
  intros sections forest E D S.
  destruct (buildOutline_forest sections) as (E' & D' & S').
  apply (forest_unique (List.length sections)); try assumption.
  - rewrite E'. lia.
  - rewrite E', E. reflexivity.
Qed.

Lemma outline_is_the_only_such_forest_witness :
  buildOutline (parseDocumentSections doc1221)
  = match parseDocumentSections doc1221 with
    | [a; b; c; d] => [OutlineOf a [OutlineOf b []; OutlineOf c []]; OutlineOf d []]
    | _ => []
    end.
Proof.
  apply (outline_is_the_only_such_forest (parseDocumentSections doc1221)).
  - reflexivity.
  - vm_compute. repeat constructor.
  - vm_compute. repeat constructor.
Defined.
